(** * Zotero duplicate detection (duplicate_enhanced.js, v2.2)

    A shallow embedding of
    [src/zotero-duplicate-enhanced/src/duplicate_enhanced.js]: field
    normalisation, the similarity primitives, the weighted pairwise score,
    the pairwise comparison loop, the retrieval of the items of a collection,
    the user preferences and the handling of the candidates found, followed
    by the properties proved of them.

    Conventions of the embedding.
    - A JavaScript string is a [string]; one [ascii] stands for one code unit
      below 256.  The character classes of the regular expressions ([\s], [\d],
      [\w], [\b]) are the ECMAScript ones restricted to that range.
    - A JavaScript number is an exact rational [Q].  The rounding of binary
      floating point is represented where a property depends on it: in
      [Float], where every operation is followed by a rounding, [round64]
      for doubles.  Lengths, sizes and edit distances are [nat].
    - An exception is an abrupt completion [Throw e]; code that can raise is
      written in the [Completion] monad.
    - Console output (progress lines, timings) is not part of the model.
    - The dialogs opened and the calls made on library items are recorded,
      in order, in a trace of [HostOp]; the answers of the user and the
      failures of the library are functions of the trace so far. *)

From stdpp Require Import gmap strings list fin_maps sorting.
From Stdlib Require Import QArith Qminmax Qabs Qround Qpower Lqa.
From Stdlib Require Import Permutation Sorted.
From Stdlib Require Import Ascii.
From Stdlib Require String DecimalString SpecFloat.

Close Scope Q_scope.

(* ------------------------------------------------------------------------- *)
(** ** Completions: values or thrown errors *)
(* ------------------------------------------------------------------------- *)

Inductive Completion (A : Type) : Type :=
  | Normal (a : A)
  | Throw (e : string).
Arguments Normal {A} a.
Arguments Throw {A} e.

Global Instance Completion_ret : MRet Completion := λ A a, Normal a.

Global Instance Completion_bind : MBind Completion := λ A B k m,
  match m with
  | Normal a => k a
  | Throw e => Throw e
  end.

(** [for (const x of xs) out.push(f(x))], stopping at the first exception. *)
Fixpoint forEachPush {A B : Type} (f : A → Completion B) (xs : list A)
    (out : list B) : Completion (list B) :=
  match xs with
  | [] => Normal out
  | x :: xs' => y ← f x; forEachPush f xs' (out ++ [y])
  end.

(* ------------------------------------------------------------------------- *)
(** ** JavaScript string helpers *)
(* ------------------------------------------------------------------------- *)

Module JS.

Definition code (c : ascii) : N := Ascii.N_of_ascii c.

Definition between (lo hi : N) (c : ascii) : bool :=
  ((lo <=? code c) && (code c <=? hi))%N.

(** [\s]: TAB, LF, VT, FF, CR, SPACE, NBSP. *)
Definition isSpace (c : ascii) : bool :=
  between 9 13 c || (code c =? 32)%N || (code c =? 160)%N.

(** [\d] *)
Definition isDigit (c : ascii) : bool := between 48 57 c.

(** [\w] *)
Definition isWord (c : ascii) : bool :=
  isDigit c || between 65 90 c || between 97 122 c || (code c =? 95)%N.

(** Truthiness of a string: only the empty string is falsy. *)
Definition truthy (s : string) : bool :=
  match s with
  | EmptyString => false
  | String _ _ => true
  end.

(** [a || b] on strings. *)
Definition or (a b : string) : string := if truthy a then a else b.

Definition length (s : string) : nat := String.length s.

Fixpoint mapChars (f : ascii → ascii) (s : string) : string :=
  match s with
  | EmptyString => EmptyString
  | String c s' => String (f c) (mapChars f s')
  end.

Fixpoint filterChars (p : ascii → bool) (s : string) : string :=
  match s with
  | EmptyString => EmptyString
  | String c s' => if p c then String c (filterChars p s') else filterChars p s'
  end.

Fixpoint dropWhile (p : ascii → bool) (s : string) : string :=
  match s with
  | EmptyString => EmptyString
  | String c s' => if p c then dropWhile p s' else s
  end.

(** Longest prefix whose characters satisfy [p], and the rest. *)
Fixpoint span (p : ascii → bool) (s : string) : string * string :=
  match s with
  | EmptyString => (EmptyString, EmptyString)
  | String c s' =>
      if p c then let '(a, b) := span p s' in (String c a, b)
      else (EmptyString, s)
  end.

Definition toLowerChar (c : ascii) : ascii :=
  if between 65 90 c || (between 192 222 c && negb (code c =? 215)%N)
  then Ascii.ascii_of_N (code c + 32) else c.

Definition toLowerCase (s : string) : string := mapChars toLowerChar s.

(** Upper-casing of the ASCII letters; the script applies it only to a
    string of digits and the letters [X], [x]. *)
Definition toUpperChar (c : ascii) : ascii :=
  if between 97 122 c then Ascii.ascii_of_N (code c - 32) else c.

Definition toUpperCase (s : string) : string := mapChars toUpperChar s.

Definition trimStart (s : string) : string := dropWhile isSpace s.

Definition trimEnd (s : string) : string :=
  String.rev (dropWhile isSpace (String.rev s)).

Definition trim (s : string) : string := trimEnd (trimStart s).

(** [s.split(/\s+/)]: the pieces between maximal runs of white space;
    [cur] is the piece being read, [inSep] tells that the previous
    character was white space. *)
Fixpoint split_ws_go (cur : string) (inSep : bool) (s : string) : list string :=
  match s with
  | EmptyString => [cur]
  | String c s' =>
      if isSpace c then
        if inSep then split_ws_go cur true s'
        else cur :: split_ws_go EmptyString true s'
      else split_ws_go (cur +:+ String c EmptyString) false s'
  end.

Definition split_ws (s : string) : list string := split_ws_go EmptyString false s.

(** [s.replace(/\s+/g, ' ')] *)
Fixpoint collapse_ws (inSep : bool) (s : string) : string :=
  match s with
  | EmptyString => EmptyString
  | String c s' =>
      if isSpace c then
        if inSep then collapse_ws true s'
        else String " "%char (collapse_ws true s')
      else String c (collapse_ws false s')
  end.

(** [xs.join(' ')] *)
Fixpoint join (sep : string) (xs : list string) : string :=
  match xs with
  | [] => EmptyString
  | [x] => x
  | x :: xs' => x +:+ sep +:+ join sep xs'
  end.

(** [Array.prototype.sort]: a stable sort.  [le a b] tells that the
    comparator does not put [b] strictly before [a]. *)
Section Sort.
Context {A : Type} (le : A → A → bool).

Fixpoint insert_sorted (x : A) (l : list A) : list A :=
  match l with
  | [] => [x]
  | y :: l' => if le x y then x :: y :: l' else y :: insert_sorted x l'
  end.

Fixpoint sort (l : list A) : list A :=
  match l with
  | [] => []
  | x :: l' => insert_sorted x (sort l')
  end.
End Sort.

(** The default comparator of [sort()] orders strings by code units. *)
Definition sortStrings (l : list string) : list string := sort String.leb l.

(** [x.toFixed(1)] for a rational [x]: the nearest tenth, the larger one on
    a tie. *)
Definition digits (z : Z) : string :=
  DecimalString.NilZero.string_of_uint (N.to_uint (Z.to_N z)).

Definition toFixed1 (x : Q) : string :=
  let a := Qabs x in
  let n := Qfloor (a * 10 + (1 # 2))%Q in
  let body := digits (n / 10)%Z +:+ "." +:+ digits (n mod 10)%Z in
  if Qle_bool 0%Q x then body else "-" +:+ body.

End JS.


(* ------------------------------------------------------------------------- *)
(** ** Field normalisation *)
(* ------------------------------------------------------------------------- *)

(** A creator as the host hands it out; an absent property is the empty
    string (every use is guarded by [|| '']). *)
Record Creator : Type := mkCreator {
  firstName : string;
  lastName : string;
  name : string
}.

(** A raw library item, seen through the accessors the script uses.  A field
    access either yields a string or raises. *)
Record Item : Type := mkItem {
  item_id : Z;
  getField : string → Completion string;
  item_itemType : string;
  getCreators : Completion (list Creator)
}.

Record NormalizedItem : Type := mkNormalized {
  id : Z;
  originalItem : Item;
  title : string;
  shortTitle : string;
  date : string;
  publisher : string;
  place : string;
  journal : string;
  DOI : string;
  ISBN : string;
  URL : string;
  itemType : string;
  creators : string;
  year : string
}.

(** The punctuation class of [normalizeField]; code 34 is the double quote. *)
Definition isPunctuation (c : ascii) : bool :=
  bool_decide (c ∈ String.list_ascii_of_string ".,/#!$%^&*;:{}=-_`~()[]'"
               ∨ JS.code c = 34%N).

Definition normalizeField (field : string) : string :=
  if negb (JS.truthy field) then ""
  else
    JS.trim
      (JS.toLowerCase
        (JS.collapse_ws false
          (JS.mapChars (λ c, if isPunctuation c then " "%char else c) field))).

(** A match of [/10\.\d{4,}\/[^\s]+/i] at the very start of [s]. *)
Definition matchDOIAt (s : string) : option string :=
  match s with
  | String "1" (String "0" (String "." rest)) =>
      let '(ds, rest1) := JS.span JS.isDigit rest in
      if (4 <=? JS.length ds)%nat then
        match rest1 with
        | String "/" rest2 =>
            let '(tail, _) := JS.span (λ c, negb (JS.isSpace c)) rest2 in
            if (1 <=? JS.length tail)%nat
            then Some ("10." +:+ ds +:+ "/" +:+ tail)
            else None
        | _ => None
        end
      else None
  | _ => None
  end.

(** The leftmost match of the DOI pattern in [s]. *)
Fixpoint searchDOI (s : string) : option string :=
  match matchDOIAt s with
  | Some m => Some m
  | None =>
      match s with
      | EmptyString => None
      | String _ s' => searchDOI s'
      end
  end.

Definition normalizeDOI (doi : string) : string :=
  if negb (JS.truthy doi) then ""
  else
    match searchDOI doi with
    | Some m => JS.toLowerCase m
    | None => ""
    end.

Definition normalizeISBN (isbn : string) : string :=
  if negb (JS.truthy isbn) then ""
  else
    JS.toUpperCase
      (JS.filterChars
        (λ c, JS.isDigit c || (JS.code c =? 88)%N || (JS.code c =? 120)%N) isbn).

(** [url.replace(/^https?:\/\//, '')] *)
Definition stripProtocol (url : string) : string :=
  if String.prefix "https://" url then String.substring 8 (JS.length url - 8) url
  else if String.prefix "http://" url then String.substring 7 (JS.length url - 7) url
  else url.

(** [s.replace(/\/+$/, '')] *)
Definition stripTrailingSlashes (s : string) : string :=
  String.rev (JS.dropWhile (λ c, (JS.code c =? 47)%N) (String.rev s)).

Definition normalizeURL (url : string) : string :=
  if negb (JS.truthy url) then ""
  else JS.toLowerCase (stripTrailingSlashes (stripProtocol url)).

Definition normalizeCreators (creators : list Creator) : string :=
  if (List.length creators =? 0)%nat then ""
  else
    JS.join " "
      (JS.sortStrings
        (filter (λ n, (0 < JS.length n)%nat)
          (map (λ c,
                  JS.trim (JS.toLowerCase
                    (JS.or (firstName c) "" +:+ " " +:+
                     JS.or (lastName c) (JS.or (name c) ""))))
               creators))).

(** A match of [(19|20)\d{2}\b] at the very start of [s]. *)
Definition matchYearAt (s : string) : option string :=
  match s with
  | String c1 (String c2 (String c3 (String c4 rest))) =>
      let century :=
        ((JS.code c1 =? 49)%N && (JS.code c2 =? 57)%N)
        || ((JS.code c1 =? 50)%N && (JS.code c2 =? 48)%N) in
      let boundary :=
        match rest with
        | EmptyString => true
        | String c _ => negb (JS.isWord c)
        end in
      if century && JS.isDigit c3 && JS.isDigit c4 && boundary
      then Some (String c1 (String c2 (String c3 (String c4 EmptyString))))
      else None
  | _ => None
  end.

(** The leftmost match of [/\b(19|20)\d{2}\b/]; [prevWord] tells that the
    character before [s] is a word character. *)
Fixpoint searchYear (prevWord : bool) (s : string) : option string :=
  match s with
  | EmptyString => None
  | String c s' =>
      match (if prevWord then None else matchYearAt s) with
      | Some y => Some y
      | None => searchYear (JS.isWord c) s'
      end
  end.

Definition extractYear (dateStr : string) : string :=
  if negb (JS.truthy dateStr) then ""
  else
    match searchYear false dateStr with
    | Some y => y
    | None => ""
    end.

(** The object literal of [normalizeItemFields] evaluates its properties in
    source order; the first access that raises ends the evaluation. *)
Definition normalizeItemFields (item : Item) : Completion NormalizedItem :=
  f_title ← getField item "title";
  f_shortTitle ← getField item "shortTitle";
  f_date ← getField item "date";
  f_publisher ← getField item "publisher";
  f_place ← getField item "place";
  f_publication ← getField item "publicationTitle";
  f_journal ← (if JS.truthy f_publication then Normal f_publication
               else getField item "journalAbbreviation");
  f_doi ← getField item "DOI";
  f_isbn ← getField item "ISBN";
  f_url ← getField item "url";
  f_creators ← getCreators item;
  f_date' ← getField item "date";
  Normal {|
    id := item_id item;
    originalItem := item;
    title := normalizeField f_title;
    shortTitle := normalizeField f_shortTitle;
    date := normalizeField f_date;
    publisher := normalizeField f_publisher;
    place := normalizeField f_place;
    journal := normalizeField f_journal;
    DOI := normalizeDOI f_doi;
    ISBN := normalizeISBN f_isbn;
    URL := normalizeURL f_url;
    itemType := JS.trim (JS.toLowerCase (JS.or (item_itemType item) ""));
    creators := normalizeCreators f_creators;
    year := extractYear f_date'
  |}.

(* ------------------------------------------------------------------------- *)
(** ** Similarity algorithms *)
(* ------------------------------------------------------------------------- *)

(** A length, size or distance seen as a number. *)
Definition num (n : nat) : Q := inject_Z (Z.of_nat n).

(** [new Set(str.split(/\s+/).filter(s => s.length > 0))] *)
Definition tokenSet (str : string) : gset string :=
  list_to_set (filter (λ s, (0 < JS.length s)%nat) (JS.split_ws str)).

Definition jaccardSimilarity (str1 str2 : string) : Q :=
  if negb (JS.truthy str1) && negb (JS.truthy str2) then 1%Q
  else if negb (JS.truthy str1) || negb (JS.truthy str2) then 0%Q
  else
    let set1 := tokenSet str1 in
    let set2 := tokenSet str2 in
    if (size set1 =? 0)%nat && (size set2 =? 0)%nat then 1%Q
    else if (size set1 =? 0)%nat || (size set2 =? 0)%nat then 0%Q
    else
      let intersection : gset string :=
        list_to_set (filter (λ x, x ∈ set2) (elements set1)) in
      let union : gset string :=
        list_to_set (elements set1 ++ elements set2) in
      (num (size intersection) / num (size union))%Q.

(** One pass of the inner loop of [levenshteinDistance]: the cell [j] of
    [curr] from the row above and the cell to its left. *)
Definition levenshteinCell (str1 str2 : string) (prev : list nat) (i : nat)
    (curr : list nat) (j : nat) : list nat :=
  let cost :=
    if bool_decide (String.get (i - 1) str1 = String.get (j - 1) str2)
    then 0%nat else 1%nat in
  <[j := Nat.min (prev !!! j + 1)
           (Nat.min (curr !!! (j - 1) + 1) (prev !!! (j - 1) + cost))]> curr.

(** One pass of the outer loop: fill [curr] for row [i], then swap the two
    arrays. *)
Definition levenshteinRow (str1 str2 : string) (n : nat)
    (rows : list nat * list nat) (i : nat) : list nat * list nat :=
  let '(prev, curr) := rows in
  let curr := <[0%nat := i]> curr in
  let curr := foldl (levenshteinCell str1 str2 prev i) curr (seq 1 n) in
  (curr, prev).

Definition levenshteinDistance (str1 str2 : string) : nat :=
  if negb (JS.truthy str1) then (if JS.truthy str2 then JS.length str2 else 0%nat)
  else if negb (JS.truthy str2) then JS.length str1
  else
    let m := JS.length str1 in
    let n := JS.length str2 in
    let prev := imap (λ i _, i) (replicate (n + 1) 0%nat) in
    let curr := replicate (n + 1) 0%nat in
    let '(prev, curr) :=
      foldl (levenshteinRow str1 str2 n) (prev, curr) (seq 1 m) in
    prev !!! n.

Definition levenshteinSimilarity (str1 str2 : string) : Q :=
  if negb (JS.truthy str1) && negb (JS.truthy str2) then 1%Q
  else if negb (JS.truthy str1) || negb (JS.truthy str2) then 0%Q
  else
    let maxLen := Nat.max (JS.length str1) (JS.length str2) in
    if (maxLen =? 0)%nat then 1%Q
    else
      let distance := levenshteinDistance str1 str2 in
      (1 - num distance / num maxLen)%Q.

Definition combinedTitleSimilarity (title1 title2 : string) (useFuzzy : bool) : Q :=
  let jaccard := jaccardSimilarity title1 title2 in
  if negb useFuzzy then jaccard
  else
    let levenshtein := levenshteinSimilarity title1 title2 in
    let avgLen := ((num (JS.length title1) + num (JS.length title2)) / 2)%Q in
    let levenshteinWeight := Qmax 0 (1 - avgLen / 100)%Q in
    (jaccard * (1 - levenshteinWeight) + levenshtein * levenshteinWeight)%Q.

(* ------------------------------------------------------------------------- *)
(** ** Weights *)
(* ------------------------------------------------------------------------- *)

(** The weights object maps field names to numbers. *)
Abbreviation Weights := (gmap string Q).

Definition sumWeights (weights : Weights) : Q :=
  map_fold (λ _ b a, (a + b)%Q) 0%Q weights.

(** [normalizeWeights] updates the object in place; the embedding returns the
    object after the call.  This is the reading in exact arithmetic, used
    for the fixed weights of the script; [Float.normalizeWeights] is the
    one with rounding. *)
Definition normalizeWeights (weights : Weights) : Weights :=
  let totalWeight := sumWeights weights in
  if Qeq_bool totalWeight 0 then weights
  else (λ w, (w / totalWeight)%Q) <$> weights.

(** The weights object built by the script before normalisation. *)
Definition defaultWeights : Weights :=
  list_to_map
    [("URL", 25 # 100); ("DOI", 22 # 100); ("title", 20 # 100);
     ("creators", 15 # 100); ("date", 10 # 100); ("publisher", 4 # 100);
     ("journal", 4 # 100); ("shortTitle", 0); ("place", 0); ("ISBN", 0);
     ("itemType", 0)]%Q.

(* ------------------------------------------------------------------------- *)
(** ** Duplicate detection *)
(* ------------------------------------------------------------------------- *)

(** [weights.field]; reading an absent property gives [undefined], which
    fails every [> 0] test just as [0] does. *)
Definition weight (weights : Weights) (field : string) : Q :=
  default 0%Q (weights !! field).

(** [x > 0] *)
Definition positive (x : Q) : bool := negb (Qle_bool x 0).

(** The running sums [(totalWeight, combinedSimilarity)] after one block
    [if (w > 0) { combinedSimilarity += sim * w; totalWeight += w; }]. *)
Definition accumulate (w sim : Q) (sums : Q * Q) : Q * Q :=
  if positive w then ((sums.1 + w)%Q, (sums.2 + sim * w)%Q) else sums.

(** [a && b && a === b] *)
Definition sameNonEmpty (a b : string) : bool :=
  JS.truthy a && JS.truthy b && String.eqb a b.

(** [item[field]] for the fields read by name. *)
Definition fieldOf (item : NormalizedItem) (field : string) : string :=
  if String.eqb field "shortTitle" then shortTitle item
  else if String.eqb field "place" then place item
  else if String.eqb field "ISBN" then ISBN item
  else "".

Definition lowPriorityFields : list string := ["shortTitle"; "place"; "ISBN"].

Definition calculateSimilarity (item1 item2 : NormalizedItem) (weights : Weights)
    (useFuzzyTitle requireSameType : bool) : Q :=
  if requireSameType && negb (String.eqb (itemType item1) (itemType item2))
  then 0%Q
  else
    let sums := (0%Q, 0%Q) in
    let urlSim :=
      if sameNonEmpty (URL item1) (URL item2) then 1%Q
      else jaccardSimilarity (URL item1) (URL item2) in
    let sums := accumulate (weight weights "URL") urlSim sums in
    let doiSim := if sameNonEmpty (DOI item1) (DOI item2) then 1%Q else 0%Q in
    let sums := accumulate (weight weights "DOI") doiSim sums in
    let titleSim :=
      combinedTitleSimilarity (title item1) (title item2) useFuzzyTitle in
    let sums := accumulate (weight weights "title") titleSim sums in
    let creatorSim := jaccardSimilarity (creators item1) (creators item2) in
    let sums := accumulate (weight weights "creators") creatorSim sums in
    let dateSim :=
      if sameNonEmpty (year item1) (year item2) then 1%Q
      else jaccardSimilarity (date item1) (date item2) in
    let sums := accumulate (weight weights "date") dateSim sums in
    let pubSim := jaccardSimilarity (publisher item1) (publisher item2) in
    let sums := accumulate (weight weights "publisher") pubSim sums in
    let journalSim := jaccardSimilarity (journal item1) (journal item2) in
    let sums := accumulate (weight weights "journal") journalSim sums in
    let sums :=
      foldl (λ sums field,
               accumulate (weight weights field)
                 (jaccardSimilarity (fieldOf item1 field) (fieldOf item2 field))
                 sums)
            sums lowPriorityFields in
    let sums :=
      if positive (weight weights "itemType") then
        if requireSameType then
          ((sums.1 + weight weights "itemType")%Q,
           (sums.2 + 1 * weight weights "itemType")%Q)
        else sums
      else sums in
    let '(totalWeight, combinedSimilarity) := sums in
    if positive totalWeight then (combinedSimilarity / totalWeight)%Q else 0%Q.

Inductive ExactMatch : Type :=
  | NoMatch
  | Match (type value : string).

Definition checkExactIdentifierMatch (item1 item2 : NormalizedItem) : ExactMatch :=
  if sameNonEmpty (URL item1) (URL item2) then Match "URL" (URL item1)
  else if sameNonEmpty (DOI item1) (DOI item2) then Match "DOI" (DOI item1)
  else NoMatch.

Record Duplicate : Type := mkDuplicate {
  item1 : NormalizedItem;
  item2 : NormalizedItem;
  similarity : Q;
  reason : string
}.

(** The note appended to a reason when the item types differ. *)
Definition typesNote (item1 item2 : NormalizedItem) : string :=
  if negb (String.eqb (itemType item1) (itemType item2))
  then " (types differ: " +:+ itemType item1 +:+ " vs " +:+ itemType item2 +:+ ")"
  else "".

Section Detect.
Context (threshold : Q) (weights : Weights)
        (useExactMatch useFuzzyTitle requireSameType : bool).

(** The body of the inner loop for one pair: the candidate list after it. *)
Definition comparePair (item1 item2 : NormalizedItem)
    (potentialDuplicates : list Duplicate) : list Duplicate :=
  let st := (false, 0%Q, "") in
  let st :=
    if useExactMatch then
      match checkExactIdentifierMatch item1 item2 with
      | Match type value =>
          (true, 1%Q,
           "Exact " +:+ type +:+ " match: " +:+ value +:+ typesNote item1 item2)
      | NoMatch => st
      end
    else st in
  let st :=
    if negb st.1.1 then
      let similarity :=
        calculateSimilarity item1 item2 weights useFuzzyTitle requireSameType in
      if Qle_bool threshold similarity then
        (true, similarity,
         "Similarity: " +:+ JS.toFixed1 (similarity * 100)%Q +:+ "%"
           +:+ typesNote item1 item2)
      else (false, similarity, st.2)
    else st in
  let '(isDuplicate, similarity, matchReason) := st in
  if isDuplicate
  then potentialDuplicates ++ [mkDuplicate item1 item2 similarity matchReason]
  else potentialDuplicates.

(** The two nested loops over [i < j]; the list returned holds the
    candidates in the order in which they were pushed. *)
Definition compareAll (normalizedItems : list NormalizedItem) : list Duplicate :=
  let len := List.length normalizedItems in
  foldl (λ potentialDuplicates i,
           match normalizedItems !! i with
           | Some item1 =>
               foldl (λ potentialDuplicates j,
                        match normalizedItems !! j with
                        | Some item2 => comparePair item1 item2 potentialDuplicates
                        | None => potentialDuplicates
                        end)
                     potentialDuplicates (seq (i + 1) (len - (i + 1)))
           | None => potentialDuplicates
           end)
        [] (seq 0 len).

(** The comparator [(a, b) => b.similarity - a.similarity] leaves [a]
    before [b] when its value is not positive. *)
Definition bySimilarity (a b : Duplicate) : bool :=
  Qle_bool (similarity b - similarity a)%Q 0.

Definition detectDuplicates (items : list Item) : Completion (list Duplicate) :=
  normalizedItems ← forEachPush normalizeItemFields items [];
  Normal (JS.sort bySimilarity (compareAll normalizedItems)).
End Detect.

(* ------------------------------------------------------------------------- *)
(** ** Edit scripts *)
(* ------------------------------------------------------------------------- *)

Section EditScripts.
Context {A : Type}.

(** [edits u v n]: some script of unit-cost insertions, deletions and
    substitutions (and free matches) of total cost [n] turns [u] into [v]. *)
Inductive edits : list A → list A → nat → Prop :=
  | edits_nil : edits [] [] 0
  | edits_keep a u v n : edits u v n → edits (a :: u) (a :: v) n
  | edits_subst a b u v n : edits u v n → edits (a :: u) (b :: v) (S n)
  | edits_delete a u v n : edits u v n → edits (a :: u) v (S n)
  | edits_insert b u v n : edits u v n → edits u (b :: v) (S n).

(** [d] is the least cost of a script from [u] to [v]. *)
Definition minEdits (u v : list A) (d : nat) : Prop :=
  edits u v d ∧ ∀ n, edits u v n → d ≤ n.

(** One edit operation, anywhere in the string: insert a character, delete
    a character, or replace a character by another. *)
Inductive step : list A → list A → Prop :=
  | step_insert u v b : step (u ++ v) (u ++ b :: v)
  | step_delete u v a : step (u ++ a :: v) (u ++ v)
  | step_subst u v a b : step (u ++ a :: v) (u ++ b :: v).

(** [steps k u v]: [k] successive edit operations turn [u] into [v]. *)
Inductive steps : nat → list A → list A → Prop :=
  | steps_done u : steps 0 u u
  | steps_next k u v w : step u v → steps k v w → steps (S k) u w.

(** [d] is the edit distance from [u] to [v]: the least number of edit
    operations that turn [u] into [v]. *)
Definition editDistance (u v : list A) (d : nat) : Prop :=
  steps d u v ∧ ∀ k, steps k u v → d ≤ k.
End EditScripts.

Definition chars (s : string) : list ascii := String.list_ascii_of_string s.

(** [row] is row [i] of the distance table of [l1] and [l2], of width
    [n + 1]: its cell [j] holds the least cost between the first [i]
    characters of [l1] and the first [j] characters of [l2]. *)
Definition rowOK (l1 l2 : list ascii) (n i : nat) (row : list nat) : Prop :=
  length row = S n
  ∧ ∀ j, j ≤ n → ∃ d, row !! j = Some d ∧ minEdits (take i l1) (take j l2) d.

(** The Jaccard index of two finite sets, with the usual convention that two
    empty sets are identical. *)
Definition jaccardIndex (X Y : gset string) : Q :=
  if decide (X ∪ Y = ∅) then 1%Q
  else (num (size (X ∩ Y)) / num (size (X ∪ Y)))%Q.

(** The similarities of the ten content fields, in the order in which
    [calculateSimilarity] visits them. *)
Definition contentSimilarities (item1 item2 : NormalizedItem)
    (useFuzzyTitle : bool) : list (string * Q) :=
  [ ("URL", if sameNonEmpty (URL item1) (URL item2) then 1%Q
            else jaccardSimilarity (URL item1) (URL item2));
    ("DOI", if sameNonEmpty (DOI item1) (DOI item2) then 1%Q else 0%Q);
    ("title", combinedTitleSimilarity (title item1) (title item2) useFuzzyTitle);
    ("creators", jaccardSimilarity (creators item1) (creators item2));
    ("date", if sameNonEmpty (year item1) (year item2) then 1%Q
             else jaccardSimilarity (date item1) (date item2));
    ("publisher", jaccardSimilarity (publisher item1) (publisher item2));
    ("journal", jaccardSimilarity (journal item1) (journal item2));
    ("shortTitle", jaccardSimilarity (shortTitle item1) (shortTitle item2));
    ("place", jaccardSimilarity (place item1) (place item2));
    ("ISBN", jaccardSimilarity (ISBN item1) (ISBN item2)) ].

(** The per-field similarities that enter the score: the content fields, and
    the item type, which takes part only under [requireSameType]. *)
Definition fieldSimilarities (item1 item2 : NormalizedItem)
    (useFuzzyTitle requireSameType : bool) : list (string * Q) :=
  contentSimilarities item1 item2 useFuzzyTitle
  ++ (if requireSameType then [("itemType", 1%Q)] else []).

Definition Qsum (l : list Q) : Q := foldr Qplus 0%Q l.

(** The fields of positive weight among [sims]. *)
Definition activeFields (weights : Weights) (sims : list (string * Q))
    : list (string * Q) :=
  List.filter (λ p, positive (weight weights p.1)) sims.

Definition accumulatedSimilarity (weights : Weights) (sims : list (string * Q)) : Q :=
  Qsum (map (λ p, (p.2 * weight weights p.1)%Q) (activeFields weights sims)).

Definition accumulatedWeight (weights : Weights) (sims : list (string * Q)) : Q :=
  Qsum (map (λ p, weight weights p.1) (activeFields weights sims)).

(** The same-type veto of [calculateSimilarity]. *)
Definition typeVeto (item1 item2 : NormalizedItem) (requireSameType : bool) : bool :=
  requireSameType && negb (String.eqb (itemType item1) (itemType item2)).

(** The last line of [calculateSimilarity], on the pair of running sums. *)
Definition finalScore (sums : Q * Q) : Q :=
  let '(totalWeight, combinedSimilarity) := sums in
  if positive totalWeight then (combinedSimilarity / totalWeight)%Q else 0%Q.

(** Two normalised records used in the examples: a journal article and a
    web page that carry the same DOI. *)
Definition hostItem (i : Z) (type : string) (fields : gmap string string)
    (people : list Creator) : Item :=
  {| item_id := i;
     getField := λ field, Normal (default "" (fields !! field));
     item_itemType := type;
     getCreators := Normal people |}.

Definition articleItem : Item :=
  hostItem 1 "journalArticle"
    (list_to_map [("title", "Deep Learning."); ("DOI", "10.1000/xyz");
                  ("date", "2015-05-27"); ("publicationTitle", "Nature")])
    [mkCreator "Yann" "LeCun" ""; mkCreator "Yoshua" "Bengio" ""].

Definition webpageItem : Item :=
  hostItem 2 "webpage"
    (list_to_map [("title", "Deep learning review");
                  ("DOI", "https://doi.org/10.1000/XYZ");
                  ("url", "https://www.nature.com/articles/nature14539/")])
    [].

Definition preprintItem : Item :=
  hostItem 3 "journalArticle"
    (list_to_map [("title", "Deep Learning"); ("date", "May 2015")])
    [mkCreator "Yoshua" "Bengio" ""; mkCreator "Yann" "LeCun" ""].

(** An item whose host raises when its DOI is read. *)
Definition brokenItem : Item :=
  {| item_id := 4;
     getField := λ field,
       if String.eqb field "DOI" then Throw "Item data not loaded"
       else Normal "";
     item_itemType := "book";
     getCreators := Normal [] |}.

Definition normalizedOr (fallback : NormalizedItem) (c : Completion NormalizedItem)
    : NormalizedItem :=
  match c with
  | Normal r => r
  | Throw _ => fallback
  end.

Definition emptyRecord : NormalizedItem :=
  mkNormalized 0 (hostItem 0 "" ∅ []) "" "" "" "" "" "" "" "" "" "" "" "".

Definition articleRecord : NormalizedItem :=
  normalizedOr emptyRecord (normalizeItemFields articleItem).

Definition webpageRecord : NormalizedItem :=
  normalizedOr emptyRecord (normalizeItemFields webpageItem).

Definition preprintRecord : NormalizedItem :=
  normalizedOr emptyRecord (normalizeItemFields preprintItem).

(** The candidates that comparing [item1] with [item2] adds: none or one. *)
Definition candidates (threshold : Q) (weights : Weights)
    (useExactMatch useFuzzyTitle requireSameType : bool)
    (item1 item2 : NormalizedItem) : list Duplicate :=
  comparePair threshold weights useExactMatch useFuzzyTitle requireSameType
    item1 item2 [].

(** The order in which candidates are met: every record in input order,
    against every later record in input order. *)
Fixpoint encounterOrder (threshold : Q) (weights : Weights)
    (useExactMatch useFuzzyTitle requireSameType : bool)
    (records : list NormalizedItem) : list Duplicate :=
  match records with
  | [] => []
  | item1 :: rest =>
      flat_map (candidates threshold weights useExactMatch useFuzzyTitle
                  requireSameType item1) rest
      ++ encounterOrder threshold weights useExactMatch useFuzzyTitle
           requireSameType rest
  end.

(** The first loop of [detectDuplicates]. *)
Definition normalizeAll (items : list Item) : Completion (list NormalizedItem) :=
  forEachPush normalizeItemFields items [].

(** Descending order of similarity. *)
Definition descending (a b : Duplicate) : Prop :=
  (similarity b <= similarity a)%Q.

(** The candidates of [l] whose similarity is [s], in their order in [l]. *)
Definition withSimilarity (s : Q) (l : list Duplicate) : list Duplicate :=
  List.filter (λ d, Qeq_bool (similarity d) s) l.


Definition exampleItems : list Item := [articleItem; webpageItem; preprintItem].

Definition exampleRecords : list NormalizedItem :=
  [articleRecord; webpageRecord; preprintRecord].

(** The configuration the script proposes: threshold 0.6, exact matching and
    fuzzy titles on, cross-type pairs allowed. *)
Definition exampleRun (items : list Item) : Completion (list Duplicate) :=
  detectDuplicates (6 # 10) (normalizeWeights defaultWeights) true true false items.

Definition normalizes (item : Item) : bool :=
  match normalizeItemFields item with
  | Normal _ => true
  | Throw _ => false
  end.

(** A run that tolerates failing records: it returns, and returns what it
    would on the records that normalise. *)
Definition skipsFailedRecords (run : list Item → Completion (list Duplicate))
    (items : list Item) : Prop :=
  (∃ result, run items = Normal result)
  ∧ run items = run (List.filter normalizes items).


(** The test of the exact-identifier fast path: the URLs, or else the DOIs,
    are non-empty and identical. *)
Definition exactIdentifiers (item1 item2 : NormalizedItem) : bool :=
  sameNonEmpty (URL item1) (URL item2) || sameNonEmpty (DOI item1) (DOI item2).

(** What the example run returns. *)
Definition exampleResult : list Duplicate :=
  match exampleRun exampleItems with
  | Normal found => found
  | Throw _ => []
  end.


(** What the example run returns without the fast path and with
    [requireSameType]. *)
Definition exampleStrictResult : list Duplicate :=
  match detectDuplicates (6 # 10) (normalizeWeights defaultWeights) false true
          true exampleItems with
  | Normal found => found
  | Throw _ => []
  end.


(** The weights with which the script scores: the values of [defaultWeights]
    after normalisation. *)
Definition scriptWeights : Weights := normalizeWeights defaultWeights.

(** [weights] gives every field the weight the script gives it. *)
Definition weighsLikeScript (weights : Weights) : Prop :=
  (weight weights "URL" == 25 # 100)%Q
  ∧ (weight weights "DOI" == 22 # 100)%Q
  ∧ (weight weights "title" == 20 # 100)%Q
  ∧ (weight weights "creators" == 15 # 100)%Q
  ∧ (weight weights "date" == 10 # 100)%Q
  ∧ (weight weights "publisher" == 4 # 100)%Q
  ∧ (weight weights "journal" == 4 # 100)%Q
  ∧ (weight weights "shortTitle" == 0)%Q
  ∧ (weight weights "place" == 0)%Q
  ∧ (weight weights "ISBN" == 0)%Q
  ∧ (weight weights "itemType" == 0)%Q.

(** Every compared field of the record is empty. *)
Definition blankRecord (r : NormalizedItem) : Prop :=
  title r = "" ∧ shortTitle r = "" ∧ date r = "" ∧ publisher r = ""
  ∧ place r = "" ∧ journal r = "" ∧ DOI r = "" ∧ ISBN r = "" ∧ URL r = ""
  ∧ creators r = "" ∧ year r = "".

(** The records of two items that carry no data at all. *)
Definition blankNote : NormalizedItem :=
  normalizedOr emptyRecord (normalizeItemFields (hostItem 7 "note" ∅ [])).

Definition blankBook : NormalizedItem :=
  normalizedOr emptyRecord (normalizeItemFields (hostItem 8 "book" ∅ [])).


(** Every character of [s] satisfies [P]. *)
Definition allChars (P : ascii → Prop) (s : string) : Prop := Forall P (chars s).

(** [s] does not end with the character [c]. *)
Definition notEndingWith (c : ascii) (s : string) : Prop :=
  ∀ t, s ≠ t +:+ String c "".


(** [m] has the form of a DOI as [normalizeDOI] looks for it: [10.], at
    least four digits, a slash, and at least one character, none of them
    white space. *)
Definition doiShaped (m : string) : Prop :=
  ∃ registrant suffix,
    m = "10." +:+ registrant +:+ "/" +:+ suffix
    ∧ allChars (λ c, JS.isDigit c = true) registrant
    ∧ 4 ≤ JS.length registrant
    ∧ allChars (λ c, JS.isSpace c = false) suffix
    ∧ 1 ≤ JS.length suffix.


(** [y] is a year as [extractYear] looks for it: 19 or 20 and two digits. *)
Definition yearShaped (y : string) : Prop :=
  ∃ c3 c4,
    JS.isDigit c3 = true ∧ JS.isDigit c4 = true
    ∧ (y = String "1" (String "9" (String c3 (String c4 "")))
       ∨ y = String "2" (String "0" (String c3 (String c4 "")))).

(** [s] does not start with a word character. *)
Definition noWordAhead (s : string) : Prop :=
  match s with
  | EmptyString => True
  | String c _ => JS.isWord c = false
  end.

(** [s] does not end with a word character. *)
Definition noWordBehind (s : string) : Prop :=
  ∀ t c, s = t +:+ String c "" → JS.isWord c = false.

(** The name under which [normalizeCreators] files a creator. *)
Definition creatorName (c : Creator) : string :=
  JS.trim (JS.toLowerCase
    (JS.or (firstName c) "" +:+ " " +:+ JS.or (lastName c) (JS.or (name c) ""))).



(** No white space follows white space in [s]; [prevSpace] tells that white
    space comes directly before [s]. *)
Fixpoint singleSpaced (prevSpace : bool) (s : string) : Prop :=
  match s with
  | EmptyString => True
  | String c s' =>
      (JS.isSpace c = true → prevSpace = false) ∧ singleSpaced (JS.isSpace c) s'
  end.



(** The fields that [normalizeItemFields] always reads. *)
Definition fieldsRead : list string :=
  ["title"; "shortTitle"; "date"; "publisher"; "place"; "publicationTitle";
   "DOI"; "ISBN"; "url"].

(** An item of which only the journal abbreviation cannot be read. *)
Definition noAbbreviationItem : Item :=
  {| item_id := 5;
     getField := λ field,
       if String.eqb field "journalAbbreviation" then Throw "Invalid field"
       else if String.eqb field "publicationTitle" then Normal "Nature"
       else Normal "";
     item_itemType := "journalArticle";
     getCreators := Normal [] |}.


(** [w] is a token of [s]: a non-empty run of characters other than white
    space that white space, or an end of [s], bounds on either side. *)
Definition isToken (s w : string) : Prop :=
  w ≠ ""
  ∧ allChars (λ c, JS.isSpace c = false) w
  ∧ ∃ before after,
      s = before +:+ w +:+ after
      ∧ (before = ""
         ∨ ∃ b c, before = b +:+ String c "" ∧ JS.isSpace c = true)
      ∧ (after = "" ∨ ∃ c a, after = String c a ∧ JS.isSpace c = true).

(* ------------------------------------------------------------------------- *)
(** ** Item retrieval: a collection and its subcollections *)
(* ------------------------------------------------------------------------- *)

(** A collection as its two accessors present it: listing the child items
    may raise, the child collections are at hand. *)
Unset Elimination Schemes.
Inductive Collection : Type :=
  | mkCollection (getChildItems : Completion (list Item))
                 (getChildCollections : list Collection).
Set Elimination Schemes.

(** [items.filter(item => ...)] with the set [seen] of the ids met so far:
    an item is kept when its id is met for the first time. *)
Fixpoint uniqueById (seen : gset Z) (items : list Item) : list Item :=
  match items with
  | [] => []
  | item :: rest =>
      if decide (item_id item ∈ seen) then uniqueById seen rest
      else item :: uniqueById ({[item_id item]} ∪ seen) rest
  end.

Fixpoint getCollectionItemsRecursive (collection : Collection)
    : Completion (list Item) :=
  match collection with
  | mkCollection getChildItems childCollections =>
      items ← getChildItems;
      items ←
        (fix loop (children : list Collection) (items : list Item)
             : Completion (list Item) :=
           match children with
           | [] => Normal items
           | childCollection :: children' =>
               childItems ← getCollectionItemsRecursive childCollection;
               loop children' (items ++ childItems)
           end) childCollections items;
      Normal (uniqueById ∅ items)
  end.

(** All items of a collection and of the collections below it, the parent's
    before the children's; a listing that raises counts for nothing. *)
Fixpoint treeItems (collection : Collection) : list Item :=
  match collection with
  | mkCollection getChildItems childCollections =>
      match getChildItems with
      | Normal items => items
      | Throw _ => []
      end
      ++ flat_map treeItems childCollections
  end.

(** A library in which the same item sits in a collection and in its
    subcollection. *)
Definition exampleCollection : Collection :=
  mkCollection (Normal [articleItem; webpageItem])
    [mkCollection (Normal [webpageItem; preprintItem]) [];
     mkCollection (Normal [articleItem]) []].

(* ------------------------------------------------------------------------- *)
(** ** User preferences *)
(* ------------------------------------------------------------------------- *)

(** A JavaScript number as [parseFloat] can return it; the finite ones are
    rationals. *)
Inductive JSNumber : Type :=
  | NaN
  | Finite (x : Q)
  | PosInfinity
  | NegInfinity.

(** [s.split(sep)] for a separator of one character; [cur] is the piece
    being read. *)
Fixpoint split_go (sep : ascii) (cur : string) (s : string) : list string :=
  match s with
  | EmptyString => [cur]
  | String c s' =>
      if Ascii.eqb c sep then cur :: split_go sep EmptyString s'
      else split_go sep (cur +:+ String c EmptyString) s'
  end.

Definition split (sep : ascii) (s : string) : list string :=
  split_go sep EmptyString s.

(** [x || d] on numbers: [NaN] and zero are falsy. *)
Definition orNumber (x : JSNumber) (d : Q) : JSNumber :=
  match x with
  | NaN => Finite d
  | Finite q => if Qeq_bool q 0 then Finite d else Finite q
  | PosInfinity => PosInfinity
  | NegInfinity => NegInfinity
  end.

(** [x < 0 || x > 1] *)
Definition outsideUnit (x : JSNumber) : bool :=
  match x with
  | NaN => false
  | Finite q => negb (Qle_bool 0 q) || negb (Qle_bool q 1)
  | PosInfinity => true
  | NegInfinity => true
  end.

(** [Math.max(0, Math.min(1, x))] *)
Definition clampUnit (x : JSNumber) : JSNumber :=
  match x with
  | NaN => NaN
  | Finite q => Finite (Qmax 0 (Qmin 1 q))
  | PosInfinity => Finite 1
  | NegInfinity => Finite 0
  end.

Record Preferences : Type := mkPreferences {
  threshold : JSNumber;
  useExactMatch : bool;
  useFuzzyTitle : bool;
  requireSameType : bool
}.

(** [getUserPreferences] from the answer [input] to its prompt ([None] when
    the dialog is cancelled); the text of the prompt is not modelled.  The
    result comes with the alerts shown. *)
Definition getUserPreferences (parseFloat : option string → JSNumber)
    (input : option string) : list string * option Preferences :=
  match input with
  | None => ([], None)
  | Some input =>
      let parts :=
        (λ s, JS.toLowerCase (JS.trim s)) <$> split "," (JS.trim input) in
      let threshold := orNumber (parseFloat (parts !! 0%nat)) (6 # 10) in
      let alerts :=
        if outsideUnit threshold
        then ["Invalid threshold. Using default 0.6"] else [] in
      let useExactMatch := negb (bool_decide (parts !! 1%nat = Some "no")) in
      let useFuzzyTitle := negb (bool_decide (parts !! 2%nat = Some "no")) in
      let requireSameType := bool_decide (parts !! 3%nat = Some "yes") in
      (alerts,
       Some {| threshold := clampUnit threshold;
               useExactMatch := useExactMatch;
               useFuzzyTitle := useFuzzyTitle;
               requireSameType := requireSameType |})
  end.

(** A [parseFloat] for the examples: it knows three numerals and gives
    [NaN] for everything else. *)
Definition exampleParseFloat (s : option string) : JSNumber :=
  match s with
  | Some "0.85" => Finite (85 # 100)
  | Some "0" => Finite 0
  | Some "7" => Finite 7
  | Some "-1" => Finite (-1)
  | _ => NaN
  end.

(* ------------------------------------------------------------------------- *)
(** ** Duplicate handling *)
(* ------------------------------------------------------------------------- *)

(** What the script does to its host: the dialogs it opens and the calls it
    makes on library items, each call recorded under the id of its item. *)
Inductive HostOp : Type :=
  | Prompt (message : string) (answer : option string)
  | Alert (message : string)
  | AddTag (item : Z) (tag : string)
  | SaveTx (item : Z)
  | TrashTx (item : Z).

Global Instance HostOp_eq_dec : EqDecision HostOp.
Proof. solve_decision. Defined.

(** A script run: from the operations done so far to a completion and the
    operations done after it. *)
Definition Script (A : Type) : Type :=
  list HostOp → Completion A * list HostOp.

Global Instance Script_ret : MRet Script := λ A a log, (Normal a, log).

Global Instance Script_bind : MBind Script := λ A B k m log,
  match m log with
  | (Normal a, log') => k a log'
  | (Throw e, log') => (Throw e, log')
  end.

(** [try { m } catch (error) { handler }] *)
Definition catch {A : Type} (m : Script A) (handler : string → Script A)
    : Script A :=
  λ log,
    match m log with
    | (Normal a, log') => (Normal a, log')
    | (Throw e, log') => handler e log'
    end.

Definition newline : string := String (Ascii.ascii_of_nat 10) EmptyString.

Definition buildItemInfo (normalizedItem : NormalizedItem) : string :=
  let parts := [] in
  let parts :=
    if JS.truthy (itemType normalizedItem)
    then parts ++ ["Type: " +:+ itemType normalizedItem] else parts in
  let parts :=
    if JS.truthy (URL normalizedItem)
    then parts ++ ["URL: " +:+ URL normalizedItem] else parts in
  let parts :=
    if JS.truthy (DOI normalizedItem)
    then parts ++ ["DOI: " +:+ DOI normalizedItem] else parts in
  let parts :=
    if JS.truthy (title normalizedItem)
    then parts ++ ["Title: " +:+ title normalizedItem] else parts in
  let parts :=
    if JS.truthy (creators normalizedItem)
    then parts ++ ["Authors: " +:+ creators normalizedItem] else parts in
  let parts :=
    if JS.truthy (year normalizedItem)
    then parts ++ ["Year: " +:+ year normalizedItem] else parts in
  let parts :=
    if JS.truthy (publisher normalizedItem)
    then parts ++ ["Publisher: " +:+ publisher normalizedItem] else parts in
  let parts :=
    if JS.truthy (journal normalizedItem)
    then parts ++ ["Publication: " +:+ journal normalizedItem] else parts in
  JS.join newline parts.

(** The text of the prompt of one reviewed pair. *)
Definition reviewPrompt (processed total : nat) (duplicate : Duplicate) : string :=
  "Duplicate " +:+ JS.digits (Z.of_nat processed) +:+ "/"
    +:+ JS.digits (Z.of_nat total) +:+ newline
    +:+ reason duplicate +:+ newline +:+ newline
    +:+ "--- ITEM 1 ---" +:+ newline +:+ buildItemInfo (item1 duplicate)
    +:+ newline +:+ newline
    +:+ "--- ITEM 2 ---" +:+ newline +:+ buildItemInfo (item2 duplicate)
    +:+ newline +:+ newline
    +:+ "Actions:" +:+ newline
    +:+ "1. Tag both items" +:+ newline
    +:+ "2. Trash Item 2 (keep Item 1)" +:+ newline
    +:+ "3. Trash Item 1 (keep Item 2)" +:+ newline
    +:+ "4. Skip this pair" +:+ newline
    +:+ "5. Stop reviewing" +:+ newline +:+ newline
    +:+ "Enter choice (1-5):".

(** The text of the alert that ends a review. *)
Definition reviewSummary (processed tagged trashed skipped : nat) : string :=
  "Review complete!" +:+ newline +:+ newline
    +:+ "Pairs reviewed: " +:+ JS.digits (Z.of_nat processed) +:+ newline
    +:+ "Items tagged: " +:+ JS.digits (Z.of_nat tagged) +:+ newline
    +:+ "Items trashed: " +:+ JS.digits (Z.of_nat trashed) +:+ newline
    +:+ "Pairs skipped: " +:+ JS.digits (Z.of_nat skipped).

(** The text of the alert that ends a batch tagging. *)
Definition batchReport (size : nat) (tag : string) : string :=
  "Tagged " +:+ JS.digits (Z.of_nat size) +:+ " items with tag: " +:+ tag
    +:+ newline +:+ newline
    +:+ "You can find all potential duplicates by searching for this tag.".

(** The text of the prompt of [handleDetectedDuplicates]. *)
Definition handlingPrompt (total : nat) : string :=
  "Found " +:+ JS.digits (Z.of_nat total) +:+ " potential duplicate pairs."
    +:+ newline +:+ newline
    +:+ "How would you like to handle them?" +:+ newline +:+ newline
    +:+ "1. Review each pair individually" +:+ newline
    +:+ "2. Tag all pairs (add 'duplicate-check' tag)" +:+ newline
    +:+ "3. Show summary only (no changes)" +:+ newline +:+ newline
    +:+ "Enter choice (1-3):".

Section Handling.
(** The host: [user] answers a prompt, [library] tells whether a call on the
    library raises, both knowing what happened so far; [now] is the value
    of [Date.now()]. *)
Context (user : list HostOp → string → option string)
        (library : list HostOp → HostOp → option string)
        (now : N).

Definition prompt (message : string) : Script (option string) :=
  λ log,
    let answer := user log message in
    (Normal answer, log ++ [Prompt message answer]).

Definition alert (message : string) : Script unit :=
  λ log, (Normal tt, log ++ [Alert message]).

(** A call on the library; it is recorded also when it raises. *)
Definition call (op : HostOp) : Script unit :=
  λ log,
    (match library log op with
     | Some e => Throw e
     | None => Normal tt
     end, log ++ [op]).

(** One of the two guarded blocks of the loop of [batchTagDuplicates]. *)
Definition tagOnce (tag : string) (original : Item) (taggedItems : gset Z)
    : Script (gset Z) :=
  if decide (item_id original ∈ taggedItems) then mret taggedItems
  else
    call (AddTag (item_id original) tag);;
    call (SaveTx (item_id original));;
    mret ({[item_id original]} ∪ taggedItems).

Fixpoint batchTagLoop (tag : string) (duplicates : list Duplicate)
    (taggedItems : gset Z) : Script (gset Z) :=
  match duplicates with
  | [] => mret taggedItems
  | duplicate :: rest =>
      let original1 := originalItem (item1 duplicate) in
      let original2 := originalItem (item2 duplicate) in
      taggedItems ← tagOnce tag original1 taggedItems;
      taggedItems ← tagOnce tag original2 taggedItems;
      batchTagLoop tag rest taggedItems
  end.

Definition batchTagDuplicates (duplicates : list Duplicate) : Script unit :=
  let timestamp := now in
  let tag := "duplicate-check-" +:+ JS.digits (Z.of_N timestamp) in
  taggedItems ← batchTagLoop tag duplicates ∅;
  alert (batchReport (size taggedItems) tag).

Definition showDuplicateSummary (duplicates : list Duplicate) : Script unit :=
  alert ("Found " +:+ JS.digits (Z.of_nat (List.length duplicates))
           +:+ " duplicate pairs." +:+ newline
           +:+ "Check the console for the full list.").

(** The loop of [reviewDuplicatesIndividually] with its four counters;
    [total] is [duplicates.length] of the whole list. *)
Fixpoint reviewLoop (timestamp : N) (total : nat) (duplicates : list Duplicate)
    (processed tagged trashed skipped : nat) : Script (nat * nat * nat * nat) :=
  match duplicates with
  | [] => mret (processed, tagged, trashed, skipped)
  | duplicate :: rest =>
      let processed := S processed in
      let original1 := originalItem (item1 duplicate) in
      let original2 := originalItem (item2 duplicate) in
      action ← prompt (reviewPrompt processed total duplicate);
      match action with
      | None => mret (processed, tagged, trashed, skipped)
      | Some action =>
          if String.eqb (JS.trim action) "5"
          then mret (processed, tagged, trashed, skipped)
          else
            let choice := JS.trim action in
            '(tagged, trashed, skipped) ←
              catch
                (if String.eqb choice "1" then
                   let tag := "duplicate-pair-" +:+ JS.digits (Z.of_N timestamp) in
                   call (AddTag (item_id original1) tag);;
                   call (AddTag (item_id original2) tag);;
                   call (SaveTx (item_id original1));;
                   call (SaveTx (item_id original2));;
                   mret (tagged + 2, trashed, skipped)
                 else if String.eqb choice "2" then
                   call (TrashTx (item_id original2));;
                   mret (tagged, S trashed, skipped)
                 else if String.eqb choice "3" then
                   call (TrashTx (item_id original1));;
                   mret (tagged, S trashed, skipped)
                 else mret (tagged, trashed, S skipped))
                (λ error, mret (tagged, trashed, skipped));
            reviewLoop timestamp total rest processed tagged trashed skipped
      end
  end.

Definition reviewDuplicatesIndividually (duplicates : list Duplicate)
    : Script unit :=
  let timestamp := now in
  '(processed, tagged, trashed, skipped) ←
    reviewLoop timestamp (List.length duplicates) duplicates 0 0 0 0;
  alert (reviewSummary processed tagged trashed skipped).

Definition handleDetectedDuplicates (duplicates : list Duplicate) : Script unit :=
  if (List.length duplicates =? 0)%nat then alert "No duplicates found."
  else
    batchChoice ← prompt (handlingPrompt (List.length duplicates));
    match batchChoice with
    | None => mret tt
    | Some batchChoice =>
        let choice := JS.trim batchChoice in
        if String.eqb choice "2" then batchTagDuplicates duplicates
        else if String.eqb choice "3" then showDuplicateSummary duplicates
        else reviewDuplicatesIndividually duplicates
    end.
End Handling.

(** The items of the pairs of a candidate list, in the order of the list. *)
Definition pairedItems (duplicates : list Duplicate) : list Item :=
  flat_map (λ duplicate,
              [originalItem (item1 duplicate); originalItem (item2 duplicate)])
           duplicates.

(** The library calls that tag and save each item of a list. *)
Definition tagCalls (tag : string) (items : list Item) : list HostOp :=
  flat_map (λ item, [AddTag (item_id item) tag; SaveTx (item_id item)]) items.

(** A trash call is made on request only: the operation before it is the
    prompt of a pair of the list, answered with 2 when the item trashed is
    the second of that pair and with 3 when it is the first; [total] is the
    number of pairs the prompt announces. *)
Definition trashOnRequest (total : nat) (duplicates : list Duplicate)
    (ops : list HostOp) : Prop :=
  ∀ k item, ops !! k = Some (TrashTx item) →
    ∃ k' processed duplicate action,
      k = S k'
      ∧ ops !! k' = Some (Prompt (reviewPrompt processed total duplicate)
                                 (Some action))
      ∧ duplicate ∈ duplicates
      ∧ ((JS.trim action = "2"
          ∧ item = item_id (originalItem (item2 duplicate)))
         ∨ (JS.trim action = "3"
            ∧ item = item_id (originalItem (item1 duplicate)))).

(** The calls [calls] made in this order on the library, up to the first one
    that raises: the calls made, that one included, and the error raised;
    [None] when none of them raises.  [log] holds what happened before. *)
Fixpoint firstRaise (library : list HostOp → HostOp → option string)
    (log : list HostOp) (calls : list HostOp) : option (list HostOp * string) :=
  match calls with
  | [] => None
  | op :: rest =>
      match library log op with
      | Some e => Some ([op], e)
      | None =>
          match firstRaise library (log ++ [op]) rest with
          | Some (made, e) => Some (op :: made, e)
          | None => None
          end
      end
  end.

(** A run of [m] makes the library calls [expected], in this order, and
    stops at the first one that raises, with its error; when none raises it
    completes with a value that satisfies [post]. *)
Definition performs {A : Type} (library : list HostOp → HostOp → option string)
    (m : Script A) (expected : list HostOp) (post : A → Prop) : Prop :=
  ∀ log,
    match firstRaise library log expected with
    | Some (made, e) => m log = (Throw e, log ++ made)
    | None => ∃ a, m log = (Normal a, log ++ expected) ∧ post a
    end.

(** Whether an operation changes the library. *)
Definition changesLibrary (op : HostOp) : bool :=
  match op with
  | Prompt _ _ => false
  | Alert _ => false
  | AddTag _ _ => true
  | SaveTx _ => true
  | TrashTx _ => true
  end.

Definition isPrompt (op : HostOp) : bool :=
  match op with
  | Prompt _ _ => true
  | _ => false
  end.

Definition isTrash (op : HostOp) : bool :=
  match op with
  | TrashTx _ => true
  | _ => false
  end.

Definition isSave (op : HostOp) : bool :=
  match op with
  | SaveTx _ => true
  | _ => false
  end.

(** The number of operations of one kind in a trace. *)
Definition countOps (kind : HostOp → bool) (ops : list HostOp) : nat :=
  List.length (List.filter kind ops).

(** A host whose library never raises and whose user tags the first pair
    shown, trashes the second item of the second, and stops at the third. *)
Definition calmLibrary (log : list HostOp) (op : HostOp) : option string := None.

Definition exampleUser (log : list HostOp) (message : string) : option string :=
  match List.length (filter (λ op, isPrompt op = true) log) with
  | 0%nat => Some "1"
  | 1%nat => Some " 2 "
  | _ => None
  end.

(* ------------------------------------------------------------------------- *)
(** ** Weights in floating-point arithmetic *)
(* ------------------------------------------------------------------------- *)

(** The integer nearest to [x], the even one on a tie. *)
Definition roundHalfEven (x : Q) : Z :=
  let f := Qfloor x in
  match (x - inject_Z f ?= 1 # 2)%Q with
  | Lt => f
  | Gt => (f + 1)%Z
  | Eq => if Z.even f then f else (f + 1)%Z
  end.

(** The double nearest to [x], the one with the even significand on a tie:
    [x] is scaled by the power of 2 that brings its magnitude into
    [2^52, 2^53), rounded to an integer and scaled back.  The range of the
    exponent is taken as unbounded: overflow and underflow are not
    represented. *)
Definition round64 (x : Q) : Q :=
  if Qeq_bool x 0 then 0%Q
  else
    let a := Qabs x in
    let e0 := (Z.log2 (Qnum a) - Z.log2 (Zpos (Qden a)) - 52)%Z in
    let e := if Qle_bool (2 ^ 52) (a / 2 ^ e0) then e0 else (e0 - 1)%Z in
    let m := (inject_Z (roundHalfEven (a / 2 ^ e)) * 2 ^ e)%Q in
    if Qle_bool 0 x then m else (- m)%Q.

(** [normalizeWeights] as the script computes it: every addition and
    division is followed by the rounding [rnd] ([round64] for doubles, the
    identity for exact arithmetic).  The weights are listed in the order of
    the keys of the object, in which [Object.values] and [for ... in] visit
    them. *)
Module Float.
Section Rounded.
Context (rnd : Q → Q).

Definition add (a b : Q) : Q := rnd (a + b)%Q.

Definition div (a b : Q) : Q := rnd (a / b)%Q.

(** [Object.values(weights).reduce((a, b) => a + b, 0)] *)
Definition sumWeights (weights : list (string * Q)) : Q :=
  foldl (λ a kv, add a kv.2) 0%Q weights.

Definition normalizeWeights (weights : list (string * Q)) : list (string * Q) :=
  let totalWeight := sumWeights weights in
  if Qeq_bool totalWeight 0 then weights
  else (λ kv, (kv.1, div kv.2 totalWeight)) <$> weights.
End Rounded.
End Float.

Fixpoint power (x : Q) (n : nat) : Q :=
  match n with
  | O => 1%Q
  | S n' => (x * power x n')%Q
  end.

(** The unit roundoff of doubles. *)
Definition unitRoundoff : Q := 1 # 2 ^ 53.

(** The values of every vector of positive sum add up to 1 after [normalize],
    the sum being taken by [sum]. *)
Definition sumsToOne (normalize : list (string * Q) → list (string * Q))
    (sum : list (string * Q) → Q) : Prop :=
  ∀ weights, (0 < sum weights)%Q → (sum (normalize weights) == 1)%Q.

(** Three weights written 0.1, 0.2 and 0.3 in the script. *)
Definition tenths : list (string * Q) :=
  [("URL", round64 (1 # 10)); ("title", round64 (2 # 10));
   ("creators", round64 (3 # 10))].

(** The value of a finite double of the standard library's specification of
    IEEE 754 arithmetic. *)
Definition binary64 (f : SpecFloat.spec_float) : Q :=
  match f with
  | SpecFloat.S754_finite s m e =>
      ((if s then - inject_Z (Zpos m) else inject_Z (Zpos m)) * 2 ^ e)%Q
  | _ => 0%Q
  end.

(* ========================================================================= *)
(** * Properties *)
(* ========================================================================= *)

(* ------------------------------------------------------------------------- *)
(** ** Edit scripts: closure, reversal, bounds *)
(* ------------------------------------------------------------------------- *)

Section EditScriptFacts.
Context {A : Type}.
Implicit Types (u v : list A) (a b : A) (n d : nat).

Local Hint Constructors edits : core.

Lemma edits_snoc_keep u v n a :
  edits u v n → edits (u ++ [a]) (v ++ [a]) n.
Proof. induction 1; simpl; eauto. Qed.

Lemma edits_snoc_subst u v n a b :
  edits u v n → edits (u ++ [a]) (v ++ [b]) (S n).
Proof. induction 1; simpl; eauto. Qed.

Lemma edits_snoc_delete u v n a :
  edits u v n → edits (u ++ [a]) v (S n).
Proof. induction 1; simpl; eauto. Qed.

Lemma edits_snoc_insert u v n b :
  edits u v n → edits u (v ++ [b]) (S n).
Proof. induction 1; simpl; eauto. Qed.

Lemma edits_reverse u v n : edits u v n → edits (reverse u) (reverse v) n.
Proof.
  induction 1; rewrite ?reverse_cons; try constructor;
    auto using edits_snoc_keep, edits_snoc_subst, edits_snoc_delete,
               edits_snoc_insert.
Qed.

Lemma edits_sym u v n : edits u v n → edits v u n.
Proof. induction 1; eauto. Qed.

(** The last step of a script between two non-empty lists. *)
Lemma edits_snoc_inv u v a b n :
  edits (u ++ [a]) (v ++ [b]) n →
  (a = b ∧ edits u v n)
  ∨ ∃ n', n = S n'
      ∧ (edits u v n' ∨ edits u (v ++ [b]) n' ∨ edits (u ++ [a]) v n').
Proof.
  intros H%edits_reverse. rewrite !reverse_snoc in H.
  inversion H as [|? ? ? ? H'|? ? ? ? ? H'|? ? ? ? H'|? ? ? ? H']; subst;
    apply edits_reverse in H';
    rewrite ?reverse_cons, ?reverse_involutive in H'; eauto 6.
Qed.

Lemma edits_from_nil v : edits [] v (length v).
Proof. induction v; simpl; eauto. Qed.

Lemma edits_to_nil u : edits u [] (length u).
Proof. induction u; simpl; eauto. Qed.

Lemma edits_length_diff u v n :
  edits u v n → length u ≤ length v + n ∧ length v ≤ length u + n.
Proof. induction 1; simpl; lia. Qed.

Lemma minEdits_from_nil v : minEdits [] v (length v).
Proof.
  split; [apply edits_from_nil|].
  intros n H%edits_length_diff; simpl in H; lia.
Qed.

Lemma minEdits_to_nil u : minEdits u [] (length u).
Proof.
  split; [apply edits_to_nil|].
  intros n H%edits_length_diff; simpl in H; lia.
Qed.

Lemma minEdits_unique u v d d' : minEdits u v d → minEdits u v d' → d = d'.
Proof. intros [H1 H2] [H3 H4]. apply H2 in H3. apply H4 in H1. lia. Qed.

Lemma minEdits_sym u v d : minEdits u v d → minEdits v u d.
Proof.
  intros [H1 H2]; split; [by apply edits_sym|].
  intros n H%edits_sym; auto.
Qed.

(** Substituting along the shorter list and then inserting or deleting the
    rest costs the length of the longer one. *)
Lemma edits_max u v : ∃ n, edits u v n ∧ n ≤ length u `max` length v.
Proof.
  revert v; induction u as [|a u IH]; intros v.
  - exists (length v); split; [apply edits_from_nil | simpl; lia].
  - destruct v as [|b v].
    + exists (length (a :: u)); split; [apply edits_to_nil | simpl; lia].
    + destruct (IH v) as (n & Hn & Hle).
      exists (S n); split; [eauto | simpl; lia].
Qed.

Lemma minEdits_le_max u v d : minEdits u v d → d ≤ length u `max` length v.
Proof.
  intros [_ Hmin]. destruct (edits_max u v) as (n & Hn & Hle).
  apply Hmin in Hn. lia.
Qed.

(** The recurrence that the dynamic programme evaluates. *)
Lemma minEdits_snoc `{EqDecision A} u v a b d1 d2 d3 :
  minEdits u (v ++ [b]) d1 →
  minEdits (u ++ [a]) v d2 →
  minEdits u v d3 →
  minEdits (u ++ [a]) (v ++ [b])
    ((d1 + 1) `min` ((d2 + 1) `min` (d3 + if decide (a = b) then 0 else 1))).
Proof.
  intros [E1 M1] [E2 M2] [E3 M3]. split.
  - destruct (decide (a = b)) as [->|].
    + destruct (Nat.min_spec (d1 + 1) ((d2 + 1) `min` (d3 + 0))) as [[_ ->]|[_ ->]];
        [rewrite Nat.add_1_r; by apply edits_snoc_delete|].
      destruct (Nat.min_spec (d2 + 1) (d3 + 0)) as [[_ ->]|[_ ->]];
        [rewrite Nat.add_1_r; by apply edits_snoc_insert|].
      rewrite Nat.add_0_r; by apply edits_snoc_keep.
    + destruct (Nat.min_spec (d1 + 1) ((d2 + 1) `min` (d3 + 1))) as [[_ ->]|[_ ->]];
        [rewrite Nat.add_1_r; by apply edits_snoc_delete|].
      destruct (Nat.min_spec (d2 + 1) (d3 + 1)) as [[_ ->]|[_ ->]];
        [rewrite Nat.add_1_r; by apply edits_snoc_insert|].
      rewrite Nat.add_1_r; by apply edits_snoc_subst.
  - intros n [[-> H]|(n' & -> & [H|[H|H]])]%edits_snoc_inv.
    + apply M3 in H. rewrite decide_True by done. lia.
    + apply M3 in H. destruct (decide (a = b)); lia.
    + apply M1 in H. lia.
    + apply M2 in H. lia.
Qed.

(** Scripts compose: the cost of going through [v] bounds the cost of
    going directly. *)
Lemma edits_trans u v w n1 n2 :
  edits u v n1 → edits v w n2 → ∃ n, n ≤ n1 + n2 ∧ edits u w n.
Proof.
  intros H1; revert w n2.
  induction H1 as [|a u v n1 H1 IH|a b u v n1 H1 IH|a u v n1 H1 IH|b u v n1 H1 IH];
    intros w n2 H2.
  - exists n2. split; [lia | done].
  - remember (a :: v) as v0 eqn:E.
    induction H2 as [|c v' w n2 H2 _|c d v' w n2 H2 _|c v' w n2 H2 _|d v' w n2 H2 IH2];
      try discriminate.
    + injection E as -> ->. destruct (IH _ _ H2) as (n & ? & ?).
      exists n. split; [lia | eauto].
    + injection E as -> ->. destruct (IH _ _ H2) as (n & ? & ?).
      exists (S n). split; [lia | eauto].
    + injection E as -> ->. destruct (IH _ _ H2) as (n & ? & ?).
      exists (S n). split; [lia | eauto].
    + destruct (IH2 E) as (n & ? & ?). exists (S n). split; [lia | eauto].
  - remember (b :: v) as v0 eqn:E.
    induction H2 as [|c v' w n2 H2 _|c d v' w n2 H2 _|c v' w n2 H2 _|d v' w n2 H2 IH2];
      try discriminate.
    + injection E as -> ->. destruct (IH _ _ H2) as (n & ? & ?).
      exists (S n). split; [lia | eauto].
    + injection E as -> ->. destruct (IH _ _ H2) as (n & ? & ?).
      exists (S n). split; [lia | eauto].
    + injection E as -> ->. destruct (IH _ _ H2) as (n & ? & ?).
      exists (S n). split; [lia | eauto].
    + destruct (IH2 E) as (n & ? & ?). exists (S n). split; [lia | eauto].
  - destruct (IH _ _ H2) as (n & ? & ?). exists (S n). split; [lia | eauto].
  - remember (b :: v) as v0 eqn:E.
    induction H2 as [|c v' w n2 H2 _|c d v' w n2 H2 _|c v' w n2 H2 _|d v' w n2 H2 IH2];
      try discriminate.
    + injection E as -> ->. destruct (IH _ _ H2) as (n & ? & ?).
      exists (S n). split; [lia | eauto].
    + injection E as -> ->. destruct (IH _ _ H2) as (n & ? & ?).
      exists (S n). split; [lia | eauto].
    + injection E as -> ->. destruct (IH _ _ H2) as (n & ? & ?).
      exists n. split; [lia | eauto].
    + destruct (IH2 E) as (n & ? & ?). exists (S n). split; [lia | eauto].
Qed.

Lemma edits_refl u : edits u u 0.
Proof. induction u; eauto. Qed.

(** One operation is a script of cost 1. *)
Lemma step_edits u v : step u v → edits u v 1.
Proof.
  intros [p s b|p s a|p s a b]; induction p; simpl;
    eauto using edits_refl.
Qed.

Lemma steps_edits k u v : steps k u v → ∃ n, n ≤ k ∧ edits u v n.
Proof.
  induction 1 as [u|k u v w Hstep _ (n & Hn & IH)].
  - exists 0. split; [lia | apply edits_refl].
  - destruct (edits_trans _ _ _ _ _ (step_edits _ _ Hstep) IH) as (n' & ? & ?).
    exists n'. split; [lia | done].
Qed.

Lemma step_cons a u v : step u v → step (a :: u) (a :: v).
Proof.
  intros [p s b|p s c|p s c b].
  - apply (step_insert (a :: p)).
  - apply (step_delete (a :: p)).
  - apply (step_subst (a :: p)).
Qed.

Lemma steps_cons a k u v : steps k u v → steps k (a :: u) (a :: v).
Proof. induction 1; econstructor; eauto using step_cons. Qed.

(** A script of cost [n] is carried out by exactly [n] operations. *)
Lemma edits_steps u v n : edits u v n → steps n u v.
Proof.
  induction 1 as [|a u v n _ IH|a b u v n _ IH|a u v n _ IH|b u v n _ IH].
  - constructor.
  - by apply steps_cons.
  - apply (steps_next _ _ (b :: u)); [apply (step_subst [])|].
    by apply steps_cons.
  - apply (steps_next _ _ u); [apply (step_delete [])|done].
  - apply (steps_next _ _ (b :: u)); [apply (step_insert [])|].
    by apply steps_cons.
Qed.

(** The least script cost is the edit distance. *)
Lemma minEdits_editDistance u v d : minEdits u v d → editDistance u v d.
Proof.
  intros [He Hmin]. split; [by apply edits_steps|].
  intros k (n & Hn & H)%steps_edits. apply Hmin in H. lia.
Qed.

Lemma editDistance_unique u v d d' :
  editDistance u v d → editDistance u v d' → d = d'.
Proof. intros [H1 H2] [H3 H4]. apply H2 in H3. apply H4 in H1. lia. Qed.
End EditScriptFacts.

(* ------------------------------------------------------------------------- *)
(** ** The two-row dynamic programme computes the least script cost *)
(* ------------------------------------------------------------------------- *)

Lemma get_chars s i : String.get i s = chars s !! i.
Proof. revert i; induction s as [|c s IH]; intros [|i]; simpl; auto. Qed.

Lemma length_chars s : length (chars s) = JS.length s.
Proof. induction s; simpl; auto. Qed.

Lemma truthy_false s : JS.truthy s = false → s = "".
Proof. by destruct s. Qed.

Section TwoRows.
Context (str1 str2 : string).
Let l1 := chars str1.
Let l2 := chars str2.
Let m := JS.length str1.
Let n := JS.length str2.

Lemma inner_loop_cells i prev curr k :
  1 ≤ i ≤ m → rowOK l1 l2 n (i - 1) prev → length curr = S n → k ≤ n →
  let c := foldl (levenshteinCell str1 str2 prev i) (<[0:=i]> curr) (seq 1 k) in
  length c = S n
  ∧ ∀ j, j ≤ k → ∃ d, c !! j = Some d ∧ minEdits (take i l1) (take j l2) d.
Proof.
  intros Hi [Hplen Hprev] Hclen. induction k as [|k IH]; intros Hk.
  - simpl. split; [by rewrite length_insert|]. intros j Hj.
    assert (j = 0) as -> by lia. exists i. split.
    + apply list_lookup_insert_eq. lia.
    + replace i with (length (take i l1)) at 2.
      * apply minEdits_to_nil.
      * apply length_take_le. unfold l1. rewrite length_chars. fold m. lia.
  - rewrite seq_S, foldl_snoc. cbv zeta in IH |- *.
    destruct IH as [Hlen Hc]; [lia|].
    set (c := foldl _ _ (seq 1 k)) in *.
    unfold levenshteinCell. replace (1 + k - 1) with k by lia.
    change (1 + k) with (S k).
    destruct (Hprev (S k)) as (d1 & Hd1 & M1); [lia|].
    destruct (Hprev k) as (d3 & Hd3 & M3); [lia|].
    destruct (Hc k) as (d2 & Hd2 & M2); [lia|].
    rewrite (list_lookup_total_correct _ _ _ Hd1),
      (list_lookup_total_correct _ _ _ Hd2),
      (list_lookup_total_correct _ _ _ Hd3).
    destruct (lookup_lt_is_Some_2 l1 (i - 1)) as [a Ha].
    { unfold l1. rewrite length_chars. fold m. lia. }
    destruct (lookup_lt_is_Some_2 l2 k) as [b Hb].
    { unfold l2. rewrite length_chars. fold n. lia. }
    rewrite !get_chars. fold l1 l2. rewrite Ha, Hb.
    assert (Htake1 : take i l1 = take (i - 1) l1 ++ [a]).
    { replace i with (S (i - 1)) at 1 by lia. by apply take_S_r. }
    assert (Htake2 : take (S k) l2 = take k l2 ++ [b]) by by apply take_S_r.
    split; [by rewrite length_insert|]. intros j Hj.
    destruct (decide (j = S k)) as [->|Hne].
    + eexists. split; [apply list_lookup_insert_eq; lia|].
      rewrite Htake1, Htake2.
      replace (if bool_decide (Some a = Some b) then 0 else 1)
        with (if decide (a = b) then 0 else 1).
      * apply minEdits_snoc; by rewrite <-?Htake1, <-?Htake2.
      * destruct (decide (a = b)) as [->|Hab].
        -- by rewrite bool_decide_true.
        -- rewrite bool_decide_false; [done|]. by intros [= ?].
    + rewrite list_lookup_insert_ne by done. apply Hc. lia.
Qed.

Lemma outer_loop_rows k :
  k ≤ m →
  let rows :=
    foldl (levenshteinRow str1 str2 n)
      (imap (λ i _, i) (replicate (n + 1) 0), replicate (n + 1) 0) (seq 1 k) in
  rowOK l1 l2 n k rows.1 ∧ length rows.2 = S n.
Proof.
  induction k as [|k IH]; intros Hk.
  - simpl. split; [split|].
    + rewrite length_imap, length_replicate. lia.
    + intros j Hj. exists j. split.
      * rewrite list_lookup_imap, lookup_replicate_2 by lia. done.
      * replace j with (length (take j l2)) at 2.
        -- apply minEdits_from_nil.
        -- apply length_take_le. unfold l2. rewrite length_chars. fold n. lia.
    + rewrite length_replicate. lia.
  - rewrite seq_S, foldl_snoc. cbv zeta in IH |- *.
    destruct IH as [Hrow Hlen]; [lia|].
    destruct (foldl _ _ (seq 1 k)) as [prev curr]. simpl in *.
    split; [|by destruct Hrow].
    destruct (inner_loop_cells (S k) prev curr n) as [Hl Hcells];
      [lia| by rewrite Nat.sub_1_r | done | done |].
    split; [done|]. intros j Hj. by apply Hcells.
Qed.

Lemma levenshteinDistance_minEdits :
  minEdits l1 l2 (levenshteinDistance str1 str2).
Proof.
  unfold levenshteinDistance.
  destruct (JS.truthy str1) eqn:T1; simpl.
  2:{ apply truthy_false in T1. subst l1 l2. rewrite T1. simpl.
      replace (if JS.truthy str2 then JS.length str2 else 0)
        with (length (chars str2)).
      - apply minEdits_from_nil.
      - rewrite length_chars. by destruct str2. }
  destruct (JS.truthy str2) eqn:T2; simpl.
  2:{ apply truthy_false in T2. subst l1 l2. rewrite T2. simpl.
      rewrite <-length_chars. apply minEdits_to_nil. }
  fold m n.
  destruct (outer_loop_rows m) as [[Hlen Hrow] _]; [done|].
  destruct (foldl _ _ (seq 1 m)) as [prev curr]. simpl in *.
  destruct (Hrow n) as (d & Hd & Hmin); [done|].
  rewrite (list_lookup_total_correct _ _ _ Hd).
  rewrite !take_ge in Hmin; [done| |];
    unfold l1, l2; rewrite length_chars; done.
Qed.
End TwoRows.

(* ------------------------------------------------------------------------- *)
(** ** Numbers *)
(* ------------------------------------------------------------------------- *)

Lemma num_nonneg k : (0 <= num k)%Q.
Proof. unfold num, Qle; simpl. lia. Qed.

Lemma num_pos k : 0 < k → (0 < num k)%Q.
Proof. unfold num, Qlt; simpl. lia. Qed.

Lemma num_le j k : j ≤ k → (num j <= num k)%Q.
Proof. unfold num, Qle; simpl. lia. Qed.

Lemma num_ratio_range j k :
  j ≤ k → 0 < k → (0 <= num j / num k)%Q ∧ (num j / num k <= 1)%Q.
Proof.
  intros Hjk Hk. pose proof (num_pos k Hk). split.
  - apply Qle_shift_div_l; [done|]. rewrite Qmult_0_l. apply num_nonneg.
  - apply Qle_shift_div_r; [done|]. rewrite Qmult_1_l. by apply num_le.
Qed.

Lemma num_ratio_self k : 0 < k → (num k / num k == 1)%Q.
Proof.
  intros Hk. apply Qmult_inv_r. intros H0.
  pose proof (num_pos k Hk) as Hp. rewrite H0 in Hp. by apply Qlt_irrefl in Hp.
Qed.

Lemma positive_spec x : positive x = true ↔ (0 < x)%Q.
Proof.
  unfold positive. destruct (Qle_bool x 0) eqn:E; simpl.
  - apply Qle_bool_iff in E. split; [done|]. intros H. by apply Qlt_not_le in H.
  - split; [|done]. intros _. apply Qnot_le_lt. intros H%Qle_bool_iff. congruence.
Qed.

(* ------------------------------------------------------------------------- *)
(** ** Token-set similarity *)
(* ------------------------------------------------------------------------- *)

Lemma intersection_by_filter (X Y : gset string) :
  list_to_set (filter (λ x, x ∈ Y) (elements X)) = X ∩ Y.
Proof.
  apply set_eq; intros x.
  rewrite elem_of_list_to_set, list_elem_of_filter, elem_of_elements,
    elem_of_intersection. tauto.
Qed.

Lemma union_by_append (X Y : gset string) :
  list_to_set (elements X ++ elements Y) = X ∪ Y.
Proof. by rewrite list_to_set_app_L, !list_to_set_elements_L. Qed.

Lemma size_zero_empty (X : gset string) : size X = 0 ↔ X = ∅.
Proof. rewrite size_empty_iff. by unfold_leibniz. Qed.

Lemma jaccardSimilarity_truthy a b :
  JS.truthy a = true → JS.truthy b = true →
  let X := tokenSet a in
  let Y := tokenSet b in
  jaccardSimilarity a b =
    if (size X =? 0) && (size Y =? 0) then 1%Q
    else if (size X =? 0) || (size Y =? 0) then 0%Q
    else (num (size (X ∩ Y)) / num (size (X ∪ Y)))%Q.
Proof.
  intros Ha Hb. unfold jaccardSimilarity. rewrite Ha, Hb. simpl.
  by rewrite intersection_by_filter, union_by_append.
Qed.

Lemma jaccardSimilarity_index a b :
  JS.truthy a = true → JS.truthy b = true →
  (jaccardSimilarity a b == jaccardIndex (tokenSet a) (tokenSet b))%Q.
Proof.
  intros Ha Hb. rewrite jaccardSimilarity_truthy by done. cbv zeta.
  generalize (tokenSet a) (tokenSet b); intros X Y. unfold jaccardIndex.
  destruct (Nat.eqb_spec (size X) 0) as [EX|EX],
    (Nat.eqb_spec (size Y) 0) as [EY|EY]; simpl;
    rewrite size_zero_empty in EX; rewrite size_zero_empty in EY.
  - subst. by rewrite decide_True by set_solver.
  - subst. destruct (decide (∅ ∪ Y = ∅)) as [HE|_]; [exfalso; set_solver|].
    rewrite (left_absorb_L ∅ (∩)), size_empty. unfold Qdiv. by rewrite Qmult_0_l.
  - subst. destruct (decide (X ∪ ∅ = ∅)) as [HE|_]; [exfalso; set_solver|].
    rewrite (right_absorb_L ∅ (∩)), size_empty. unfold Qdiv. by rewrite Qmult_0_l.
  - destruct (decide (X ∪ Y = ∅)) as [HE|_]; [exfalso; set_solver | reflexivity].
Qed.

Lemma jaccardIndex_range X Y :
  (0 <= jaccardIndex X Y)%Q ∧ (jaccardIndex X Y <= 1)%Q.
Proof.
  unfold jaccardIndex. destruct (decide (X ∪ Y = ∅)) as [|Hne]; [done|].
  apply num_ratio_range.
  - apply subseteq_size. etrans; [apply intersection_subseteq_l|].
    apply union_subseteq_l.
  - rewrite <-size_zero_empty in Hne. lia.
Qed.

Lemma jaccardSimilarity_range a b :
  (0 <= jaccardSimilarity a b)%Q ∧ (jaccardSimilarity a b <= 1)%Q.
Proof.
  destruct (JS.truthy a) eqn:Ha, (JS.truthy b) eqn:Hb;
    [|unfold jaccardSimilarity; rewrite Ha, Hb; done..].
  rewrite jaccardSimilarity_index by done. apply jaccardIndex_range.
Qed.

Lemma jaccardSimilarity_comm a b : jaccardSimilarity a b = jaccardSimilarity b a.
Proof.
  destruct (JS.truthy a) eqn:Ha, (JS.truthy b) eqn:Hb;
    [|unfold jaccardSimilarity; rewrite Ha, Hb; done..].
  rewrite !jaccardSimilarity_truthy by done. cbv zeta.
  rewrite (comm_L (∩) (tokenSet a)), (comm_L (∪) (tokenSet a)).
  by destruct (size (tokenSet a) =? 0), (size (tokenSet b) =? 0).
Qed.

Lemma jaccardSimilarity_refl a : (jaccardSimilarity a a == 1)%Q.
Proof.
  destruct (JS.truthy a) eqn:Ha;
    [|unfold jaccardSimilarity; rewrite Ha; done].
  rewrite jaccardSimilarity_index by done. unfold jaccardIndex.
  destruct (decide (_ = ∅)) as [|Hne]; [done|].
  rewrite (idemp_L (∩)). rewrite (idemp_L (∪)) in *.
  apply num_ratio_self. rewrite <-size_zero_empty in Hne. lia.
Qed.

(** C7. For all strings [a], [b]: [levenshteinDistance a b] is the minimum
    edit distance from [a] to [b] under unit-cost insertions, deletions and
    substitutions; when one string is empty it is the length of the other;
    and the distance from kitten to sitting is 3. *)
Theorem levenshteinDistance_spec (a b : string) :
  editDistance (chars a) (chars b) (levenshteinDistance a b)
  ∧ levenshteinDistance "" b = JS.length b
  ∧ levenshteinDistance a "" = JS.length a
  ∧ levenshteinDistance "kitten" "sitting" = 3.
Proof.
  split; [apply minEdits_editDistance, levenshteinDistance_minEdits|].
  split; [by destruct b|]. split; [by destruct a|]. reflexivity.
Qed.

(* ------------------------------------------------------------------------- *)
(** ** Edit similarity and the title blend *)
(* ------------------------------------------------------------------------- *)

Lemma levenshteinDistance_comm a b :
  levenshteinDistance a b = levenshteinDistance b a.
Proof.
  eapply minEdits_unique; [apply levenshteinDistance_minEdits|].
  apply minEdits_sym, levenshteinDistance_minEdits.
Qed.

Lemma levenshteinDistance_le_max a b :
  levenshteinDistance a b ≤ JS.length a `max` JS.length b.
Proof.
  rewrite <-!length_chars.
  apply minEdits_le_max, levenshteinDistance_minEdits.
Qed.

Lemma levenshteinSimilarity_comm a b :
  levenshteinSimilarity a b = levenshteinSimilarity b a.
Proof.
  unfold levenshteinSimilarity.
  rewrite (levenshteinDistance_comm a b), (Nat.max_comm (JS.length a)).
  by destruct (JS.truthy a), (JS.truthy b).
Qed.

Lemma levenshteinSimilarity_range a b :
  (0 <= levenshteinSimilarity a b)%Q ∧ (levenshteinSimilarity a b <= 1)%Q.
Proof.
  unfold levenshteinSimilarity.
  destruct (JS.truthy a) eqn:Ha, (JS.truthy b); simpl; try done.
  destruct (Nat.eqb_spec (JS.length a `max` JS.length b) 0) as [|Hmax]; [done|].
  destruct (num_ratio_range (levenshteinDistance a b)
              (JS.length a `max` JS.length b)) as [H0 H1];
    [apply levenshteinDistance_le_max | lia |].
  split; lra.
Qed.

Lemma num_plus_comm j k : (num j + num k)%Q = (num k + num j)%Q.
Proof. unfold num, Qplus; simpl. f_equal. lia. Qed.

Lemma combinedTitleSimilarity_comm a b fz :
  combinedTitleSimilarity a b fz = combinedTitleSimilarity b a fz.
Proof.
  unfold combinedTitleSimilarity.
  by rewrite (jaccardSimilarity_comm a b), (levenshteinSimilarity_comm a b),
    (num_plus_comm (JS.length a)).
Qed.

(** The weight of the edit similarity in the blend. *)
Lemma editWeight_range avgLen :
  (0 <= Qmax 0 (1 - avgLen / 100))%Q
  ∧ ((0 <= avgLen)%Q → (Qmax 0 (1 - avgLen / 100) <= 1)%Q).
Proof.
  split; [apply Q.le_max_l|]. intros H.
  apply Q.max_lub; [done|].
  assert (0 <= avgLen / 100)%Q; [|lra].
  apply Qle_shift_div_l; [done | lra].
Qed.

Lemma combinedTitleSimilarity_range a b fz :
  (0 <= combinedTitleSimilarity a b fz)%Q ∧ (combinedTitleSimilarity a b fz <= 1)%Q.
Proof.
  unfold combinedTitleSimilarity.
  destruct (jaccardSimilarity_range a b) as [J0 J1].
  destruct fz; simpl; [|done].
  destruct (levenshteinSimilarity_range a b) as [L0 L1].
  set (avg := ((num (JS.length a) + num (JS.length b)) / 2)%Q).
  destruct (editWeight_range avg) as [W0 W1].
  assert (0 <= avg)%Q.
  { apply Qle_shift_div_l; [done|].
    pose proof (num_nonneg (JS.length a)). pose proof (num_nonneg (JS.length b)).
    lra. }
  specialize (W1 H).
  generalize dependent (Qmax 0 (1 - avg / 100)).
  generalize dependent (jaccardSimilarity a b).
  generalize dependent (levenshteinSimilarity a b).
  intros l ? ? j ? ? w ? ?. split; nra.
Qed.

(** C5. For all titles [t1], [t2]: without fuzzy matching
    [combinedTitleSimilarity] is [jaccardSimilarity t1 t2]; with it, it is
    [jaccard * (1 - editWeight) + levenshtein * editWeight] where
    [editWeight = max 0 (1 - avgLength / 100)] and [avgLength] is the mean of
    the two lengths. *)
Theorem combinedTitleSimilarity_spec (t1 t2 : string) :
  combinedTitleSimilarity t1 t2 false = jaccardSimilarity t1 t2
  ∧ (let avgLength := ((num (JS.length t1) + num (JS.length t2)) / 2)%Q in
     let editWeight := Qmax 0 (1 - avgLength / 100)%Q in
     combinedTitleSimilarity t1 t2 true =
       (jaccardSimilarity t1 t2 * (1 - editWeight)
        + levenshteinSimilarity t1 t2 * editWeight)%Q
     ∧ (0 <= editWeight)%Q ∧ (editWeight <= 1)%Q).
Proof.
  split; [done|]. cbv zeta. split; [done|].
  destruct (editWeight_range ((num (JS.length t1) + num (JS.length t2)) / 2))
    as [W0 W1].
  split; [done|]. apply W1.
  apply Qle_shift_div_l; [done|].
  pose proof (num_nonneg (JS.length t1)). pose proof (num_nonneg (JS.length t2)).
  lra.
Qed.

(* ------------------------------------------------------------------------- *)
(** ** The pairwise score *)
(* ------------------------------------------------------------------------- *)

Lemma calculateSimilarity_content item1 item2 weights fz rs :
  calculateSimilarity item1 item2 weights fz rs =
    if typeVeto item1 item2 rs then 0%Q
    else
      let sums :=
        foldl (λ sums p, accumulate (weight weights p.1) p.2 sums)
              (0%Q, 0%Q) (contentSimilarities item1 item2 fz) in
      finalScore
        (if positive (weight weights "itemType") then
           if rs then
             ((sums.1 + weight weights "itemType")%Q,
              (sums.2 + 1 * weight weights "itemType")%Q)
           else sums
         else sums).
Proof.
  unfold calculateSimilarity, typeVeto.
  destruct rs, (String.eqb (itemType item1) (itemType item2)); reflexivity.
Qed.

Lemma calculateSimilarity_fold item1 item2 weights fz rs :
  calculateSimilarity item1 item2 weights fz rs =
    if typeVeto item1 item2 rs then 0%Q
    else finalScore
           (foldl (λ sums p, accumulate (weight weights p.1) p.2 sums)
                  (0%Q, 0%Q) (fieldSimilarities item1 item2 fz rs)).
Proof.
  rewrite calculateSimilarity_content. unfold fieldSimilarities.
  destruct (typeVeto item1 item2 rs); [done|]. cbv zeta.
  rewrite foldl_app.
  generalize (foldl (λ sums p, accumulate (weight weights p.1) p.2 sums)
                (0%Q, 0%Q) (contentSimilarities item1 item2 fz)).
  intros sums. destruct rs; simpl; unfold accumulate;
    by destruct (positive (weight weights "itemType")).
Qed.

Lemma accumulate_fold weights sims sums :
  let r := foldl (λ sums p, accumulate (weight weights p.1) p.2 sums) sums sims in
  (r.1 == sums.1 + accumulatedWeight weights sims)%Q
  ∧ (r.2 == sums.2 + accumulatedSimilarity weights sims)%Q.
Proof.
  unfold accumulatedWeight, accumulatedSimilarity, activeFields.
  revert sums; induction sims as [|[f x] sims IH]; intros sums; simpl.
  - split; ring.
  - destruct (IH (accumulate (weight weights f) x sums)) as [H1 H2].
    cbv zeta in H1, H2. rewrite H1, H2. unfold accumulate.
    destruct (positive (weight weights f)); simpl; split; ring.
Qed.

Lemma accumulate_bounds weights sims sums :
  Forall (λ p, (0 <= p.2)%Q ∧ (p.2 <= 1)%Q) sims →
  (0 <= sums.2)%Q ∧ (sums.2 <= sums.1)%Q →
  let r := foldl (λ sums p, accumulate (weight weights p.1) p.2 sums) sums sims in
  (0 <= r.2)%Q ∧ (r.2 <= r.1)%Q.
Proof.
  intros Hsims; revert sums.
  induction Hsims as [|[f x] sims [Hx0 Hx1] _ IH]; intros sums Hs; [done|].
  simpl. apply IH. unfold accumulate.
  destruct (positive (weight weights f)) eqn:Hw; [|done].
  apply positive_spec in Hw. simpl in *. split; nra.
Qed.

Lemma finalScore_range sums :
  (0 <= sums.2)%Q ∧ (sums.2 <= sums.1)%Q →
  (0 <= finalScore sums)%Q ∧ (finalScore sums <= 1)%Q.
Proof.
  destruct sums as [t c]; simpl. intros [H0 H1].
  destruct (positive t) eqn:Ht; [|done]. apply positive_spec in Ht. split.
  - apply Qle_shift_div_l; [done | lra].
  - apply Qle_shift_div_r; [done | lra].
Qed.

Lemma finalScore_proper t c t' c' :
  (t == t')%Q → (c == c')%Q →
  (finalScore (t, c) == if positive t' then c' / t' else 0)%Q.
Proof.
  intros Ht Hc. simpl. unfold positive. rewrite Ht.
  destruct (Qle_bool t' 0); simpl; [reflexivity|]. by rewrite Ht, Hc.
Qed.

Lemma sameNonEmpty_comm a b : sameNonEmpty a b = sameNonEmpty b a.
Proof.
  unfold sameNonEmpty. rewrite (String.eqb_sym a b).
  by destruct (JS.truthy a), (JS.truthy b).
Qed.

Lemma unit_range_1 : (0 <= 1)%Q ∧ (1 <= 1)%Q.
Proof. split; lra. Qed.

Lemma unit_range_0 : (0 <= 0)%Q ∧ (0 <= 1)%Q.
Proof. split; lra. Qed.

Lemma fieldSimilarities_range item1 item2 fz rs :
  Forall (λ p, (0 <= p.2)%Q ∧ (p.2 <= 1)%Q) (fieldSimilarities item1 item2 fz rs).
Proof.
  unfold fieldSimilarities, contentSimilarities. apply Forall_app; split.
  - repeat apply Forall_cons_2; try apply Forall_nil_2; simpl;
      try destruct (sameNonEmpty _ _);
      auto using jaccardSimilarity_range, combinedTitleSimilarity_range,
        unit_range_1, unit_range_0.
  - destruct rs; [apply Forall_cons_2; [apply unit_range_1|]|];
      apply Forall_nil_2.
Qed.

Lemma fieldSimilarities_comm item1 item2 fz rs :
  fieldSimilarities item1 item2 fz rs = fieldSimilarities item2 item1 fz rs.
Proof.
  unfold fieldSimilarities, contentSimilarities.
  by rewrite (sameNonEmpty_comm (URL item1)), (sameNonEmpty_comm (DOI item1)),
    (sameNonEmpty_comm (year item1)), (jaccardSimilarity_comm (URL item1)),
    (combinedTitleSimilarity_comm (title item1)),
    (jaccardSimilarity_comm (creators item1)),
    (jaccardSimilarity_comm (date item1)),
    (jaccardSimilarity_comm (publisher item1)),
    (jaccardSimilarity_comm (journal item1)),
    (jaccardSimilarity_comm (shortTitle item1)),
    (jaccardSimilarity_comm (place item1)),
    (jaccardSimilarity_comm (ISBN item1)).
Qed.

(** C3. For every pair of normalised records and every weight vector: if
    [requireSameType] is set and the item types differ, the score is 0,
    whatever the weights and the other fields. *)
Theorem calculateSimilarity_type_veto (item1 item2 : NormalizedItem)
    (weights : Weights) (useFuzzyTitle : bool) :
  itemType item1 ≠ itemType item2 →
  calculateSimilarity item1 item2 weights useFuzzyTitle true = 0%Q.
Proof.
  intros Hne. unfold calculateSimilarity.
  destruct (String.eqb_spec (itemType item1) (itemType item2)); [done|].
  reflexivity.
Qed.

Lemma calculateSimilarity_type_veto_witness :
  itemType articleRecord ≠ itemType webpageRecord
  ∧ calculateSimilarity articleRecord webpageRecord
      (normalizeWeights defaultWeights) true true = 0%Q.
Proof.
  assert (H : itemType articleRecord ≠ itemType webpageRecord)
    by (vm_compute; discriminate).
  split; [exact H|].
  exact (calculateSimilarity_type_veto articleRecord webpageRecord
           (normalizeWeights defaultWeights) true H).
Defined.

(** C4. For every pair of normalised records, every weight vector and every
    flag setting, the score lies in [0,1]; past the same-type veto it is the
    accumulated per-field similarity divided by the accumulated weight over
    the fields of positive weight, and it is 0 when no field has positive
    weight. *)
Theorem calculateSimilarity_score (item1 item2 : NormalizedItem)
    (weights : Weights) (useFuzzyTitle requireSameType : bool) :
  let score :=
    calculateSimilarity item1 item2 weights useFuzzyTitle requireSameType in
  let sims := fieldSimilarities item1 item2 useFuzzyTitle requireSameType in
  let S := accumulatedSimilarity weights sims in
  let W := accumulatedWeight weights sims in
  ((0 <= score)%Q ∧ (score <= 1)%Q)
  ∧ (score ==
       if typeVeto item1 item2 requireSameType then 0
       else if positive W then S / W else 0)%Q
  ∧ ((∀ field, positive (weight weights field) = false) → score = 0%Q).
Proof.
  cbv zeta. rewrite calculateSimilarity_fold.
  set (sims := fieldSimilarities item1 item2 useFuzzyTitle requireSameType).
  pose proof (fieldSimilarities_range item1 item2 useFuzzyTitle requireSameType)
    as Hrange. fold sims in Hrange.
  destruct (typeVeto item1 item2 requireSameType); [done|].
  split; [|split].
  - apply finalScore_range, accumulate_bounds; done.
  - destruct (accumulate_fold weights sims (0%Q, 0%Q)) as [H1 H2].
    cbv zeta in H1, H2.
    destruct (foldl _ _ sims) as [t c]; simpl in H1, H2.
    apply finalScore_proper; [rewrite H1 | rewrite H2]; ring.
  - intros Hnone.
    assert (Hid : ∀ l sums,
      foldl (λ sums p, accumulate (weight weights p.1) p.2 sums) sums l = sums).
    { induction l as [|p l IH]; intros sums; [done|]. simpl.
      unfold accumulate at 2. by rewrite Hnone, IH. }
    by rewrite Hid.
Qed.

(** C10. The score is symmetric in its two records, for every weight vector
    and every flag setting. *)
Theorem calculateSimilarity_comm (item1 item2 : NormalizedItem)
    (weights : Weights) (useFuzzyTitle requireSameType : bool) :
  calculateSimilarity item1 item2 weights useFuzzyTitle requireSameType =
  calculateSimilarity item2 item1 weights useFuzzyTitle requireSameType
  ∧ (∀ a b, jaccardSimilarity a b = jaccardSimilarity b a)
  ∧ (∀ a b, levenshteinSimilarity a b = levenshteinSimilarity b a)
  ∧ (∀ a b fz, combinedTitleSimilarity a b fz = combinedTitleSimilarity b a fz)
  ∧ (∀ a b, sameNonEmpty a b = sameNonEmpty b a).
Proof.
  split.
  - rewrite !calculateSimilarity_fold. unfold typeVeto.
    by rewrite (String.eqb_sym (itemType item1)), fieldSimilarities_comm.
  - auto using jaccardSimilarity_comm, levenshteinSimilarity_comm,
      combinedTitleSimilarity_comm, sameNonEmpty_comm.
Qed.

(* ------------------------------------------------------------------------- *)
(** ** Weight normalisation *)
(* ------------------------------------------------------------------------- *)

Lemma sumWeights_entries (weights : Weights) :
  sumWeights weights = foldr (λ kv a, (a + kv.2)%Q) 0%Q (map_to_list weights).
Proof.
  unfold sumWeights. rewrite map_fold_foldr.
  by induction (map_to_list weights) as [|[k v] l IH]; simpl; [|rewrite IH].
Qed.

Lemma sumWeights_scaled (weights : Weights) (t : Q) :
  (sumWeights ((λ w, (w / t)%Q) <$> weights) == sumWeights weights / t)%Q.
Proof.
  rewrite !sumWeights_entries, map_to_list_fmap.
  induction (map_to_list weights) as [|[k v] l IH]; simpl.
  - unfold Qdiv. by rewrite Qmult_0_l.
  - rewrite IH. unfold Qdiv. ring.
Qed.

Lemma sumWeights_zero (weights : Weights) :
  (∀ k v, weights !! k = Some v → (v == 0)%Q) → (sumWeights weights == 0)%Q.
Proof.
  intros Hall. rewrite sumWeights_entries.
  assert (Hl : ∀ kv, kv ∈ map_to_list weights → (kv.2 == 0)%Q).
  { intros [k v] Hin. apply (Hall k). by apply elem_of_map_to_list. }
  induction (map_to_list weights) as [|kv l IH]; simpl; [reflexivity|].
  rewrite IH, (Hl kv); [ring | apply list_elem_of_here |].
  intros ? ?. apply Hl. by apply list_elem_of_further.
Qed.

(* ------------------------------------------------------------------------- *)
(** ** Loops that push *)
(* ------------------------------------------------------------------------- *)

Section ForEachPush.
Context {A B : Type} (f : A → Completion B).

Lemma forEachPush_normal xs ys out :
  Forall2 (λ x y, f x = Normal y) xs ys →
  forEachPush f xs out = Normal (out ++ ys).
Proof.
  intros H; revert out. induction H as [|x y xs ys Hx _ IH]; intros out; simpl.
  - by rewrite app_nil_r.
  - rewrite Hx. simpl. by rewrite IH, <-app_assoc.
Qed.

Lemma forEachPush_normal_inv xs out zs :
  forEachPush f xs out = Normal zs →
  ∃ ys, zs = out ++ ys ∧ Forall2 (λ x y, f x = Normal y) xs ys.
Proof.
  revert out; induction xs as [|x xs IH]; intros out; simpl.
  - intros [= <-]. exists []. by rewrite app_nil_r.
  - destruct (f x) as [y|e] eqn:Hx; simpl; [|done].
    intros (ys & -> & Hys)%IH. exists (y :: ys).
    rewrite <-app_assoc. split; [done|]. by constructor.
Qed.

Lemma forEachPush_throw pre bad post ys e out :
  Forall2 (λ x y, f x = Normal y) pre ys →
  f bad = Throw e →
  forEachPush f (pre ++ bad :: post) out = Throw e.
Proof.
  intros H Hbad; revert out.
  induction H as [|x y xs ys' Hx _ IH]; intros out; simpl.
  - by rewrite Hbad.
  - rewrite Hx. simpl. apply IH.
Qed.

Lemma forEachPush_throw_inv xs out e :
  forEachPush f xs out = Throw e →
  ∃ pre bad post ys,
    xs = pre ++ bad :: post
    ∧ Forall2 (λ x y, f x = Normal y) pre ys ∧ f bad = Throw e.
Proof.
  revert out; induction xs as [|x xs IH]; intros out; simpl; [done|].
  destruct (f x) as [y|e'] eqn:Hx; simpl.
  - intros (pre & bad & post & ys & -> & Hpre & Hbad)%IH.
    exists (x :: pre), bad, post, (y :: ys). split; [done|].
    split; [by constructor | done].
  - intros [= ->]. exists [], x, xs, []. split; [done|].
    split; [constructor | done].
Qed.
End ForEachPush.

(* ------------------------------------------------------------------------- *)
(** ** The comparison loops *)
(* ------------------------------------------------------------------------- *)

Section DetectFacts.
Context (threshold : Q) (weights : Weights)
        (useExactMatch useFuzzyTitle requireSameType : bool).

Local Abbreviation comparePair' :=
  (comparePair threshold weights useExactMatch useFuzzyTitle requireSameType).
Local Abbreviation candidates' :=
  (candidates threshold weights useExactMatch useFuzzyTitle requireSameType).
Local Abbreviation encounterOrder' :=
  (encounterOrder threshold weights useExactMatch useFuzzyTitle requireSameType).
Local Abbreviation compareAll' :=
  (compareAll threshold weights useExactMatch useFuzzyTitle requireSameType).

Lemma comparePair_pushes r1 r2 acc :
  comparePair' r1 r2 acc = acc ++ candidates' r1 r2.
Proof.
  unfold candidates, comparePair.
  destruct useExactMatch, (checkExactIdentifierMatch r1 r2); simpl;
    try destruct (Qle_bool threshold _); simpl; by rewrite ?app_nil_r.
Qed.

Lemma inner_loop_pushes records item1 l pre acc :
  records = pre ++ l →
  foldl (λ acc j,
           match records !! j with
           | Some item2 => comparePair' item1 item2 acc
           | None => acc
           end) acc (seq (length pre) (length l))
  = acc ++ flat_map (candidates' item1) l.
Proof.
  revert pre acc; induction l as [|x l IH]; intros pre acc Hrec; simpl.
  - by rewrite app_nil_r.
  - rewrite Hrec at 1. rewrite list_lookup_middle by done.
    rewrite comparePair_pushes.
    replace (S (length pre)) with (length (pre ++ [x]))
      by (rewrite length_app; simpl; lia).
    rewrite IH by (by rewrite <-app_assoc). by rewrite <-app_assoc.
Qed.

Lemma outer_loop_pushes records l pre acc :
  records = pre ++ l →
  foldl (λ acc i,
           match records !! i with
           | Some item1 =>
               foldl (λ acc j,
                        match records !! j with
                        | Some item2 => comparePair' item1 item2 acc
                        | None => acc
                        end)
                     acc (seq (i + 1) (length records - (i + 1)))
           | None => acc
           end) acc (seq (length pre) (length l))
  = acc ++ encounterOrder' l.
Proof.
  revert pre acc; induction l as [|x l IH]; intros pre acc Hrec; simpl.
  - by rewrite app_nil_r.
  - rewrite Hrec at 1. rewrite list_lookup_middle by done.
    assert (Hrec' : records = (pre ++ [x]) ++ l) by (by rewrite <-app_assoc).
    replace (length records - (length pre + 1)) with (length l)
      by (rewrite Hrec, length_app; simpl; lia).
    replace (length pre + 1) with (length (pre ++ [x]))
      by (rewrite length_app; simpl; lia).
    rewrite (inner_loop_pushes records x l (pre ++ [x])) by done.
    replace (S (length pre)) with (length (pre ++ [x]))
      by (rewrite length_app; simpl; lia).
    rewrite IH by done. by rewrite <-app_assoc.
Qed.

Lemma compareAll_encounterOrder records :
  compareAll' records = encounterOrder' records.
Proof. unfold compareAll. by apply (outer_loop_pushes records records [] []). Qed.

Lemma encounterOrder_member records i j r1 r2 d :
  records !! i = Some r1 → records !! j = Some r2 → i < j →
  d ∈ candidates' r1 r2 → d ∈ encounterOrder' records.
Proof.
  revert i j; induction records as [|x records IH]; intros i j Hi Hj Hij Hd;
    [done|].
  simpl. apply elem_of_app. destruct i as [|i].
  - left. simpl in Hi. injection Hi as ->.
    destruct j as [|j]; [lia|]. simpl in Hj.
    apply list_elem_of_In, in_flat_map. exists r2. split.
    + apply list_elem_of_In. by eapply list_elem_of_lookup_2.
    + by apply list_elem_of_In.
  - right. destruct j as [|j]; [lia|]. simpl in Hi, Hj.
    apply (IH i j); [done..|lia|done].
Qed.

Lemma candidates_exact r1 r2 :
  useExactMatch = true →
  sameNonEmpty (URL r1) (URL r2) = true
  ∨ sameNonEmpty (DOI r1) (DOI r2) = true →
  ∃ why, candidates' r1 r2 = [mkDuplicate r1 r2 1%Q why].
Proof.
  intros -> H. unfold candidates, comparePair, checkExactIdentifierMatch.
  destruct (sameNonEmpty (URL r1) (URL r2)); simpl; [by eexists|].
  destruct H as [H|H]; [done|]. rewrite H. simpl. by eexists.
Qed.
End DetectFacts.

(* ------------------------------------------------------------------------- *)
(** ** Sorting by similarity *)
(* ------------------------------------------------------------------------- *)

Lemma insert_sorted_perm {A} (le : A → A → bool) x l :
  Permutation (JS.insert_sorted le x l) (x :: l).
Proof.
  induction l as [|y l IH]; simpl; [done|].
  destruct (le x y); [done|]. rewrite IH. apply perm_swap.
Qed.

Lemma sort_perm {A} (le : A → A → bool) l : Permutation (JS.sort le l) l.
Proof.
  induction l as [|x l IH]; simpl; [done|].
  rewrite insert_sorted_perm. by constructor.
Qed.

Lemma bySimilarity_true a b : bySimilarity a b = true → descending a b.
Proof. unfold bySimilarity, descending. intros H%Qle_bool_iff. lra. Qed.

Lemma bySimilarity_false a b :
  bySimilarity a b = false → (similarity a < similarity b)%Q.
Proof.
  unfold bySimilarity. intros H.
  destruct (Qlt_le_dec (similarity a) (similarity b)) as [|Hle]; [done|].
  assert (Qle_bool (similarity b - similarity a) 0 = true)
    by (apply Qle_bool_iff; lra).
  congruence.
Qed.

Lemma insert_sorted_descending x l :
  StronglySorted descending l →
  StronglySorted descending (JS.insert_sorted bySimilarity x l).
Proof.
  induction 1 as [|y l Hl IH Hy]; simpl; [repeat constructor|].
  destruct (bySimilarity x y) eqn:E.
  - apply bySimilarity_true in E. constructor; [by constructor|].
    constructor; [done|]. eapply Forall_impl; [exact Hy|].
    unfold descending in *. intros z Hz. simpl in Hz. lra.
  - apply bySimilarity_false in E. constructor; [done|].
    rewrite (insert_sorted_perm bySimilarity x l).
    constructor; [unfold descending; lra | done].
Qed.

Lemma sort_descending l : StronglySorted descending (JS.sort bySimilarity l).
Proof.
  induction l; simpl; [constructor | by apply insert_sorted_descending].
Qed.

Lemma withSimilarity_insert s x l :
  withSimilarity s (JS.insert_sorted bySimilarity x l) = withSimilarity s (x :: l).
Proof.
  unfold withSimilarity. induction l as [|y l IH]; [done|].
  cbn [JS.insert_sorted]. destruct (bySimilarity x y) eqn:E; [done|].
  apply bySimilarity_false in E.
  cbn [List.filter] in *. rewrite IH.
  destruct (Qeq_bool (similarity x) s) eqn:Ex,
           (Qeq_bool (similarity y) s) eqn:Ey; try done.
  apply Qeq_bool_iff in Ex, Ey. rewrite Ex, Ey in E. by apply Qlt_irrefl in E.
Qed.

Lemma sort_stable s l :
  withSimilarity s (JS.sort bySimilarity l) = withSimilarity s l.
Proof.
  induction l as [|x l IH]; [done|]. cbn [JS.sort].
  rewrite withSimilarity_insert. unfold withSimilarity in *.
  cbn [List.filter]. by rewrite IH.
Qed.

Lemma normalizeAll_normal items records :
  normalizeAll items = Normal records ↔
  Forall2 (λ x y, normalizeItemFields x = Normal y) items records.
Proof.
  unfold normalizeAll. split.
  - by intros (ys & -> & H)%forEachPush_normal_inv.
  - intros H. by rewrite (forEachPush_normal _ _ _ _ H).
Qed.

Lemma detectDuplicates_normal threshold weights em fz rs items records :
  normalizeAll items = Normal records →
  detectDuplicates threshold weights em fz rs items =
    Normal (JS.sort bySimilarity (encounterOrder threshold weights em fz rs records)).
Proof.
  unfold detectDuplicates, normalizeAll. intros ->. simpl.
  by rewrite compareAll_encounterOrder.
Qed.

Lemma sameNonEmpty_spec a b : sameNonEmpty a b = true ↔ a ≠ "" ∧ a = b.
Proof.
  unfold sameNonEmpty. destruct (String.eqb_spec a b) as [->|Hne].
  - destruct b; simpl; split; try done. by intros [? _].
  - rewrite andb_false_r. split; [done | by intros [_ ?]].
Qed.

(* ------------------------------------------------------------------------- *)
(** ** The detector *)
(* ------------------------------------------------------------------------- *)

(** C9. For every record list and configuration, the sequence returned by
    [detectDuplicates] is sorted by similarity in descending order, and the
    candidates of equal similarity appear in the order in which the pairwise
    comparison met them. *)
Theorem detectDuplicates_sorted_stable (threshold : Q) (weights : Weights)
    (useExactMatch useFuzzyTitle requireSameType : bool)
    (items : list Item) (records : list NormalizedItem) :
  normalizeAll items = Normal records →
  ∃ result,
    detectDuplicates threshold weights useExactMatch useFuzzyTitle
      requireSameType items = Normal result
    ∧ StronglySorted descending result
    ∧ compareAll threshold weights useExactMatch useFuzzyTitle requireSameType
        records
      = encounterOrder threshold weights useExactMatch useFuzzyTitle
          requireSameType records
    ∧ ∀ s, withSimilarity s result
           = withSimilarity s
               (encounterOrder threshold weights useExactMatch useFuzzyTitle
                  requireSameType records).
Proof.
  intros Hnorm. eexists. split; [by apply detectDuplicates_normal|].
  split; [apply sort_descending|].
  split; [apply compareAll_encounterOrder|]. intros s. apply sort_stable.
Qed.

(** C2. With [useExactMatch] enabled, every pair of records with identical
    non-empty normalised URLs, or identical non-empty normalised DOIs, gives
    a candidate of similarity exactly 1 in the result of [detectDuplicates],
    whatever the threshold, and whatever [requireSameType] and the item types
    are. *)
Theorem detectDuplicates_exact_match (threshold : Q) (weights : Weights)
    (useFuzzyTitle requireSameType : bool)
    (items : list Item) (records : list NormalizedItem)
    (i j : nat) (r1 r2 : NormalizedItem) :
  normalizeAll items = Normal records →
  records !! i = Some r1 → records !! j = Some r2 → i < j →
  (URL r1 ≠ "" ∧ URL r1 = URL r2) ∨ (DOI r1 ≠ "" ∧ DOI r1 = DOI r2) →
  ∃ result why,
    detectDuplicates threshold weights true useFuzzyTitle requireSameType items
      = Normal result
    ∧ mkDuplicate r1 r2 1%Q why ∈ result.
Proof.
  intros Hnorm Hi Hj Hij Hsame.
  destruct (candidates_exact threshold weights true useFuzzyTitle
              requireSameType r1 r2) as [why Hwhy]; [done| |].
  { rewrite !sameNonEmpty_spec. tauto. }
  eexists _, why. split; [by apply detectDuplicates_normal|].
  rewrite sort_perm. eapply encounterOrder_member; [exact Hi|exact Hj|done|].
  rewrite Hwhy. apply list_elem_of_here.
Qed.

(** C1, amended. If normalising a record raises an error,
    [detectDuplicates] ends with the error of the first such record and
    returns no candidates; every record is normalised before the first
    comparison. *)
Theorem detectDuplicates_propagates_error (threshold : Q) (weights : Weights)
    (useExactMatch useFuzzyTitle requireSameType : bool)
    (pre post : list Item) (bad : Item) (records : list NormalizedItem)
    (e : string) :
  Forall2 (λ x y, normalizeItemFields x = Normal y) pre records →
  normalizeItemFields bad = Throw e →
  detectDuplicates threshold weights useExactMatch useFuzzyTitle
    requireSameType (pre ++ bad :: post) = Throw e.
Proof.
  intros Hpre Hbad. unfold detectDuplicates.
  by rewrite (forEachPush_throw _ _ _ _ _ _ _ Hpre Hbad).
Qed.

Lemma exampleItems_normalize : normalizeAll exampleItems = Normal exampleRecords.
Proof. reflexivity. Qed.

Lemma detectDuplicates_sorted_stable_witness :
  normalizeAll exampleItems = Normal exampleRecords
  ∧ ∃ result,
      detectDuplicates (6 # 10) (normalizeWeights defaultWeights) true true false
        exampleItems = Normal result
      ∧ StronglySorted descending result
      ∧ compareAll (6 # 10) (normalizeWeights defaultWeights) true true false
          exampleRecords
        = encounterOrder (6 # 10) (normalizeWeights defaultWeights) true true
            false exampleRecords
      ∧ ∀ s, withSimilarity s result
             = withSimilarity s
                 (encounterOrder (6 # 10) (normalizeWeights defaultWeights) true
                    true false exampleRecords).
Proof.
  assert (H : normalizeAll exampleItems = Normal exampleRecords) by reflexivity.
  split; [exact H|].
  exact (detectDuplicates_sorted_stable (6 # 10) (normalizeWeights defaultWeights)
           true true false exampleItems exampleRecords H).
Defined.

Lemma detectDuplicates_exact_match_witness :
  (normalizeAll exampleItems = Normal exampleRecords
   ∧ exampleRecords !! 0 = Some articleRecord
   ∧ exampleRecords !! 1 = Some webpageRecord
   ∧ 0 < 1
   ∧ itemType articleRecord ≠ itemType webpageRecord
   ∧ DOI articleRecord ≠ "" ∧ DOI articleRecord = DOI webpageRecord)
  ∧ ∃ result why,
      detectDuplicates 1 (normalizeWeights defaultWeights) true true true
        exampleItems = Normal result
      ∧ mkDuplicate articleRecord webpageRecord 1%Q why ∈ result.
Proof.
  assert (H : normalizeAll exampleItems = Normal exampleRecords) by reflexivity.
  assert (H0 : exampleRecords !! 0 = Some articleRecord) by reflexivity.
  assert (H1 : exampleRecords !! 1 = Some webpageRecord) by reflexivity.
  assert (Hlt : 0 < 1) by lia.
  assert (Hty : itemType articleRecord ≠ itemType webpageRecord)
    by (vm_compute; discriminate).
  assert (Hdoi : DOI articleRecord ≠ "" ∧ DOI articleRecord = DOI webpageRecord)
    by (vm_compute; split; [discriminate | reflexivity]).
  split; [tauto|].
  exact (detectDuplicates_exact_match 1 (normalizeWeights defaultWeights) true
           true exampleItems exampleRecords 0 1 articleRecord webpageRecord
           H H0 H1 Hlt (or_intror Hdoi)).
Defined.

Lemma detectDuplicates_propagates_error_witness :
  Forall2 (λ x y, normalizeItemFields x = Normal y)
    [articleItem; webpageItem] [articleRecord; webpageRecord]
  ∧ normalizeItemFields brokenItem = Throw "Item data not loaded"
  ∧ detectDuplicates (6 # 10) (normalizeWeights defaultWeights) true true false
      ([articleItem; webpageItem] ++ brokenItem :: [preprintItem])
    = Throw "Item data not loaded".
Proof.
  assert (Hpre : Forall2 (λ x y, normalizeItemFields x = Normal y)
            [articleItem; webpageItem] [articleRecord; webpageRecord])
    by (repeat constructor).
  assert (Hbad : normalizeItemFields brokenItem = Throw "Item data not loaded")
    by reflexivity.
  split; [exact Hpre|]. split; [exact Hbad|].
  exact (detectDuplicates_propagates_error (6 # 10)
           (normalizeWeights defaultWeights) true true false
           [articleItem; webpageItem] [preprintItem] brokenItem
           [articleRecord; webpageRecord] "Item data not loaded" Hpre Hbad).
Defined.

(** C1 does not hold of the script: with two records that share a DOI
    followed by a record whose normalisation raises, the run ends with the
    error instead of returning the pair found among the records that
    normalise. *)
Lemma detectDuplicates_aborts_on_broken_record :
  normalizeItemFields brokenItem = Throw "Item data not loaded"
  ∧ exampleRun [articleItem; webpageItem; brokenItem]
    = Throw "Item data not loaded"
  ∧ (∃ d, exampleRun [articleItem; webpageItem] = Normal [d]
          ∧ item1 d = articleRecord ∧ item2 d = webpageRecord)
  ∧ ¬ skipsFailedRecords exampleRun [articleItem; webpageItem; brokenItem].
Proof.
  split; [reflexivity|]. split; [reflexivity|]. split.
  - eexists. split; [vm_compute; reflexivity|]. split; reflexivity.
  - intros [[result Hres] _]. vm_compute in Hres. discriminate.
Qed.

(** The article and its preprint differ in DOI and journal only: 74%. *)
Example article_preprint_score :
  (calculateSimilarity articleRecord preprintRecord
     (normalizeWeights defaultWeights) true false == 74 # 100)%Q.
Proof. vm_compute. reflexivity. Qed.

(* ------------------------------------------------------------------------- *)
(** ** The detector: what is reported, and what is not *)
(* ------------------------------------------------------------------------- *)

Lemma calculateSimilarity_range item1 item2 weights fz rs :
  (0 <= calculateSimilarity item1 item2 weights fz rs)%Q
  ∧ (calculateSimilarity item1 item2 weights fz rs <= 1)%Q.
Proof.
  rewrite calculateSimilarity_fold.
  destruct (typeVeto item1 item2 rs); [apply unit_range_0|].
  apply finalScore_range, accumulate_bounds;
    [apply fieldSimilarities_range | simpl; split; lra].
Qed.

Lemma normalizeItemFields_original item r :
  normalizeItemFields item = Normal r → originalItem r = item ∧ id r = item_id item.
Proof.
  unfold normalizeItemFields. intros H.
  repeat match type of H with
  | (mbind _ ?m = _) => destruct m; simpl in H; [|discriminate]
  | context [if ?b then _ else _] => destruct b
  end; by injection H as <-.
Qed.

Lemma normalizeAll_lookup items records i r :
  normalizeAll items = Normal records → records !! i = Some r →
  items !! i = Some (originalItem r).
Proof.
  rewrite normalizeAll_normal. intros H; revert i.
  induction H as [|x y xs ys Hx _ IH]; intros [|i] Hi; simplify_eq/=.
  - by destruct (normalizeItemFields_original _ _ Hx) as [-> _].
  - by apply IH.
Qed.

Lemma normalizeAll_length items records :
  normalizeAll items = Normal records → length records = length items.
Proof. rewrite normalizeAll_normal. intros H. symmetry. by eapply Forall2_length. Qed.

Section Reported.
Context (threshold : Q) (weights : Weights)
        (useExactMatch useFuzzyTitle requireSameType : bool).

Local Abbreviation score r1 r2 :=
  (calculateSimilarity r1 r2 weights useFuzzyTitle requireSameType).
Local Abbreviation candidates' :=
  (candidates threshold weights useExactMatch useFuzzyTitle requireSameType).
Local Abbreviation encounterOrder' :=
  (encounterOrder threshold weights useExactMatch useFuzzyTitle requireSameType).

Lemma candidates_fast_path r1 r2 :
  useExactMatch && exactIdentifiers r1 r2 = true →
  ∃ why, candidates' r1 r2 = [mkDuplicate r1 r2 1%Q why].
Proof.
  intros [-> H]%andb_true_iff. apply candidates_exact; [done|].
  by apply orb_true_iff.
Qed.

Lemma candidates_scored r1 r2 :
  useExactMatch && exactIdentifiers r1 r2 = false →
  candidates' r1 r2 =
    if Qle_bool threshold (score r1 r2)
    then [mkDuplicate r1 r2 (score r1 r2)
            ("Similarity: " +:+ JS.toFixed1 (score r1 r2 * 100)%Q +:+ "%"
               +:+ typesNote r1 r2)]
    else [].
Proof.
  unfold candidates, comparePair, checkExactIdentifierMatch, exactIdentifiers.
  destruct useExactMatch; simpl.
  - intros [-> ->]%orb_false_iff. simpl. by destruct (Qle_bool _ _).
  - intros _. by destruct (Qle_bool _ _).
Qed.

(** What a candidate of one comparison looks like. *)
Lemma candidates_inv r1 r2 d :
  d ∈ candidates' r1 r2 →
  item1 d = r1 ∧ item2 d = r2
  ∧ ((useExactMatch = true ∧ exactIdentifiers r1 r2 = true ∧ similarity d = 1%Q)
     ∨ (useExactMatch && exactIdentifiers r1 r2 = false
        ∧ similarity d = score r1 r2 ∧ (threshold <= similarity d)%Q)).
Proof.
  destruct (useExactMatch && exactIdentifiers r1 r2) eqn:E.
  - destruct (candidates_fast_path _ _ E) as [why ->].
    intros ->%list_elem_of_singleton. apply andb_true_iff in E as [-> ->].
    simpl. split; [done|]. split; [done|]. by left.
  - rewrite (candidates_scored _ _ E).
    destruct (Qle_bool threshold (score r1 r2)) eqn:Ht; [|by intros ?%elem_of_nil].
    intros ->%list_elem_of_singleton. apply Qle_bool_iff in Ht.
    simpl. split; [done|]. split; [done|]. by right.
Qed.

Lemma candidates_length r1 r2 : length (candidates' r1 r2) ≤ 1.
Proof.
  destruct (useExactMatch && exactIdentifiers r1 r2) eqn:E.
  - destruct (candidates_fast_path _ _ E) as [why ->]. simpl. lia.
  - rewrite (candidates_scored _ _ E). destruct (Qle_bool _ _); simpl; lia.
Qed.

Lemma encounterOrder_inv records d :
  d ∈ encounterOrder' records →
  ∃ i j r1 r2,
    i < j ∧ records !! i = Some r1 ∧ records !! j = Some r2
    ∧ d ∈ candidates' r1 r2.
Proof.
  induction records as [|x records IH]; simpl; [by intros ?%elem_of_nil|].
  intros [H|H]%elem_of_app.
  - apply list_elem_of_In, in_flat_map in H as (r2 & Hr2 & Hd).
    apply list_elem_of_In, list_elem_of_lookup in Hr2 as [j Hj].
    exists 0, (S j), x, r2. split; [lia|]. by rewrite <-list_elem_of_In in Hd.
  - destruct (IH H) as (i & j & r1 & r2 & ? & ? & ? & ?).
    exists (S i), (S j), r1, r2. split; [lia | done].
Qed.

Lemma encounterOrder_length records :
  2 * length (encounterOrder' records) ≤ length records * (length records - 1).
Proof.
  induction records as [|x records IH]; simpl; [lia|].
  rewrite length_app, Nat.sub_0_r.
  assert (length (flat_map (candidates' x) records) ≤ length records).
  { clear IH. induction records as [|y l IHl]; simpl; [lia|].
    rewrite length_app. pose proof (candidates_length x y). lia. }
  destruct (length records); simpl in *; lia.
Qed.

Lemma encounterOrder_all records :
  (∀ r1 r2, length (candidates' r1 r2) = 1) →
  2 * length (encounterOrder' records) = length records * (length records - 1).
Proof.
  intros Hone. induction records as [|x records IH]; simpl; [lia|].
  rewrite length_app, Nat.sub_0_r.
  assert (length (flat_map (candidates' x) records) = length records).
  { clear IH. induction records as [|y l IHl]; simpl; [lia|].
    rewrite length_app, Hone. lia. }
  destruct (length records); simpl in *; lia.
Qed.
End Reported.

(** X1. Every candidate that [detectDuplicates] returns carries, in
    [originalItem], two items of the input list, the first at an earlier
    position than the second. *)
Theorem detectDuplicates_original_items (threshold : Q) (weights : Weights)
    (useExactMatch useFuzzyTitle requireSameType : bool)
    (items : list Item) (result : list Duplicate) :
  detectDuplicates threshold weights useExactMatch useFuzzyTitle
    requireSameType items = Normal result →
  Forall (λ d, ∃ i j, i < j
                 ∧ items !! i = Some (originalItem (item1 d))
                 ∧ items !! j = Some (originalItem (item2 d))) result.
Proof.
  intros Hrun. destruct (normalizeAll items) as [records|e] eqn:Hnorm.
  2:{ unfold detectDuplicates, normalizeAll in *. by rewrite Hnorm in Hrun. }
  rewrite (detectDuplicates_normal _ _ _ _ _ _ _ Hnorm) in Hrun.
  injection Hrun as <-. apply Forall_forall. intros d Hd.
  rewrite sort_perm in Hd.
  apply encounterOrder_inv in Hd as (i & j & r1 & r2 & Hij & Hi & Hj & Hd).
  apply candidates_inv in Hd as (<- & <- & _).
  exists i, j. eauto using normalizeAll_lookup.
Qed.

Lemma detectDuplicates_original_items_witness :
  exampleRun exampleItems = Normal exampleResult
  ∧ Forall (λ d, ∃ i j, i < j
                   ∧ exampleItems !! i = Some (originalItem (item1 d))
                   ∧ exampleItems !! j = Some (originalItem (item2 d)))
      exampleResult.
Proof.
  assert (H : exampleRun exampleItems = Normal exampleResult) by reflexivity.
  split; [exact H|].
  exact (detectDuplicates_original_items (6 # 10)
           (normalizeWeights defaultWeights) true true false
           exampleItems exampleResult H).
Defined.

(** X2. When all records normalise, a pair of records at positions [i < j]
    is among the returned candidates exactly when the exact-identifier fast
    path applies to it or its score reaches the threshold; and every returned
    candidate has similarity 1 by the fast path, or its score, which is then
    at least the threshold. *)
Theorem detectDuplicates_reported (threshold : Q) (weights : Weights)
    (useExactMatch useFuzzyTitle requireSameType : bool)
    (items : list Item) (records : list NormalizedItem) :
  normalizeAll items = Normal records →
  ∃ result,
    detectDuplicates threshold weights useExactMatch useFuzzyTitle
      requireSameType items = Normal result
    ∧ (∀ i j r1 r2,
         i < j → records !! i = Some r1 → records !! j = Some r2 →
         ((∃ d, d ∈ result ∧ item1 d = r1 ∧ item2 d = r2)
          ↔ useExactMatch && exactIdentifiers r1 r2 = true
            ∨ (threshold <=
                 calculateSimilarity r1 r2 weights useFuzzyTitle
                   requireSameType)%Q))
    ∧ Forall (λ d,
        (useExactMatch && exactIdentifiers (item1 d) (item2 d) = true
         ∧ similarity d = 1%Q)
        ∨ (useExactMatch && exactIdentifiers (item1 d) (item2 d) = false
           ∧ similarity d
             = calculateSimilarity (item1 d) (item2 d) weights useFuzzyTitle
                 requireSameType
           ∧ (threshold <= similarity d)%Q)) result.
Proof.
  intros Hnorm. eexists. split; [by apply detectDuplicates_normal|]. split.
  - intros i j r1 r2 Hij Hi Hj. split.
    + intros (d & Hd & <- & <-). rewrite sort_perm in Hd.
      apply encounterOrder_inv in Hd as (? & ? & r1 & r2 & _ & _ & _ & Hd).
      apply candidates_inv in Hd as (-> & -> & [(-> & -> & _)|(_ & <- & ?)]);
        auto.
    + intros Hcond.
      assert (∃ d, d ∈ candidates threshold weights useExactMatch useFuzzyTitle
                         requireSameType r1 r2) as [d Hd].
      { destruct (useExactMatch && exactIdentifiers r1 r2) eqn:E.
        - destruct (candidates_fast_path threshold weights _ useFuzzyTitle
                      requireSameType _ _ E) as [why ->].
          eexists. apply list_elem_of_here.
        - rewrite (candidates_scored _ _ _ _ _ _ _ E).
          destruct Hcond as [|Ht%Qle_bool_iff]; [done|]. rewrite Ht.
          eexists. apply list_elem_of_here. }
      exists d. rewrite sort_perm.
      destruct (candidates_inv _ _ _ _ _ _ _ _ Hd) as (? & ? & _).
      eauto using encounterOrder_member.
  - apply Forall_forall. intros d Hd. rewrite sort_perm in Hd.
    apply encounterOrder_inv in Hd as (? & ? & r1 & r2 & _ & _ & _ & Hd).
    apply candidates_inv in Hd as (<- & <- & [(-> & -> & ?)|(? & ? & ?)]); auto.
Qed.

Lemma detectDuplicates_reported_witness :
  normalizeAll exampleItems = Normal exampleRecords
  ∧ ∃ result,
      detectDuplicates (6 # 10) (normalizeWeights defaultWeights) true true false
        exampleItems = Normal result
      ∧ (∀ i j r1 r2,
           i < j → exampleRecords !! i = Some r1 → exampleRecords !! j = Some r2 →
           ((∃ d, d ∈ result ∧ item1 d = r1 ∧ item2 d = r2)
            ↔ true && exactIdentifiers r1 r2 = true
              ∨ (6 # 10 <=
                   calculateSimilarity r1 r2 (normalizeWeights defaultWeights)
                     true false)%Q))
      ∧ Forall (λ d,
          (true && exactIdentifiers (item1 d) (item2 d) = true
           ∧ similarity d = 1%Q)
          ∨ (true && exactIdentifiers (item1 d) (item2 d) = false
             ∧ similarity d
               = calculateSimilarity (item1 d) (item2 d)
                   (normalizeWeights defaultWeights) true false
             ∧ (6 # 10 <= similarity d)%Q)) result.
Proof.
  assert (H : normalizeAll exampleItems = Normal exampleRecords) by reflexivity.
  split; [exact H|].
  exact (detectDuplicates_reported (6 # 10) (normalizeWeights defaultWeights)
           true true false exampleItems exampleRecords H).
Defined.

Lemma candidates_threshold_mono t1 t2 weights em fz rs r1 r2 d :
  (t1 <= t2)%Q →
  d ∈ candidates t2 weights em fz rs r1 r2 →
  d ∈ candidates t1 weights em fz rs r1 r2.
Proof.
  intros Ht. unfold candidates, comparePair.
  destruct em, (checkExactIdentifierMatch r1 r2); simpl; try done;
    (destruct (Qle_bool t2 _) eqn:E2; simpl; [|by intros ?%elem_of_nil];
     apply Qle_bool_iff in E2;
     assert (E1 : Qle_bool t1
                    (calculateSimilarity r1 r2 weights fz rs) = true)
       by (apply Qle_bool_iff; lra);
     by rewrite E1).
Qed.

Lemma typeVeto_score item1 item2 weights fz :
  itemType item1 ≠ itemType item2 →
  calculateSimilarity item1 item2 weights fz true = 0%Q.
Proof.
  intros Hne. rewrite calculateSimilarity_fold. unfold typeVeto.
  by destruct (String.eqb_spec (itemType item1) (itemType item2)).
Qed.

(** X3. For [n] input records that all normalise, [detectDuplicates]
    returns at most n(n-1)/2 candidates, none for fewer than two records,
    and exactly n(n-1)/2 when the threshold is not positive. *)
Theorem detectDuplicates_count (threshold : Q) (weights : Weights)
    (useExactMatch useFuzzyTitle requireSameType : bool)
    (items : list Item) (records : list NormalizedItem) :
  normalizeAll items = Normal records →
  ∃ result,
    detectDuplicates threshold weights useExactMatch useFuzzyTitle
      requireSameType items = Normal result
    ∧ length result ≤ length items * (length items - 1) / 2
    ∧ (length items < 2 → result = [])
    ∧ ((threshold <= 0)%Q →
       length result = length items * (length items - 1) / 2).
Proof.
  intros Hnorm. eexists. split; [by apply detectDuplicates_normal|].
  rewrite <-(normalizeAll_length _ _ Hnorm).
  pose proof (encounterOrder_length threshold weights useExactMatch
                useFuzzyTitle requireSameType records) as Hle.
  rewrite <-(Permutation_length (sort_perm bySimilarity _)) in Hle.
  split; [|split].
  - apply Nat.div_le_lower_bound; [done | exact Hle].
  - intros Hsmall. apply length_zero_iff_nil.
    destruct (length records) as [|[|?]]; simpl in *; lia.
  - intros Ht.
    rewrite (Permutation_length (sort_perm bySimilarity _)).
    apply Nat.div_unique_exact; [done|].
    symmetry. apply encounterOrder_all. intros r1 r2.
    destruct (useExactMatch && exactIdentifiers r1 r2) eqn:E.
    + by destruct (candidates_fast_path threshold weights _ useFuzzyTitle
                     requireSameType _ _ E) as [why ->].
    + rewrite (candidates_scored _ _ _ _ _ _ _ E).
      destruct (calculateSimilarity_range r1 r2 weights useFuzzyTitle
                  requireSameType) as [H0 _].
      assert (Hq : Qle_bool threshold
                     (calculateSimilarity r1 r2 weights useFuzzyTitle
                        requireSameType) = true)
        by (apply Qle_bool_iff; lra).
      by rewrite Hq.
Qed.

Lemma detectDuplicates_count_witness :
  normalizeAll exampleItems = Normal exampleRecords
  ∧ ∃ result,
      detectDuplicates 0 (normalizeWeights defaultWeights) true true false
        exampleItems = Normal result
      ∧ length result ≤ length exampleItems * (length exampleItems - 1) / 2
      ∧ (length exampleItems < 2 → result = [])
      ∧ ((0 <= 0)%Q →
         length result = length exampleItems * (length exampleItems - 1) / 2).
Proof.
  assert (H : normalizeAll exampleItems = Normal exampleRecords) by reflexivity.
  split; [exact H|].
  exact (detectDuplicates_count 0 (normalizeWeights defaultWeights) true true
           false exampleItems exampleRecords H).
Defined.

(** X4. Without the exact-identifier fast path, with [requireSameType] set
    and a positive threshold, [detectDuplicates] never returns a pair whose
    item types differ. *)
Theorem detectDuplicates_same_type_only (threshold : Q) (weights : Weights)
    (useFuzzyTitle : bool) (items : list Item) (result : list Duplicate) :
  (0 < threshold)%Q →
  detectDuplicates threshold weights false useFuzzyTitle true items
    = Normal result →
  Forall (λ d, itemType (item1 d) = itemType (item2 d)) result.
Proof.
  intros Hpos Hrun. destruct (normalizeAll items) as [records|e] eqn:Hnorm.
  2:{ unfold detectDuplicates, normalizeAll in *. by rewrite Hnorm in Hrun. }
  rewrite (detectDuplicates_normal _ _ _ _ _ _ _ Hnorm) in Hrun.
  injection Hrun as <-. apply Forall_forall. intros d Hd.
  rewrite sort_perm in Hd.
  apply encounterOrder_inv in Hd as (? & ? & r1 & r2 & _ & _ & _ & Hd).
  apply candidates_inv in Hd as (<- & <- & [(? & _)|(_ & Hs & Hle)]); [done|].
  destruct (decide (itemType (item1 d) = itemType (item2 d))) as [|Hne]; [done|].
  rewrite (typeVeto_score _ _ _ _ Hne) in Hs. rewrite Hs in Hle. lra.
Qed.

Lemma detectDuplicates_same_type_only_witness :
  (0 < 6 # 10)%Q
  ∧ detectDuplicates (6 # 10) (normalizeWeights defaultWeights) false true true
      exampleItems = Normal exampleStrictResult
  ∧ Forall (λ d, itemType (item1 d) = itemType (item2 d)) exampleStrictResult.
Proof.
  assert (Hpos : (0 < 6 # 10)%Q) by reflexivity.
  assert (Hrun : detectDuplicates (6 # 10) (normalizeWeights defaultWeights)
                   false true true exampleItems = Normal exampleStrictResult)
    by reflexivity.
  split; [exact Hpos|]. split; [exact Hrun|].
  exact (detectDuplicates_same_type_only (6 # 10)
           (normalizeWeights defaultWeights) true exampleItems
           exampleStrictResult Hpos Hrun).
Defined.

(** X5. Raising the threshold only removes candidates: with the other
    settings fixed, every candidate returned under the higher threshold is
    returned under the lower one. *)
Theorem detectDuplicates_threshold_monotone (t1 t2 : Q) (weights : Weights)
    (useExactMatch useFuzzyTitle requireSameType : bool)
    (items : list Item) (records : list NormalizedItem) :
  (t1 <= t2)%Q →
  normalizeAll items = Normal records →
  ∃ result1 result2,
    detectDuplicates t1 weights useExactMatch useFuzzyTitle requireSameType
      items = Normal result1
    ∧ detectDuplicates t2 weights useExactMatch useFuzzyTitle requireSameType
        items = Normal result2
    ∧ ∀ d, d ∈ result2 → d ∈ result1.
Proof.
  intros Ht Hnorm. eexists _, _.
  split; [by apply detectDuplicates_normal|].
  split; [by apply detectDuplicates_normal|].
  intros d. rewrite !sort_perm.
  intros (i & j & r1 & r2 & ? & ? & ? & Hd)%encounterOrder_inv.
  eauto using encounterOrder_member, candidates_threshold_mono.
Qed.

Lemma detectDuplicates_threshold_monotone_witness :
  (6 # 10 <= 8 # 10)%Q
  ∧ normalizeAll exampleItems = Normal exampleRecords
  ∧ ∃ result1 result2,
      detectDuplicates (6 # 10) (normalizeWeights defaultWeights) true true false
        exampleItems = Normal result1
      ∧ detectDuplicates (8 # 10) (normalizeWeights defaultWeights) true true
          false exampleItems = Normal result2
      ∧ ∀ d, d ∈ result2 → d ∈ result1.
Proof.
  assert (Ht : (6 # 10 <= 8 # 10)%Q) by (unfold Qle; simpl; lia).
  assert (H : normalizeAll exampleItems = Normal exampleRecords) by reflexivity.
  split; [exact Ht|]. split; [exact H|].
  exact (detectDuplicates_threshold_monotone (6 # 10) (8 # 10)
           (normalizeWeights defaultWeights) true true false
           exampleItems exampleRecords Ht H).
Defined.

(* ------------------------------------------------------------------------- *)
(** ** The score under the script's weights *)
(* ------------------------------------------------------------------------- *)

Lemma positive_proper x y : (x == y)%Q → positive x = positive y.
Proof. intros H. unfold positive. by rewrite H. Qed.

Lemma weight_scaled (weights : Weights) (t : Q) field :
  (weight ((λ w, (w / t)%Q) <$> weights) field == weight weights field / t)%Q.
Proof.
  unfold weight. rewrite lookup_fmap.
  destruct (weights !! field); simpl; [reflexivity|].
  unfold Qdiv. by rewrite Qmult_0_l.
Qed.

Lemma positive_scaled (weights : Weights) (t : Q) field :
  (0 < t)%Q →
  positive (weight ((λ w, (w / t)%Q) <$> weights) field)
  = positive (weight weights field).
Proof.
  intros Ht. rewrite (positive_proper _ _ (weight_scaled weights t field)).
  apply eq_true_iff_eq. rewrite !positive_spec. split; intros H.
  - apply (Qmult_lt_r _ _ (/ t)); [by apply Qinv_lt_0_compat|].
    by rewrite Qmult_0_l.
  - apply Qlt_shift_div_l; [done | by rewrite Qmult_0_l].
Qed.

Lemma accumulated_scaled (weights : Weights) (t : Q) sims :
  (0 < t)%Q →
  (accumulatedWeight ((λ w, (w / t)%Q) <$> weights) sims
     == accumulatedWeight weights sims / t)%Q
  ∧ (accumulatedSimilarity ((λ w, (w / t)%Q) <$> weights) sims
       == accumulatedSimilarity weights sims / t)%Q.
Proof.
  intros Ht. unfold accumulatedWeight, accumulatedSimilarity, activeFields.
  induction sims as [|[f x] sims [IH1 IH2]]; simpl.
  - unfold Qdiv. rewrite Qmult_0_l. by split.
  - rewrite positive_scaled by done.
    destruct (positive (weight weights f)); simpl; [|done].
    rewrite IH1, IH2, weight_scaled. unfold Qdiv. split; ring.
Qed.

Lemma calculateSimilarity_sums item1 item2 weights fz rs :
  let sims := fieldSimilarities item1 item2 fz rs in
  (calculateSimilarity item1 item2 weights fz rs ==
     if typeVeto item1 item2 rs then 0
     else if positive (accumulatedWeight weights sims)
          then accumulatedSimilarity weights sims / accumulatedWeight weights sims
          else 0)%Q.
Proof.
  cbv zeta. rewrite calculateSimilarity_fold.
  destruct (typeVeto item1 item2 rs); [reflexivity|].
  destruct (accumulate_fold weights (fieldSimilarities item1 item2 fz rs)
              (0%Q, 0%Q)) as [H1 H2].
  cbv zeta in H1, H2. destruct (foldl _ _ _) as [t c]; simpl in H1, H2.
  apply finalScore_proper; [rewrite H1 | rewrite H2]; ring.
Qed.

Lemma calculateSimilarity_scaled item1 item2 (weights : Weights) (t : Q) fz rs :
  (0 < t)%Q →
  (calculateSimilarity item1 item2 ((λ w, (w / t)%Q) <$> weights) fz rs
     == calculateSimilarity item1 item2 weights fz rs)%Q.
Proof.
  intros Ht. rewrite !calculateSimilarity_sums. cbv zeta.
  destruct (typeVeto item1 item2 rs); [reflexivity|].
  destruct (accumulated_scaled weights t (fieldSimilarities item1 item2 fz rs) Ht)
    as [HW HS].
  rewrite (positive_proper _ _ HW).
  assert (Hp : positive (accumulatedWeight weights
                           (fieldSimilarities item1 item2 fz rs) / t)
               = positive (accumulatedWeight weights
                             (fieldSimilarities item1 item2 fz rs))).
  { apply eq_true_iff_eq. rewrite !positive_spec. split; intros H.
    - apply (Qmult_lt_r _ _ (/ t)); [by apply Qinv_lt_0_compat|].
      by rewrite Qmult_0_l.
    - apply Qlt_shift_div_l; [done | by rewrite Qmult_0_l]. }
  rewrite Hp.
  destruct (positive (accumulatedWeight weights _)) eqn:HWpos; [|reflexivity].
  apply positive_spec in HWpos. rewrite HW, HS. field. split; lra.
Qed.

Lemma scriptWeights_values : weighsLikeScript scriptWeights.
Proof. unfold weighsLikeScript. vm_compute. repeat split; reflexivity. Qed.

(** The running sums once the weights are the script's: the seven weighted
    fields take part, the others do not. *)
Lemma scripted_sums weights item1 item2 fz rs :
  weighsLikeScript weights →
  let sims := fieldSimilarities item1 item2 fz rs in
  ∃ sURL sDOI sTitle sCreators sDate sPublisher sJournal,
    contentSimilarities item1 item2 fz
      = [("URL", sURL); ("DOI", sDOI); ("title", sTitle);
         ("creators", sCreators); ("date", sDate); ("publisher", sPublisher);
         ("journal", sJournal);
         ("shortTitle", jaccardSimilarity (shortTitle item1) (shortTitle item2));
         ("place", jaccardSimilarity (place item1) (place item2));
         ("ISBN", jaccardSimilarity (ISBN item1) (ISBN item2))]
    ∧ (accumulatedWeight weights sims == 1)%Q
    ∧ (accumulatedSimilarity weights sims
         == sURL * (25 # 100) + sDOI * (22 # 100) + sTitle * (20 # 100)
            + sCreators * (15 # 100) + sDate * (10 # 100)
            + sPublisher * (4 # 100) + sJournal * (4 # 100))%Q.
Proof.
  intros (HU & HD & HT & HC & HDa & HP & HJ & HS & HPl & HI & HIt). cbv zeta.
  eexists _, _, _, _, _, _, _. split; [reflexivity|].
  assert (Hpos : ∀ x c, (x == c)%Q → (0 < c)%Q → positive x = true).
  { intros x c H ?. rewrite (positive_proper _ _ H). by apply positive_spec. }
  assert (Hzero : ∀ x, (x == 0)%Q → positive x = false).
  { intros x H. by rewrite (positive_proper _ _ H). }
  unfold accumulatedWeight, accumulatedSimilarity, activeFields,
    fieldSimilarities, contentSimilarities.
  rewrite !List.filter_app. cbn [List.filter fst snd].
  rewrite (Hpos _ _ HU), (Hpos _ _ HD), (Hpos _ _ HT), (Hpos _ _ HC),
    (Hpos _ _ HDa), (Hpos _ _ HP), (Hpos _ _ HJ), (Hzero _ HS),
    (Hzero _ HPl), (Hzero _ HI) by reflexivity.
  assert (Htype : List.filter (λ p : string * Q, positive (weight weights p.1))
                    (if rs then [("itemType", 1%Q)] else []) = []).
  { destruct rs; [|done]. cbn [List.filter fst]. by rewrite (Hzero _ HIt). }
  rewrite Htype, app_nil_r. cbn [map Qsum foldr fst snd].
  rewrite HU, HD, HT, HC, HDa, HP, HJ. split; ring.
Qed.

(** X7. With the script's weights, a pair in which the first record has no
    DOI scores at most 0.78, whatever its other fields: an empty DOI never
    counts as a match. *)
Theorem calculateSimilarity_missing_DOI (item1 item2 : NormalizedItem)
    (useFuzzyTitle requireSameType : bool) :
  DOI item1 = "" →
  (calculateSimilarity item1 item2 scriptWeights useFuzzyTitle requireSameType
     <= 78 # 100)%Q.
Proof.
  intros Hdoi. rewrite calculateSimilarity_sums. cbv zeta.
  destruct (typeVeto item1 item2 requireSameType); [lra|].
  destruct (scripted_sums scriptWeights item1 item2 useFuzzyTitle
              requireSameType scriptWeights_values)
    as (sU & sD & sT & sC & sDa & sP & sJ & Hsims & HW & HS).
  cbv zeta in HW, HS. rewrite (positive_proper _ _ HW).
  change (positive 1) with true. cbv iota. rewrite HW, HS.
  pose proof (fieldSimilarities_range item1 item2 useFuzzyTitle false) as Hr.
  unfold fieldSimilarities in Hr. rewrite app_nil_r, Hsims in Hr.
  assert (HsD : sD = 0%Q).
  { unfold contentSimilarities in Hsims. rewrite Hdoi in Hsims.
    by injection Hsims as _ <- _. }
  repeat match goal with
  | H : Forall _ (_ :: _) |- _ => apply Forall_cons in H as [[? ?] H]
  end.
  simpl in *. subst sD. unfold Qdiv. rewrite Qinv_1 || change (/ 1)%Q with 1%Q.
  lra.
Qed.

Lemma calculateSimilarity_missing_DOI_witness :
  DOI preprintRecord = ""
  ∧ (calculateSimilarity preprintRecord articleRecord scriptWeights true false
       <= 78 # 100)%Q.
Proof.
  assert (H : DOI preprintRecord = "") by reflexivity.
  split; [exact H|].
  exact (calculateSimilarity_missing_DOI preprintRecord articleRecord true false H).
Defined.

(** X8. Two records whose compared fields are all empty score 0.78 under the
    script's weights, so that the comparison reports them as a candidate at
    the proposed threshold 0.6: a field that is empty on both sides counts
    as a full match, except the DOI. *)
Theorem blank_records_reported (r1 r2 : NormalizedItem)
    (useExactMatch useFuzzyTitle : bool) :
  blankRecord r1 → blankRecord r2 →
  (calculateSimilarity r1 r2 scriptWeights useFuzzyTitle false == 78 # 100)%Q
  ∧ ∃ d, comparePair (6 # 10) scriptWeights useExactMatch useFuzzyTitle false
           r1 r2 [] = [d]
         ∧ item1 d = r1 ∧ item2 d = r2.
Proof.
  destruct r1 as [i1 o1 ? ? ? ? ? ? ? ? ? ty1 ? ?],
           r2 as [i2 o2 ? ? ? ? ? ? ? ? ? ty2 ? ?].
  unfold blankRecord. simpl.
  intros (-> & -> & -> & -> & -> & -> & -> & -> & -> & -> & ->)
         (-> & -> & -> & -> & -> & -> & -> & -> & -> & -> & ->).
  split.
  - destruct useFuzzyTitle; vm_compute; reflexivity.
  - destruct useExactMatch, useFuzzyTitle; eexists;
      (split; [vm_compute; reflexivity | split; reflexivity]).
Qed.

Lemma blank_records_reported_witness :
  blankRecord blankNote ∧ blankRecord blankBook
  ∧ (calculateSimilarity blankNote blankBook scriptWeights true false
       == 78 # 100)%Q
  ∧ ∃ d, comparePair (6 # 10) scriptWeights true true false
           blankNote blankBook [] = [d]
         ∧ item1 d = blankNote ∧ item2 d = blankBook.
Proof.
  assert (H1 : blankRecord blankNote) by (repeat split).
  assert (H2 : blankRecord blankBook) by (repeat split).
  split; [exact H1|]. split; [exact H2|].
  exact (blank_records_reported blankNote blankBook true true H1 H2).
Defined.

(* ------------------------------------------------------------------------- *)
(** ** The similarity primitives as measures of difference *)
(* ------------------------------------------------------------------------- *)

Lemma edits_zero {A} (u v : list A) : edits u v 0 → u = v.
Proof.
  remember 0 as n eqn:E. induction 1; try discriminate; [done|].
  f_equal. auto.
Qed.

Lemma chars_inj a b : chars a = chars b → a = b.
Proof.
  intros H. rewrite <-(String.string_of_list_ascii_of_string a),
    <-(String.string_of_list_ascii_of_string b). unfold chars in H. by rewrite H.
Qed.

Lemma levenshteinDistance_zero a b : levenshteinDistance a b = 0 ↔ a = b.
Proof.
  destruct (levenshteinDistance_minEdits a b) as [He Hmin]. split.
  - intros H0. rewrite H0 in He. by apply chars_inj, edits_zero.
  - intros ->. pose proof (Hmin 0 (edits_refl _)). lia.
Qed.

Lemma levenshteinDistance_triangle a b c :
  levenshteinDistance a c ≤ levenshteinDistance a b + levenshteinDistance b c.
Proof.
  destruct (levenshteinDistance_minEdits a b) as [Hab _].
  destruct (levenshteinDistance_minEdits b c) as [Hbc _].
  destruct (levenshteinDistance_minEdits a c) as [_ Hmin].
  destruct (edits_trans _ _ _ _ _ Hab Hbc) as (n & Hn & He).
  apply Hmin in He. lia.
Qed.

(** X9. [levenshteinDistance] is a metric on strings: it is 0 exactly for
    equal strings, it is symmetric, and it obeys the triangle inequality;
    moreover it lies between the difference and the maximum of the two
    lengths. *)
Theorem levenshteinDistance_metric (a b c : string) :
  (levenshteinDistance a b = 0 ↔ a = b)
  ∧ levenshteinDistance a b = levenshteinDistance b a
  ∧ levenshteinDistance a c ≤ levenshteinDistance a b + levenshteinDistance b c
  ∧ JS.length a - JS.length b ≤ levenshteinDistance a b
  ∧ JS.length b - JS.length a ≤ levenshteinDistance a b
  ∧ levenshteinDistance a b ≤ JS.length a `max` JS.length b.
Proof.
  split; [apply levenshteinDistance_zero|].
  split; [apply levenshteinDistance_comm|].
  split; [apply levenshteinDistance_triangle|].
  destruct (levenshteinDistance_minEdits a b) as [He _].
  apply edits_length_diff in He. rewrite !length_chars in He.
  pose proof (levenshteinDistance_le_max a b). lia.
Qed.

Lemma num_zero k : (num k == 0)%Q → k = 0.
Proof. unfold num, Qeq. simpl. lia. Qed.

(** X10. [levenshteinSimilarity a b] is 1 exactly when the two strings are
    equal. *)
Theorem levenshteinSimilarity_one (a b : string) :
  (levenshteinSimilarity a b == 1)%Q ↔ a = b.
Proof.
  unfold levenshteinSimilarity.
  destruct a as [|x a], b as [|y b]; simpl negb; cbn [andb orb];
    [done | split; [intros H; by vm_compute in H | done]
          | split; [intros H; by vm_compute in H | done] |].
  set (s := String x a). set (t := String y b).
  destruct (Nat.eqb_spec (JS.length s `max` JS.length t) 0) as [H0|Hmax].
  { simpl in H0. lia. }
  pose proof (num_pos (JS.length s `max` JS.length t)) as Hpos.
  rewrite <-(levenshteinDistance_zero s t). split.
  - intros H.
    assert (Hz : (num (levenshteinDistance s t)
                    / num (JS.length s `max` JS.length t) == 0)%Q) by lra.
    apply num_zero. apply Qmult_integral_l with (/ num (JS.length s `max` JS.length t))%Q.
    + intros Hinv. assert (0 < / num (JS.length s `max` JS.length t))%Q
        by (apply Qinv_lt_0_compat, Hpos; lia). lra.
    + rewrite Qmult_comm. exact Hz.
  - intros ->. unfold Qdiv. change (num 0) with 0%Q. rewrite Qmult_0_l. lra.
Qed.

Lemma jaccardIndex_one X Y : (jaccardIndex X Y == 1)%Q ↔ X = Y.
Proof.
  unfold jaccardIndex. destruct (decide (X ∪ Y = ∅)) as [HE|HE].
  - split; [intros _|done]. apply empty_union_L in HE as [-> ->]. done.
  - assert (Hsub : X ∩ Y ⊆ X ∪ Y).
    { etrans; [apply intersection_subseteq_l | apply union_subseteq_l]. }
    assert (Hpos : 0 < size (X ∪ Y)).
    { rewrite <-size_zero_empty in HE. lia. }
    pose proof (num_pos _ Hpos) as HposQ. split.
    + intros H.
      assert (Heq : (num (size (X ∩ Y)) == num (size (X ∪ Y)))%Q).
      { rewrite <-(Qmult_1_l (num (size (X ∪ Y)))), <-H.
        unfold Qdiv. rewrite <-Qmult_assoc, (Qmult_comm (/ _)), Qmult_inv_r; lra. }
      assert (Hsz : size (X ∩ Y) = size (X ∪ Y)).
      { unfold num, Qeq in Heq. simpl in Heq. lia. }
      assert (HXY : X ∩ Y = X ∪ Y).
      { apply set_eq. intros x. split; [apply Hsub|]. intros Hx.
        destruct (decide (x ∈ X ∩ Y)) as [|Hnot]; [done|].
        assert (X ∩ Y ⊂ X ∪ Y) as Hstrict%subset_size; [|lia].
        split; [done|]. intros Hrev. apply Hnot, Hrev, Hx. }
      apply set_eq. intros x. split; intros Hx.
      * assert (x ∈ X ∩ Y) as ?%elem_of_intersection; [|tauto].
        rewrite HXY. apply elem_of_union. auto.
      * assert (x ∈ X ∩ Y) as ?%elem_of_intersection; [|tauto].
        rewrite HXY. apply elem_of_union. auto.
    + intros ->. rewrite (idemp_L (∩)). rewrite (idemp_L (∪)) in *.
      by apply num_ratio_self.
Qed.

(* ------------------------------------------------------------------------- *)
(** ** Strings *)
(* ------------------------------------------------------------------------- *)

Lemma append_cons a s t : String a s +:+ t = String a (s +:+ t).
Proof. reflexivity. Qed.

Lemma append_nil_l t : "" +:+ t = t.
Proof. reflexivity. Qed.

Ltac ssimpl := simpl; rewrite ?append_cons, ?append_nil_l; simpl.

Lemma append_nil_r s : s +:+ "" = s.
Proof. induction s; ssimpl; [done | by f_equal]. Qed.

Lemma append_assoc s t u : (s +:+ t) +:+ u = s +:+ (t +:+ u).
Proof. induction s; ssimpl; [done | by f_equal]. Qed.

Lemma rev_app_append s t : String.rev_app s t = String.rev s +:+ t.
Proof.
  unfold String.rev. revert t. induction s as [|a s IH]; intros t; ssimpl; [done|].
  rewrite IH, (IH (String a "")), append_assoc. done.
Qed.

Lemma rev_cons a s : String.rev (String a s) = String.rev s +:+ String a "".
Proof. unfold String.rev at 1. ssimpl. apply rev_app_append. Qed.

Lemma rev_append s t : String.rev (s +:+ t) = String.rev t +:+ String.rev s.
Proof.
  induction s as [|a s IH]; ssimpl.
  - by rewrite append_nil_r.
  - by rewrite !rev_cons, IH, append_assoc.
Qed.

Lemma rev_involutive s : String.rev (String.rev s) = s.
Proof.
  induction s as [|a s IH]; [done|]. by rewrite rev_cons, rev_append, IH.
Qed.

Lemma allChars_nil P : allChars P "".
Proof. constructor. Qed.

Lemma allChars_cons P c s : allChars P (String c s) ↔ P c ∧ allChars P s.
Proof. unfold allChars. ssimpl. apply Forall_cons. Qed.

Lemma allChars_append P s t : allChars P (s +:+ t) ↔ allChars P s ∧ allChars P t.
Proof.
  induction s as [|a s IH]; ssimpl.
  - split; [intros ?; split; [apply allChars_nil | done] | by intros [_ ?]].
  - rewrite !allChars_cons, IH. tauto.
Qed.

Lemma allChars_impl (P Q : ascii → Prop) s :
  (∀ c, P c → Q c) → allChars P s → allChars Q s.
Proof. intros H Hs. eapply Forall_impl; [exact Hs | exact H]. Qed.

Lemma mapChars_append f s t :
  JS.mapChars f (s +:+ t) = JS.mapChars f s +:+ JS.mapChars f t.
Proof. induction s; ssimpl; [done | by f_equal]. Qed.

Lemma mapChars_id f s : allChars (λ c, f c = c) s → JS.mapChars f s = s.
Proof.
  induction s as [|a s IH]; [done|]. rewrite allChars_cons. intros [Ha ?].
  ssimpl. rewrite Ha. f_equal. auto.
Qed.


Lemma mapChars_rev f s : JS.mapChars f (String.rev s) = String.rev (JS.mapChars f s).
Proof.
  induction s as [|a s IH]; [done|]. ssimpl.
  by rewrite !rev_cons, mapChars_append, IH.
Qed.

Lemma filterChars_id p s :
  allChars (λ c, p c = true) s → JS.filterChars p s = s.
Proof.
  induction s as [|a s IH]; [done|]. rewrite allChars_cons. intros [Ha ?].
  ssimpl. rewrite Ha. f_equal. auto.
Qed.

Lemma filterChars_allChars p s : allChars (λ c, p c = true) (JS.filterChars p s).
Proof.
  induction s as [|a s IH]; ssimpl; [apply allChars_nil|].
  destruct (p a) eqn:E; [|done]. by apply allChars_cons.
Qed.

(** What [dropWhile] leaves does not start with a dropped character, and is
    the input without a prefix of dropped characters. *)
Lemma dropWhile_spec p s :
  ∃ dropped,
    s = dropped +:+ JS.dropWhile p s
    ∧ allChars (λ c, p c = true) dropped
    ∧ match JS.dropWhile p s with
      | EmptyString => True
      | String c _ => p c = false
      end.
Proof.
  induction s as [|a s (d & Hs & Hd & Hhead)]; ssimpl.
  - exists "". split; [done|]. split; [apply allChars_nil | done].
  - destruct (p a) eqn:E.
    + exists (String a d). ssimpl. split; [by f_equal|].
      split; [by apply allChars_cons | done].
    + exists "". split; [done|]. split; [apply allChars_nil | done].
Qed.


Lemma span_all p a b :
  allChars (λ c, p c = true) a →
  match b with EmptyString => True | String c _ => p c = false end →
  JS.span p (a +:+ b) = (a, b).
Proof.
  intros Ha Hb. induction a as [|x a IH]; ssimpl.
  - destruct b as [|c b]; [done|]. ssimpl. by rewrite Hb.
  - apply allChars_cons in Ha as [-> Ha]. by rewrite IH.
Qed.

Lemma span_spec p s :
  allChars (λ c, p c = true) (JS.span p s).1
  ∧ s = (JS.span p s).1 +:+ (JS.span p s).2.
Proof.
  induction s as [|x s [IH1 IH2]]; ssimpl.
  - split; [apply allChars_nil | done].
  - destruct (p x) eqn:E; ssimpl.
    + destruct (JS.span p s) as [a b]. simpl in *.
      split; [by apply allChars_cons | rewrite append_cons; by f_equal].
    + split; [apply allChars_nil | done].
Qed.

Lemma length_append s t : JS.length (s +:+ t) = JS.length s + JS.length t.
Proof. induction s; ssimpl; [done | by f_equal]. Qed.

Lemma substring_all s : String.substring 0 (JS.length s) s = s.
Proof. induction s; ssimpl; [done | by f_equal]. Qed.

(* ------------------------------------------------------------------------- *)
(** ** Character classes *)
(* ------------------------------------------------------------------------- *)

Ltac each_char c := destruct c as [[] [] [] [] [] [] [] []]; vm_compute.

(** In a goal that matches [c] against a character literal, keep the case
    in which [c] is that literal. *)
Ltac literal_char c :=
  destruct c as [[] [] [] [] [] [] [] []]; try (intros; discriminate).

Lemma toLowerChar_idemp c : JS.toLowerChar (JS.toLowerChar c) = JS.toLowerChar c.
Proof. each_char c; reflexivity. Qed.

Lemma toLowerChar_space c : JS.isSpace (JS.toLowerChar c) = JS.isSpace c.
Proof. each_char c; reflexivity. Qed.

Lemma toLowerChar_digit c : JS.isDigit c = true → JS.toLowerChar c = c.
Proof. each_char c; intros H; first [reflexivity | discriminate H]. Qed.

Lemma toLowerChar_slash c : JS.toLowerChar c = "/"%char → c = "/"%char.
Proof. each_char c; intros H; first [reflexivity | discriminate H]. Qed.

Lemma isbn_char_kept c :
  JS.isDigit c || (JS.code c =? 88)%N || (JS.code c =? 120)%N = true →
  JS.isDigit (JS.toUpperChar c) = true ∨ JS.toUpperChar c = "X"%char.
Proof. each_char c; intros H; first [discriminate H | by left | by right]. Qed.

Lemma isbn_char_fixed c :
  JS.isDigit c = true ∨ c = "X"%char →
  JS.isDigit c || (JS.code c =? 88)%N || (JS.code c =? 120)%N = true
  ∧ JS.toUpperChar c = c.
Proof.
  each_char c; intros [H|H]; first [discriminate H | by split].
Qed.

(* ------------------------------------------------------------------------- *)
(** ** Identifier normalisation *)
(* ------------------------------------------------------------------------- *)

(** X12. [normalizeISBN] returns only digits and the capital letter X, and
    applying it to its own result changes nothing. *)
Theorem normalizeISBN_canonical (isbn : string) :
  allChars (λ c, JS.isDigit c = true ∨ c = "X"%char) (normalizeISBN isbn)
  ∧ normalizeISBN (normalizeISBN isbn) = normalizeISBN isbn.
Proof.
  assert (Hshape : allChars (λ c, JS.isDigit c = true ∨ c = "X"%char)
                     (normalizeISBN isbn)).
  { unfold normalizeISBN. destruct (JS.truthy isbn); simpl; [|apply allChars_nil].
    unfold JS.toUpperCase.
    pose proof (filterChars_allChars
      (λ c, JS.isDigit c || (JS.code c =? 88)%N || (JS.code c =? 120)%N) isbn)
      as Hkept.
    induction (JS.filterChars _ isbn) as [|c s IH]; simpl; [apply allChars_nil|].
    apply allChars_cons in Hkept as [Hc Hs]. apply allChars_cons.
    split; [by apply isbn_char_kept | auto]. }
  split; [done|]. revert Hshape. generalize (normalizeISBN isbn). intros t Ht.
  unfold normalizeISBN. destruct t as [|c t]; [done|]. simpl negb. cbv iota.
  rewrite filterChars_id.
  - apply mapChars_id. eapply allChars_impl; [|exact Ht].
    intros x Hx. by apply isbn_char_fixed.
  - eapply allChars_impl; [|exact Ht]. intros x Hx. by apply isbn_char_fixed.
Qed.

Lemma stripProtocol_https s : stripProtocol ("https://" +:+ s) = s.
Proof.
  unfold stripProtocol. cbv [String.append JS.length String.length]. cbn.
  replace (String.prefix "" s) with true by (by destruct s).
  rewrite Nat.sub_0_r. apply substring_all.
Qed.

Lemma stripProtocol_http s : stripProtocol ("http://" +:+ s) = s.
Proof.
  unfold stripProtocol. cbv [String.append JS.length String.length]. cbn.
  replace (String.prefix "" s) with true by (by destruct s).
  rewrite Nat.sub_0_r. apply substring_all.
Qed.

Lemma stripTrailingSlashes_slash s :
  stripTrailingSlashes (s +:+ "/") = stripTrailingSlashes s.
Proof. unfold stripTrailingSlashes. by rewrite rev_append. Qed.

Lemma stripTrailingSlashes_end s : notEndingWith "/" (stripTrailingSlashes s).
Proof.
  unfold stripTrailingSlashes. intros t Ht.
  apply (f_equal String.rev) in Ht. rewrite rev_involutive, rev_append in Ht.
  destruct (dropWhile_spec (λ c, (JS.code c =? 47)%N) (String.rev s))
    as (_ & _ & _ & Hhead).
  rewrite Ht in Hhead. by vm_compute in Hhead.
Qed.

(** X13. [normalizeURL] does not tell [http] from [https] and ignores
    slashes at the end: a URL with either prefix and any number of closing
    slashes has the normal form of the https URL without them; and the
    normal form never ends with a slash. *)
Theorem normalizeURL_insensitive (url rest : string) :
  normalizeURL ("http://" +:+ rest) = normalizeURL ("https://" +:+ rest)
  ∧ normalizeURL ("https://" +:+ rest +:+ "/") = normalizeURL ("https://" +:+ rest)
  ∧ normalizeURL ("http://" +:+ rest +:+ "/") = normalizeURL ("https://" +:+ rest)
  ∧ notEndingWith "/" (normalizeURL url).
Proof.
  assert (Hs : ∀ s, normalizeURL ("https://" +:+ s)
                    = JS.toLowerCase (stripTrailingSlashes s)).
  { intros s. unfold normalizeURL. by rewrite stripProtocol_https. }
  assert (Hp : ∀ s, normalizeURL ("http://" +:+ s)
                    = JS.toLowerCase (stripTrailingSlashes s)).
  { intros s. unfold normalizeURL. by rewrite stripProtocol_http. }
  split; [by rewrite Hs, Hp|].
  split; [by rewrite !Hs, stripTrailingSlashes_slash|].
  split; [by rewrite Hs, Hp, stripTrailingSlashes_slash|].
  unfold normalizeURL. destruct (JS.truthy url); simpl; [|by intros [|??]].
  intros t Ht. unfold JS.toLowerCase in Ht.
  pose proof (stripTrailingSlashes_end (stripProtocol url)) as Hend.
  apply (f_equal String.rev) in Ht. rewrite <-mapChars_rev, rev_append in Ht.
  destruct (String.rev (stripTrailingSlashes (stripProtocol url)))
    as [|c r] eqn:Hr; [discriminate Ht|].
  simpl in Ht. change (String.rev "/") with "/" in Ht.
  rewrite append_cons in Ht. injection Ht as Hc _.
  apply toLowerChar_slash in Hc as ->.
  apply (Hend (String.rev r)).
  by rewrite <-(rev_involutive (stripTrailingSlashes _)), Hr, rev_cons.
Qed.

Lemma matchDOIAt_shape s m : matchDOIAt s = Some m → doiShaped m.
Proof.
  unfold matchDOIAt.
  destruct s as [|c1 s]; [done|]. literal_char c1.
  destruct s as [|c2 s]; [done|]. literal_char c2.
  destruct s as [|c3 rest]; [done|]. literal_char c3.
  pose proof (span_spec JS.isDigit rest) as [Hds _].
  destruct (JS.span JS.isDigit rest) as [ds rest1]. simpl in Hds.
  destruct (Nat.leb_spec 4 (JS.length ds)) as [Hlen|]; [|done].
  destruct rest1 as [|c4 rest2]; [done|]. literal_char c4.
  pose proof (span_spec (λ c, negb (JS.isSpace c)) rest2) as [Htail _].
  destruct (JS.span _ rest2) as [tail leftover]. simpl in Htail.
  destruct (Nat.leb_spec 1 (JS.length tail)) as [Hlen'|]; [|done].
  intros [= <-]. exists ds, tail. split; [done|]. split; [done|]. split; [done|].
  split; [|done]. eapply allChars_impl; [|exact Htail].
  intros c Hc. by apply negb_true_iff in Hc.
Qed.

Lemma searchDOI_cons c s :
  searchDOI (String c s) =
    match matchDOIAt (String c s) with
    | Some m => Some m
    | None => searchDOI s
    end.
Proof. reflexivity. Qed.

Lemma searchDOI_shape s m : searchDOI s = Some m → doiShaped m.
Proof.
  induction s as [|c s IH]; [done|]. rewrite searchDOI_cons.
  destruct (matchDOIAt (String c s)) as [m'|] eqn:E; [|exact IH].
  intros [= <-]. by eapply matchDOIAt_shape.
Qed.

Lemma matchDOIAt_whole m : doiShaped m → matchDOIAt m = Some m.
Proof.
  intros (ds & tail & -> & Hds & Hlen & Htail & Hlen').
  change (matchDOIAt ("10." +:+ ds +:+ "/" +:+ tail))
    with (let '(ds', rest1) := JS.span JS.isDigit (ds +:+ "/" +:+ tail) in
          if 4 <=? JS.length ds' then
            match rest1 with
            | String "/" rest2 =>
                let '(tail', _) := JS.span (λ c, negb (JS.isSpace c)) rest2 in
                if 1 <=? JS.length tail'
                then Some ("10." +:+ ds' +:+ "/" +:+ tail')
                else None
            | _ => None
            end
          else None).
  rewrite (span_all JS.isDigit ds ("/" +:+ tail)) by done.
  apply Nat.leb_le in Hlen as ->.
  change ("/" +:+ tail) with (String "/" tail). cbv iota beta.
  rewrite <-(append_nil_r tail) at 1.
  rewrite (span_all (λ c, negb (JS.isSpace c)) tail "");
    [|eapply allChars_impl; [|exact Htail]; by intros c ->|done].
  by apply Nat.leb_le in Hlen' as ->.
Qed.

Lemma doiShaped_lower m : doiShaped m → doiShaped (JS.toLowerCase m).
Proof.
  intros (ds & tail & -> & Hds & Hlen & Htail & Hlen').
  exists ds, (JS.toLowerCase tail). unfold JS.toLowerCase.
  rewrite !mapChars_append.
  rewrite (mapChars_id _ ds)
    by (eapply allChars_impl; [|exact Hds]; apply toLowerChar_digit).
  split; [done|]. split; [done|]. split; [done|]. split.
  - clear Hlen'. induction tail as [|c tail IH]; simpl; [apply allChars_nil|].
    apply allChars_cons in Htail as [Hc Htail]. apply allChars_cons.
    split; [by rewrite toLowerChar_space | auto].
  - clear Htail. destruct tail; simpl in *; lia.
Qed.

Lemma toLowerCase_idemp s : JS.toLowerCase (JS.toLowerCase s) = JS.toLowerCase s.
Proof.
  unfold JS.toLowerCase. induction s as [|c s IH]; simpl; [done|].
  by rewrite toLowerChar_idemp, IH.
Qed.

(** X14. The result of [normalizeDOI] is empty or has the form of a DOI
    ([10.], four or more digits, a slash, a non-empty rest, no white space),
    and normalising it again changes nothing. *)
Theorem normalizeDOI_canonical (doi : string) :
  (normalizeDOI doi = "" ∨ doiShaped (normalizeDOI doi))
  ∧ normalizeDOI (normalizeDOI doi) = normalizeDOI doi.
Proof.
  assert (Hout : normalizeDOI doi = ""
                 ∨ (doiShaped (normalizeDOI doi)
                    ∧ JS.toLowerCase (normalizeDOI doi) = normalizeDOI doi)).
  { unfold normalizeDOI. destruct (JS.truthy doi); simpl; [|by left].
    destruct (searchDOI doi) as [m|] eqn:E; [|by left].
    right. split; [|apply toLowerCase_idemp].
    by eapply doiShaped_lower, searchDOI_shape. }
  split; [tauto|].
  destruct Hout as [->|[Hshape Hlower]]; [done|].
  revert Hshape Hlower. generalize (normalizeDOI doi). intros t Hshape Hlower.
  pose proof (matchDOIAt_whole _ Hshape) as Hwhole.
  unfold normalizeDOI.
  destruct t as [|c t]; [done|]. simpl negb. cbv iota.
  rewrite searchDOI_cons, Hwhole. exact Hlower.
Qed.

(* ------------------------------------------------------------------------- *)
(** ** Years and creators *)
(* ------------------------------------------------------------------------- *)

Lemma code_eq c n : (JS.code c =? n)%N = true → c = Ascii.ascii_of_N n.
Proof.
  intros H%N.eqb_eq. unfold JS.code in H. by rewrite <-H, ascii_N_embedding.
Qed.

Lemma matchYearAt_shape s y :
  matchYearAt s = Some y →
  yearShaped y ∧ ∃ after, s = y +:+ after ∧ noWordAhead after.
Proof.
  unfold matchYearAt. destruct s as [|c1 [|c2 [|c3 [|c4 rest]]]]; try done.
  destruct (_ && _ && _ && _) eqn:E; [|done]. intros [= <-].
  apply andb_true_iff in E as [E Hb]. apply andb_true_iff in E as [E H4].
  apply andb_true_iff in E as [Hc H3]. split.
  - exists c3, c4. split; [done|]. split; [done|].
    apply orb_true_iff in Hc as [Hc|Hc]; apply andb_true_iff in Hc as [H1 H2];
      apply code_eq in H1 as ->; apply code_eq in H2 as ->; auto.
  - exists rest. split; [done|]. destruct rest; [done|]. simpl.
    by apply negb_true_iff.
Qed.

Lemma searchYear_shape prevWord s y :
  searchYear prevWord s = Some y →
  yearShaped y
  ∧ ∃ before after,
      s = before +:+ y +:+ after ∧ noWordAhead after
      ∧ (before = "" → prevWord = false) ∧ noWordBehind before.
Proof.
  revert prevWord. induction s as [|c s IH]; intros prevWord; [done|].
  change (searchYear prevWord (String c s))
    with (match (if prevWord then None else matchYearAt (String c s)) with
          | Some y => Some y
          | None => searchYear (JS.isWord c) s
          end).
  destruct (if prevWord then None else matchYearAt (String c s)) as [y'|] eqn:E.
  - intros [= <-]. destruct prevWord; [done|].
    apply matchYearAt_shape in E as [Hy (after & Hs & Hafter)].
    split; [done|]. exists "", after. split; [done|]. split; [done|].
    split; [done|]. by intros [|??] ?.
  - intros (Hy & before & after & -> & Hafter & Hstart & Hbehind)%IH.
    split; [done|]. exists (String c before), after.
    split; [done|]. split; [done|]. split; [done|].
    intros [|x t] z; rewrite ?append_nil_l, ?append_cons; intros [= -> Ht].
    + by apply Hstart in Ht.
    + by apply (Hbehind t z).
Qed.

(** X15. [extractYear] returns the empty string or four characters of its
    input that read 19dd or 20dd and have no word character directly before
    or after them. *)
Theorem extractYear_shape (dateStr : string) :
  extractYear dateStr = ""
  ∨ (yearShaped (extractYear dateStr)
     ∧ ∃ before after,
         dateStr = before +:+ extractYear dateStr +:+ after
         ∧ noWordBehind before ∧ noWordAhead after).
Proof.
  unfold extractYear. destruct (JS.truthy dateStr); simpl; [|by left].
  destruct (searchYear false dateStr) as [y|] eqn:E; [|by left].
  apply searchYear_shape in E as (Hy & before & after & Hs & ? & _ & ?).
  right. split; [done|]. by exists before, after.
Qed.

Lemma insert_sorted_strings x l :
  StronglySorted String.le l →
  StronglySorted String.le (JS.insert_sorted String.leb x l).
Proof.
  induction 1 as [|y l Hl IH Hy]; simpl; [repeat constructor|].
  destruct (String.leb x y) eqn:E.
  - assert (Hxy : String.le x y) by (unfold String.le; by rewrite E).
    constructor; [by constructor|]. constructor; [done|].
    eapply Forall_impl; [exact Hy|]. intros z Hz. by etrans.
  - assert (Hyx : String.le y x).
    { destruct (total String.le x y) as [H|H]; [|done].
      unfold String.le in H. by rewrite E in H. }
    constructor; [done|]. rewrite (insert_sorted_perm String.leb x l).
    by constructor.
Qed.

Lemma sortStrings_sorted l : StronglySorted String.le (JS.sortStrings l).
Proof.
  unfold JS.sortStrings.
  induction l; simpl; [constructor | by apply insert_sorted_strings].
Qed.

Lemma sortStrings_permutation l1 l2 :
  Permutation l1 l2 → JS.sortStrings l1 = JS.sortStrings l2.
Proof.
  intros H. apply (StronglySorted_unique String.le);
    [apply sortStrings_sorted..|].
  unfold JS.sortStrings. by rewrite !sort_perm.
Qed.

Lemma normalizeCreators_names people :
  normalizeCreators people =
    JS.join " " (JS.sortStrings
      (filter (λ n, 0 < JS.length n) (map creatorName people))).
Proof. unfold normalizeCreators. by destruct people. Qed.

(** X16. The order in which an item lists its creators does not matter:
    two lists of creators that are permutations of each other have the same
    normal form; and a creator without any name is ignored. *)
Theorem normalizeCreators_order (people people' : list Creator) (c : Creator) :
  (Permutation people people' →
   normalizeCreators people = normalizeCreators people')
  ∧ (creatorName c = "" →
     normalizeCreators (c :: people) = normalizeCreators people).
Proof.
  rewrite !normalizeCreators_names. split.
  - intros H. f_equal. apply sortStrings_permutation.
    apply filter_Permutation. by apply Permutation_map.
  - intros Hc. simpl. rewrite filter_cons, Hc. done.
Qed.

Lemma normalizeCreators_order_witness :
  Permutation [mkCreator "Yann" "LeCun" ""; mkCreator "Yoshua" "Bengio" ""]
              [mkCreator "Yoshua" "Bengio" ""; mkCreator "Yann" "LeCun" ""]
  ∧ normalizeCreators
      [mkCreator "Yann" "LeCun" ""; mkCreator "Yoshua" "Bengio" ""]
    = normalizeCreators
        [mkCreator "Yoshua" "Bengio" ""; mkCreator "Yann" "LeCun" ""].
Proof.
  assert (H : Permutation
                [mkCreator "Yann" "LeCun" ""; mkCreator "Yoshua" "Bengio" ""]
                [mkCreator "Yoshua" "Bengio" ""; mkCreator "Yann" "LeCun" ""])
    by apply perm_swap.
  split; [exact H|].
  exact (proj1 (normalizeCreators_order _ _ (mkCreator "" "" "")) H).
Defined.

(* ------------------------------------------------------------------------- *)
(** ** Text normalisation *)
(* ------------------------------------------------------------------------- *)



Lemma singleSpaced_flag b b' s :
  (b' = true → b = true) → singleSpaced b s → singleSpaced b' s.
Proof.
  destruct s as [|c s]; [done|]. simpl. intros Hb [Hc Hs]. split; [|done].
  intros H. specialize (Hc H). destruct b'; [|done]. by rewrite Hb in Hc.
Qed.







Lemma trimEnd_spec s :
  ∃ dropped,
    s = JS.trimEnd s +:+ dropped
    ∧ ∀ t c, JS.trimEnd s = t +:+ String c "" → JS.isSpace c = false.
Proof.
  unfold JS.trimEnd.
  destruct (dropWhile_spec JS.isSpace (String.rev s)) as (d & Hs & _ & Hhead).
  exists (String.rev d). split.
  - rewrite <-rev_append, <-Hs. by rewrite rev_involutive.
  - intros t c Ht. apply (f_equal String.rev) in Ht.
    rewrite rev_involutive, rev_append in Ht. by rewrite Ht in Hhead.
Qed.





(* ------------------------------------------------------------------------- *)
(** ** Which accesses a record needs *)
(* ------------------------------------------------------------------------- *)

(** X18. [normalizeItemFields] returns a record exactly when the nine
    fields it always reads and the creators can be read, and, in case the
    publication title is empty, the journal abbreviation too; with a
    non-empty publication title the abbreviation is never read. *)
Theorem normalizeItemFields_returns (item : Item) :
  (∃ r, normalizeItemFields item = Normal r)
  ↔ (∀ field, field ∈ fieldsRead → ∃ v, getField item field = Normal v)
    ∧ (getField item "publicationTitle" = Normal "" →
       ∃ v, getField item "journalAbbreviation" = Normal v)
    ∧ (∃ people, getCreators item = Normal people).
Proof.
  unfold normalizeItemFields. split.
  - intros [r H].
    destruct (getField item "title") as [v1|] eqn:E1; simpl in H; [|done].
    destruct (getField item "shortTitle") as [v2|] eqn:E2; simpl in H; [|done].
    destruct (getField item "date") as [v3|] eqn:E3; simpl in H; [|done].
    destruct (getField item "publisher") as [v4|] eqn:E4; simpl in H; [|done].
    destruct (getField item "place") as [v5|] eqn:E5; simpl in H; [|done].
    destruct (getField item "publicationTitle") as [v6|] eqn:E6; simpl in H;
      [|done].
    assert (Hj : v6 = "" → ∃ v, getField item "journalAbbreviation" = Normal v).
    { intros ->. simpl in H.
      destruct (getField item "journalAbbreviation"); [eauto | done]. }
    assert (H' : ∃ v7 v8 v9 people,
              getField item "DOI" = Normal v7 ∧ getField item "ISBN" = Normal v8
              ∧ getField item "url" = Normal v9
              ∧ getCreators item = Normal people).
    { destruct (if JS.truthy v6 then _ else _); simpl in H; [|done].
      destruct (getField item "DOI"); simpl in H; [|done].
      destruct (getField item "ISBN"); simpl in H; [|done].
      destruct (getField item "url"); simpl in H; [|done].
      destruct (getCreators item); simpl in H; [|done]. by eexists _, _, _, _. }
    destruct H' as (v7 & v8 & v9 & people & E7 & E8 & E9 & Ec).
    split; [|split; [|by eauto]].
    + intros field Hf. unfold fieldsRead in Hf.
      repeat (apply elem_of_cons in Hf as [->|Hf]; [by eauto|]).
      by apply elem_of_nil in Hf.
    + intros [= ->]. by apply Hj.
  - intros (Hall & Hj & [people Ec]).
    assert (Hget : ∀ field, field ∈ fieldsRead →
                     ∃ v, getField item field = Normal v) by exact Hall.
    assert (Hin : ∀ field, In field fieldsRead → field ∈ fieldsRead)
      by (intros ?; apply list_elem_of_In).
    destruct (Hget "title") as [v1 E1]; [apply Hin; simpl; tauto|].
    destruct (Hget "shortTitle") as [v2 E2]; [apply Hin; simpl; tauto|].
    destruct (Hget "date") as [v3 E3]; [apply Hin; simpl; tauto|].
    destruct (Hget "publisher") as [v4 E4]; [apply Hin; simpl; tauto|].
    destruct (Hget "place") as [v5 E5]; [apply Hin; simpl; tauto|].
    destruct (Hget "publicationTitle") as [v6 E6]; [apply Hin; simpl; tauto|].
    destruct (Hget "DOI") as [v7 E7]; [apply Hin; simpl; tauto|].
    destruct (Hget "ISBN") as [v8 E8]; [apply Hin; simpl; tauto|].
    destruct (Hget "url") as [v9 E9]; [apply Hin; simpl; tauto|].
    rewrite E1, E2, E3, E4, E5, E6. simpl.
    destruct v6 as [|c v6]; simpl.
    + destruct (Hj E6) as [v Ej]. rewrite Ej. simpl.
      rewrite E7, E8, E9, Ec. simpl. by eexists.
    + rewrite E7, E8, E9, Ec. simpl. by eexists.
Qed.

(** The abbreviation of [noAbbreviationItem] cannot be read, and the item
    normalises all the same. *)
Example noAbbreviationItem_normalizes :
  getField noAbbreviationItem "journalAbbreviation" = Throw "Invalid field"
  ∧ ∃ r, normalizeItemFields noAbbreviationItem = Normal r
         ∧ journal r = "nature".
Proof. split; [reflexivity|]. eexists. split; reflexivity. Qed.

(* ------------------------------------------------------------------------- *)
(** ** Item retrieval *)
(* ------------------------------------------------------------------------- *)

Lemma Collection_ind (P : Collection → Prop) :
  (∀ getChildItems children,
     Forall P children → P (mkCollection getChildItems children)) →
  ∀ collection, P collection.
Proof.
  intros Hstep. fix IH 1. intros [getChildItems children]. apply Hstep.
  induction children as [|child children IHc]; constructor; [apply IH | exact IHc].
Qed.

Lemma uniqueById_app seen items items' :
  uniqueById seen (items ++ items') =
    uniqueById seen items
    ++ uniqueById (list_to_set (item_id <$> items) ∪ seen) items'.
Proof.
  revert seen. induction items as [|x items IH]; intros seen; simpl.
  - by rewrite (left_id_L ∅ (∪)).
  - destruct (decide (item_id x ∈ seen)) as [Hin|Hout]; rewrite IH.
    + f_equal. f_equal. apply set_eq. intros z.
      rewrite !elem_of_union, elem_of_singleton.
      split; [tauto | intros [[->|?]|?]; tauto].
    + simpl. f_equal. f_equal. f_equal. apply set_eq. intros z.
      rewrite !elem_of_union, elem_of_singleton. tauto.
Qed.

Lemma uniqueById_nested seen seen' items :
  uniqueById seen (uniqueById seen' items) = uniqueById (seen ∪ seen') items.
Proof.
  revert seen seen'. induction items as [|x items IH]; intros seen seen'; simpl;
    [done|].
  destruct (decide (item_id x ∈ seen')) as [Hin'|Hout'].
  - rewrite decide_True by (apply elem_of_union; auto). apply IH.
  - simpl. destruct (decide (item_id x ∈ seen)) as [Hin|Hout].
    + rewrite decide_True by (apply elem_of_union; auto). rewrite IH.
      f_equal. apply set_eq. intros z.
      rewrite !elem_of_union, elem_of_singleton.
      split; [intros [?|[->|?]]; tauto | tauto].
    + rewrite decide_False by (rewrite elem_of_union; tauto). rewrite IH.
      f_equal. f_equal. apply set_eq. intros z.
      rewrite !elem_of_union, elem_of_singleton. tauto.
Qed.

Lemma uniqueById_ids seen items :
  NoDup (item_id <$> uniqueById seen items)
  ∧ (∀ x, x ∈ uniqueById seen items → x ∈ items ∧ item_id x ∉ seen)
  ∧ (∀ x, x ∈ items → item_id x ∉ seen →
          item_id x ∈ item_id <$> uniqueById seen items).
Proof.
  revert seen. induction items as [|y items IH]; intros seen; simpl.
  - split; [constructor|]. split; intros x Hx; by apply elem_of_nil in Hx.
  - destruct (decide (item_id y ∈ seen)) as [Hin|Hout].
    + destruct (IH seen) as (Hnd & Hsub & Hall). split; [done|]. split.
      * intros x Hx. destruct (Hsub x Hx). split; [by right | done].
      * intros x [->|Hx]%elem_of_cons Hnot; [done | by apply Hall].
    + destruct (IH ({[item_id y]} ∪ seen)) as (Hnd & Hsub & Hall).
      split; [|split].
      * simpl. constructor; [|done].
        intros (x & Hid & Hx)%list_elem_of_fmap. destruct (Hsub x Hx) as [_ Hn].
        apply Hn. rewrite Hid. apply elem_of_union. left.
        by apply elem_of_singleton.
      * intros x [->|Hx]%elem_of_cons; [split; [by left | done]|].
        destruct (Hsub x Hx) as [? Hn]. split; [by right|].
        intros ?. apply Hn. apply elem_of_union. by right.
      * intros x Hx Hnot. simpl.
        destruct (decide (item_id x = item_id y)) as [->|Hne]; [by left|].
        right. apply elem_of_cons in Hx as [->|Hx]; [done|].
        apply Hall; [done|]. rewrite elem_of_union, elem_of_singleton. tauto.
Qed.

Lemma getCollectionItemsRecursive_flat collection result :
  getCollectionItemsRecursive collection = Normal result →
  result = uniqueById ∅ (treeItems collection).
Proof.
  revert result.
  induction collection as [getChildItems children IH] using Collection_ind.
  intros result. simpl.
  destruct getChildItems as [items|e]; simpl; [|done].
  assert (Hloop : ∀ acc out,
    (fix loop (children : list Collection) (items : list Item)
         : Completion (list Item) :=
       match children with
       | [] => Normal items
       | childCollection :: children' =>
           childItems ← getCollectionItemsRecursive childCollection;
           loop children' (items ++ childItems)
       end) children acc = Normal out →
    uniqueById ∅ out = uniqueById ∅ (acc ++ flat_map treeItems children)).
  { induction IH as [|child children Hchild _ IHloop]; intros acc out; simpl.
    - intros [= <-]. by rewrite app_nil_r.
    - destruct (getCollectionItemsRecursive child) as [childItems|] eqn:E;
        simpl; [|done].
      intros Hout%IHloop. rewrite Hout, (Hchild _ eq_refl).
      rewrite app_assoc, !(uniqueById_app _ (acc ++ _)).
      rewrite (uniqueById_app ∅ acc), (uniqueById_app ∅ acc (treeItems child)).
      rewrite <-!app_assoc. f_equal.
      rewrite uniqueById_nested, (right_id_L ∅ (∪)). f_equal.
      rewrite !fmap_app, !list_to_set_app_L. do 3 f_equal.
      apply set_eq. intros z. rewrite !elem_of_list_to_set, !list_elem_of_fmap.
      destruct (uniqueById_ids ∅ (treeItems child)) as (_ & Hsub & Hall).
      split.
      + intros (x & -> & Hx). exists x. split; [done|]. by apply Hsub.
      + intros (x & -> & Hx). apply list_elem_of_fmap.
        apply Hall; [done | apply not_elem_of_empty]. }
  destruct ((fix loop (children : list Collection) (items : list Item)
         : Completion (list Item) := _) children items) as [out|] eqn:E;
    simpl; [|done].
  intros [= <-]. by apply Hloop.
Qed.

(** X19. When [getCollectionItemsRecursive] returns, its result holds no
    two items with the same id, holds only items of the collection or of a
    collection below it, covers the id of every such item, and keeps for
    each id the first item met when a collection is read before its
    children. *)
Theorem getCollectionItemsRecursive_unique (collection : Collection)
    (result : list Item) :
  getCollectionItemsRecursive collection = Normal result →
  NoDup (item_id <$> result)
  ∧ (∀ item, item ∈ result → item ∈ treeItems collection)
  ∧ (∀ item, item ∈ treeItems collection → item_id item ∈ item_id <$> result)
  ∧ result = uniqueById ∅ (treeItems collection).
Proof.
  intros ->%getCollectionItemsRecursive_flat.
  destruct (uniqueById_ids ∅ (treeItems collection)) as (Hnd & Hsub & Hall).
  split; [done|]. split; [intros x Hx; by apply Hsub|].
  split; [|done]. intros x Hx. apply Hall; [done | apply not_elem_of_empty].
Qed.

Lemma getCollectionItemsRecursive_unique_witness :
  getCollectionItemsRecursive exampleCollection
    = Normal [articleItem; webpageItem; preprintItem]
  ∧ NoDup (item_id <$> [articleItem; webpageItem; preprintItem])
  ∧ (∀ item, item ∈ [articleItem; webpageItem; preprintItem] →
             item ∈ treeItems exampleCollection)
  ∧ (∀ item, item ∈ treeItems exampleCollection →
             item_id item ∈ item_id <$> [articleItem; webpageItem; preprintItem])
  ∧ [articleItem; webpageItem; preprintItem]
    = uniqueById ∅ (treeItems exampleCollection).
Proof.
  assert (H : getCollectionItemsRecursive exampleCollection
              = Normal [articleItem; webpageItem; preprintItem]) by reflexivity.
  split; [exact H|].
  exact (getCollectionItemsRecursive_unique exampleCollection
           [articleItem; webpageItem; preprintItem] H).
Defined.

(* ------------------------------------------------------------------------- *)
(** ** User preferences *)
(* ------------------------------------------------------------------------- *)

Lemma clampUnit_range x d :
  ∃ q, clampUnit (orNumber x d) = Finite q ∧ (0 <= q <= 1)%Q.
Proof.
  assert (Hq : ∀ z, (0 <= Qmax 0 (Qmin 1 z) <= 1)%Q).
  { intros z. split; [apply Q.le_max_l|].
    apply Q.max_lub; [lra | apply Q.le_min_l]. }
  destruct x as [|z| |]; simpl; [by eauto| |exists 1%Q; split; [done|lra]
                                 |exists 0%Q; split; [done|lra]].
  destruct (Qeq_bool z 0); eauto.
Qed.

Lemma clampUnit_inside q :
  (0 <= q <= 1)%Q → (Qmax 0 (Qmin 1 q) == q)%Q.
Proof.
  intros [H0 H1]. rewrite (Q.min_r 1 q) by done. by apply Q.max_r.
Qed.

Lemma clampUnit_outside q :
  negb (Qle_bool 0 q) || negb (Qle_bool q 1) = true →
  (q < 0 ∧ Qmax 0 (Qmin 1 q) == 0)%Q ∨ (1 < q ∧ Qmax 0 (Qmin 1 q) == 1)%Q.
Proof.
  intros H. apply orb_true_iff in H as [H|H]; apply negb_true_iff in H.
  - left. assert (Hlt : (q < 0)%Q).
    { apply Qnot_le_lt. intros Hle%Qle_bool_iff. congruence. }
    split; [done|]. rewrite (Q.min_r 1 q) by lra. apply Q.max_l. lra.
  - right. assert (Hlt : (1 < q)%Q).
    { apply Qnot_le_lt. intros Hle%Qle_bool_iff. congruence. }
    split; [done|]. rewrite (Q.min_l 1 q) by lra. apply Q.max_r. lra.
Qed.

Lemma outsideUnit_false q :
  negb (Qle_bool 0 q) || negb (Qle_bool q 1) = false → (0 <= q <= 1)%Q.
Proof.
  intros [H0 H1]%orb_false_iff. apply negb_false_iff in H0, H1.
  by split; apply Qle_bool_iff.
Qed.

(** X20. Whatever the user types and whatever [parseFloat] makes of it,
    [getUserPreferences] returns a threshold between 0 and 1; only a
    cancelled prompt gives no preferences.  An answer whose first part is
    not a number, or is zero, gives the threshold 0.6 without an alert, so
    that the threshold 0 cannot be entered.  When the alert that announces
    the default 0.6 is shown, the threshold returned is not 0.6 but 0 (for
    a negative number) or 1 (for a number above 1). *)
Theorem getUserPreferences_threshold
    (parseFloat : option string → JSNumber) (input : string) :
  getUserPreferences parseFloat None = ([], None)
  ∧ ∃ prefs q,
      (getUserPreferences parseFloat (Some input)).2 = Some prefs
      ∧ threshold prefs = Finite q
      ∧ (0 <= q <= 1)%Q
      ∧ let alerts := (getUserPreferences parseFloat (Some input)).1 in
        let part :=
          (λ s, JS.toLowerCase (JS.trim s)) <$> split "," (JS.trim input) in
        ((parseFloat (part !! 0%nat) = NaN
          ∨ (∃ z, parseFloat (part !! 0%nat) = Finite z ∧ z == 0)%Q) →
         (q == 6 # 10)%Q ∧ alerts = [])
        ∧ (alerts = []
           ∨ alerts = ["Invalid threshold. Using default 0.6"]
             ∧ ((q == 0)%Q ∨ (q == 1)%Q))
        ∧ ((q == 0)%Q → alerts ≠ []).
Proof.
  split; [done|]. unfold getUserPreferences.
  set (part := (λ s, JS.toLowerCase (JS.trim s)) <$> split "," (JS.trim input)).
  destruct (clampUnit_range (parseFloat (part !! 0%nat)) (6 # 10))
    as (q & Hq & Hrange).
  eexists _, q. split; [reflexivity|]. split; [exact Hq|]. split; [done|].
  cbv zeta. cbn [fst snd].
  destruct (parseFloat (part !! 0%nat)) as [|z| |] eqn:E; simpl in *.
  - injection Hq as <-. split; [intros _; split; [|done]|split; [by left|]].
    + by vm_compute.
    + intros Hz. exfalso. revert Hz. by vm_compute.
  - destruct (Qeq_bool z 0) eqn:Ez; simpl in *; injection Hq as <-.
    + split; [intros _; split; [by vm_compute|done]|split; [by left|]].
      intros Hz. exfalso. revert Hz. by vm_compute.
    + assert (Hz : ¬ (z == 0)%Q).
      { intros Hz%Qeq_bool_iff. congruence. }
      split; [intros [?|(z' & [= <-] & Hz')]; [done|contradiction]|].
      destruct (negb (Qle_bool 0 z) || negb (Qle_bool z 1)) eqn:Eo.
      * apply clampUnit_outside in Eo as [[_ H0]|[_ H1]];
          (split; [right; split; [done|tauto]|done]).
      * apply outsideUnit_false in Eo. split; [by left|].
        rewrite (clampUnit_inside _ Eo). contradiction.
  - injection Hq as <-. split; [intros [?|(z' & ? & _)]; done|].
    split; [right; split; [done|by right]|done].
  - injection Hq as <-. split; [intros [?|(z' & ? & _)]; done|].
    split; [right; split; [done|by left]|done].
Qed.

Lemma split_go_whole sep cur s :
  allChars (λ c, c ≠ sep) s → split_go sep cur s = [cur +:+ s].
Proof.
  revert cur. induction s as [|c s IH]; intros cur Hs; simpl.
  - by rewrite append_nil_r.
  - apply allChars_cons in Hs as [Hc Hs].
    destruct (Ascii.eqb_spec c sep) as [->|_]; [done|].
    rewrite IH by done. by rewrite append_assoc.
Qed.

Lemma trim_allChars P s : allChars P s → allChars P (JS.trim s).
Proof.
  intros Hs. unfold JS.trim, JS.trimStart.
  destruct (dropWhile_spec JS.isSpace s) as (d & Hd & _).
  rewrite Hd in Hs. apply allChars_append in Hs as [_ Hs].
  destruct (trimEnd_spec (JS.dropWhile JS.isSpace s)) as (d' & Hd' & _).
  rewrite Hd' in Hs. by apply allChars_append in Hs as [Hs _].
Qed.

(** X21. An answer without a comma, such as a bare number, leaves the three
    switches of [getUserPreferences] at their defaults: exact identifier
    matching on, fuzzy title matching on, same item type not required. *)
Theorem getUserPreferences_defaults
    (parseFloat : option string → JSNumber) (input : string) :
  allChars (λ c, c ≠ ","%char) input →
  ∃ prefs,
    (getUserPreferences parseFloat (Some input)).2 = Some prefs
    ∧ useExactMatch prefs = true
    ∧ useFuzzyTitle prefs = true
    ∧ requireSameType prefs = false.
Proof.
  intros Hs%(trim_allChars _ _). unfold getUserPreferences, split.
  rewrite (split_go_whole _ _ _ Hs). eexists. split; [reflexivity|]. done.
Qed.

Lemma getUserPreferences_defaults_witness :
  ∃ prefs,
    (getUserPreferences exampleParseFloat (Some " 0.85 ")).2 = Some prefs
    ∧ useExactMatch prefs = true
    ∧ useFuzzyTitle prefs = true
    ∧ requireSameType prefs = false.
Proof.
  apply (getUserPreferences_defaults exampleParseFloat " 0.85 ").
  repeat (apply allChars_cons; split; [discriminate|]). apply allChars_nil.
Defined.

(* ------------------------------------------------------------------------- *)
(** ** Duplicate handling: batch tagging *)
(* ------------------------------------------------------------------------- *)

Section Performs.
Context (library : list HostOp → HostOp → option string).

Lemma firstRaise_app log calls1 calls2 :
  firstRaise library log (calls1 ++ calls2) =
    match firstRaise library log calls1 with
    | Some r => Some r
    | None =>
        match firstRaise library (log ++ calls1) calls2 with
        | Some (made, e) => Some (calls1 ++ made, e)
        | None => None
        end
    end.
Proof.
  revert log. induction calls1 as [|op calls1 IH]; intros log; simpl.
  - rewrite app_nil_r. by destruct (firstRaise library log calls2) as [[]|].
  - destruct (library log op); [done|]. rewrite IH, <-app_assoc. simpl.
    destruct (firstRaise library (log ++ [op]) calls1) as [[]|]; [done|].
    by destruct (firstRaise library (log ++ op :: calls1) calls2) as [[]|].
Qed.

(** The first call that raises is the last one made; those before it did
    not raise. *)
Lemma firstRaise_Some log calls made e :
  firstRaise library log calls = Some (made, e) →
  ∃ before op after,
    made = before ++ [op]
    ∧ calls = before ++ op :: after
    ∧ library (log ++ before) op = Some e
    ∧ firstRaise library log before = None.
Proof.
  revert log made. induction calls as [|op calls IH]; intros log made; [done|].
  simpl. destruct (library log op) as [e'|] eqn:E.
  - intros [= <- <-]. exists [], op, calls. by rewrite app_nil_r.
  - destruct (firstRaise library (log ++ [op]) calls) as [[made' e']|] eqn:E';
      [|done].
    intros [= <- <-].
    destruct (IH _ _ E') as (before & op' & after & -> & -> & Hop & Hnone).
    exists (op :: before), op', after. rewrite <-app_assoc in Hop.
    split; [done|]. split; [done|]. split; [done|]. simpl. by rewrite E, Hnone.
Qed.

Lemma firstRaise_None log calls :
  firstRaise library log calls = None ↔
  ∀ before op after,
    calls = before ++ op :: after → library (log ++ before) op = None.
Proof.
  revert log. induction calls as [|op calls IH]; intros log; simpl.
  - split; [|done]. intros _ [|??] ?? [=].
  - split.
    + destruct (library log op) eqn:E; [done|].
      destruct (firstRaise library (log ++ [op]) calls) as [[]|] eqn:E';
        [done|].
      intros _ [|op' before] op'' after [= <- Hcalls].
      * subst. by rewrite app_nil_r.
      * pose proof (proj1 (IH _) E' before op'' after Hcalls) as H.
        by rewrite <-app_assoc in H.
    + intros H.
      pose proof (H [] op calls eq_refl) as H0. rewrite app_nil_r in H0.
      rewrite H0.
      assert (H1 : firstRaise library (log ++ [op]) calls = None).
      { apply IH. intros before op' after ->. rewrite <-app_assoc.
        by apply (H (op :: before) op' after). }
      by rewrite H1.
Qed.

Lemma performs_ret {A : Type} (a : A) :
  performs library (mret a) [] (λ a', a' = a).
Proof. intros log. simpl. exists a. by rewrite app_nil_r. Qed.

Lemma performs_call op : performs library (call library op) [op] (λ _, True).
Proof.
  intros log. unfold call. simpl. destruct (library log op); [done|].
  by exists tt.
Qed.

Lemma performs_bind {A B : Type} (m : Script A) (k : A → Script B)
    expected1 expected2 (post1 : A → Prop) (post2 : B → Prop) :
  performs library m expected1 post1 →
  (∀ a, post1 a → performs library (k a) expected2 post2) →
  performs library (m ≫= k) (expected1 ++ expected2) post2.
Proof.
  intros Hm Hk log. specialize (Hm log). rewrite firstRaise_app.
  unfold mbind, Script_bind.
  destruct (firstRaise library log expected1) as [[made e]|].
  - by rewrite Hm.
  - destruct Hm as (a & -> & Ha). specialize (Hk a Ha (log ++ expected1)).
    destruct (firstRaise library (log ++ expected1) expected2) as [[made e]|].
    + by rewrite Hk, app_assoc.
    + destruct Hk as (b & -> & Hb). exists b. by rewrite app_assoc.
Qed.

Lemma performs_post {A : Type} (m : Script A) expected (post post' : A → Prop) :
  performs library m expected post →
  (∀ a, post a → post' a) →
  performs library m expected post'.
Proof.
  intros Hm Himpl log. specialize (Hm log).
  destruct (firstRaise library log expected) as [[made e]|]; [done|].
  destruct Hm as (a & ? & ?). exists a. auto.
Qed.

Lemma tagOnce_performs tag original (seen : gset Z) :
  performs library (tagOnce library tag original seen)
    (tagCalls tag (uniqueById seen [original]))
    (λ taggedItems, taggedItems = {[item_id original]} ∪ seen).
Proof.
  unfold tagOnce. simpl.
  destruct (decide (item_id original ∈ seen)) as [Hin|Hout]; simpl.
  - eapply performs_post; [apply performs_ret|]. intros ? ->.
    apply set_eq. intros z. rewrite elem_of_union, elem_of_singleton.
    split; [tauto | intros [->|?]; tauto].
  - change [AddTag (item_id original) tag; SaveTx (item_id original)]
      with ([AddTag (item_id original) tag] ++ [SaveTx (item_id original)] ++ []).
    eapply performs_bind; [apply performs_call|]. intros _ _.
    eapply performs_bind; [apply performs_call|]. intros _ _.
    apply performs_ret.
Qed.

Lemma batchTagLoop_performs tag duplicates (seen : gset Z) :
  performs library (batchTagLoop library tag duplicates seen)
    (tagCalls tag (uniqueById seen (pairedItems duplicates)))
    (λ taggedItems,
       taggedItems
       = list_to_set (item_id <$> pairedItems duplicates) ∪ seen).
Proof.
  revert seen. induction duplicates as [|d rest IH]; intros seen.
  - eapply performs_post; [apply performs_ret|]. intros ? ->. simpl.
    by rewrite (left_id_L ∅ (∪)).
  - change (pairedItems (d :: rest))
      with ([originalItem (item1 d)] ++ [originalItem (item2 d)]
            ++ pairedItems rest).
    rewrite !uniqueById_app. unfold tagCalls. rewrite !flat_map_app.
    cbn [batchTagLoop].
    eapply performs_bind; [apply tagOnce_performs|]. intros t1 ->.
    eapply performs_bind.
    { replace (list_to_set (item_id <$> [originalItem (item1 d)]) ∪ seen)
        with ({[item_id (originalItem (item1 d))]} ∪ seen : gset Z)
        by (simpl; by rewrite (right_id_L ∅ (∪))).
      apply tagOnce_performs. }
    intros t2 ->.
    replace (list_to_set (item_id <$> [originalItem (item2 d)])
             ∪ (list_to_set (item_id <$> [originalItem (item1 d)]) ∪ seen))
      with ({[item_id (originalItem (item2 d))]}
            ∪ ({[item_id (originalItem (item1 d))]} ∪ seen) : gset Z)
      by (simpl; by rewrite !(right_id_L ∅ (∪))).
    eapply performs_post; [apply IH|]. intros ? ->.
    rewrite !fmap_app, !list_to_set_app_L. simpl.
    rewrite !(right_id_L ∅ (∪)).
    apply set_eq. intros z. rewrite !elem_of_union. tauto.
Qed.
End Performs.

Lemma tagCalls_no_trash tag items op :
  op ∈ tagCalls tag items → isTrash op = false.
Proof.
  unfold tagCalls. intros (item & _ & Hop)%list_elem_of_In%in_flat_map.
  simpl in Hop. by destruct Hop as [<-|[<-|[]]].
Qed.

Lemma tagged_size (duplicates : list Duplicate) :
  size (list_to_set (item_id <$> pairedItems duplicates) ∪ ∅ : gset Z)
  = length (uniqueById ∅ (pairedItems duplicates)).
Proof.
  destruct (uniqueById_ids ∅ (pairedItems duplicates)) as (Hnd & Hsub & Hall).
  rewrite (right_id_L ∅ (∪)).
  replace (list_to_set (item_id <$> pairedItems duplicates) : gset Z)
    with (list_to_set (item_id <$> uniqueById ∅ (pairedItems duplicates))
          : gset Z).
  - rewrite size_list_to_set by done. by rewrite length_fmap.
  - apply set_eq. intros z. rewrite !elem_of_list_to_set.
    rewrite !list_elem_of_fmap. split.
    + intros (x & -> & Hx). exists x. split; [done|]. by apply Hsub.
    + intros (x & -> & Hx). apply list_elem_of_fmap.
      apply Hall; [done | apply not_elem_of_empty].
Qed.

(** The run of [batchTagDuplicates], by the first call that raises. *)
Lemma batchTagDuplicates_run
    (library : list HostOp → HostOp → option string) (now : N)
    (duplicates : list Duplicate) (log : list HostOp) :
  let tag := "duplicate-check-" +:+ JS.digits (Z.of_N now) in
  let items := uniqueById ∅ (pairedItems duplicates) in
  match firstRaise library log (tagCalls tag items) with
  | Some (made, e) =>
      batchTagDuplicates library now duplicates log = (Throw e, log ++ made)
  | None =>
      batchTagDuplicates library now duplicates log
      = (Normal tt,
         log ++ tagCalls tag items ++ [Alert (batchReport (length items) tag)])
  end.
Proof.
  intros tag items. unfold batchTagDuplicates, mbind, Script_bind. fold tag.
  pose proof (batchTagLoop_performs library tag duplicates ∅ log) as Hloop.
  fold items in Hloop.
  destruct (firstRaise library log (tagCalls tag items)) as [[made e]|].
  - by rewrite Hloop.
  - destruct Hloop as (t & -> & ->). unfold alert.
    rewrite tagged_size. fold items. by rewrite app_assoc.
Qed.

(** X22. [batchTagDuplicates] calls [addTag] and then [saveTx] once on
    every item that occurs in a pair, an item being known by its id, in the
    order in which the items first appear in the list.  The first of these
    calls that raises ends the run: no call follows it, its error is the
    outcome of the run, and nothing is reported.  When none raises, the run
    completes with the report of the number of items tagged.  No item is
    sent to the trash. *)
Theorem batchTagDuplicates_tags_once
    (library : list HostOp → HostOp → option string) (now : N)
    (duplicates : list Duplicate) (log : list HostOp) :
  let tag := "duplicate-check-" +:+ JS.digits (Z.of_N now) in
  let items := uniqueById ∅ (pairedItems duplicates) in
  let calls := tagCalls tag items in
  let run := batchTagDuplicates library now duplicates log in
  NoDup (item_id <$> items)
  ∧ (∀ item, item ∈ pairedItems duplicates → item_id item ∈ item_id <$> items)
  ∧ ((∀ before op after,
        calls = before ++ op :: after → library (log ++ before) op = None) →
     run = (Normal tt,
            log ++ calls ++ [Alert (batchReport (length items) tag)]))
  ∧ (∀ before op after e,
       calls = before ++ op :: after →
       (∀ before' op' after',
          before = before' ++ op' :: after' →
          library (log ++ before') op' = None) →
       library (log ++ before) op = Some e →
       run = (Throw e, log ++ before ++ [op]))
  ∧ (∀ op, op ∈ calls → isTrash op = false).
Proof.
  intros tag items calls run.
  destruct (uniqueById_ids ∅ (pairedItems duplicates)) as (Hnd & _ & Hall).
  split; [done|].
  split; [intros item Hitem; apply Hall; [done | apply not_elem_of_empty]|].
  pose proof (batchTagDuplicates_run library now duplicates log) as Hrun.
  cbv zeta in Hrun. fold tag items calls run in Hrun.
  split; [|split].
  - intros Hcalm%firstRaise_None. by rewrite Hcalm in Hrun.
  - intros before op after e Hcalls Hbefore%firstRaise_None Hop.
    assert (Hfirst : firstRaise library log calls = Some (before ++ [op], e)).
    { rewrite Hcalls, firstRaise_app, Hbefore. simpl. by rewrite Hop. }
    by rewrite Hfirst in Hrun.
  - intros op Hop. by eapply tagCalls_no_trash.
Qed.

Lemma batchTagDuplicates_tags_once_witness :
  batchTagDuplicates
    (λ log op, if decide (op = SaveTx 2) then Some "locked" else None)
    17 exampleResult []
  = (Throw "locked",
     [AddTag 1 "duplicate-check-17"; SaveTx 1;
      AddTag 2 "duplicate-check-17"; SaveTx 2]).
Proof.
  pose proof (batchTagDuplicates_tags_once
    (λ log op, if decide (op = SaveTx 2) then Some "locked" else None)
    17 exampleResult []) as (_ & _ & _ & Hraise & _).
  apply (Hraise [AddTag 1 "duplicate-check-17"; SaveTx 1;
                 AddTag 2 "duplicate-check-17"]
           (SaveTx 2)
           [AddTag 3 "duplicate-check-17"; SaveTx 3] "locked").
  - reflexivity.
  - intros before' op' after' Hsplit.
    destruct (decide (op' = SaveTx 2)) as [->|]; [|done].
    exfalso.
    assert (Hin : SaveTx 2 ∈ [AddTag 1 "duplicate-check-17"; SaveTx 1;
                             AddTag 2 "duplicate-check-17"]).
    { rewrite Hsplit. apply elem_of_app. right. by left. }
    by repeat (apply elem_of_cons in Hin as [Hin|Hin]; [discriminate Hin|]);
      apply elem_of_nil in Hin.
  - reflexivity.
Defined.

(* ------------------------------------------------------------------------- *)
(** ** Duplicate handling: individual review *)
(* ------------------------------------------------------------------------- *)

Lemma countOps_app kind ops1 ops2 :
  countOps kind (ops1 ++ ops2) = countOps kind ops1 + countOps kind ops2.
Proof. unfold countOps. by rewrite List.filter_app, length_app. Qed.

Lemma countOps_le kind ops : countOps kind ops ≤ length ops.
Proof. apply List.filter_length_le. Qed.

Lemma trashOnRequest_no_trash total duplicates ops :
  (∀ op, op ∈ ops → isTrash op = false) → trashOnRequest total duplicates ops.
Proof.
  intros Hno k item Hk. apply list_elem_of_lookup_2, Hno in Hk. done.
Qed.

Lemma trashOnRequest_app total duplicates ops1 ops2 :
  trashOnRequest total duplicates ops1 →
  trashOnRequest total duplicates ops2 →
  trashOnRequest total duplicates (ops1 ++ ops2).
Proof.
  intros H1 H2 k item Hk. apply lookup_app_Some in Hk as [Hk|[Hlen Hk]].
  - destruct (H1 k item Hk) as (k' & p & d & a & -> & Hp & Hd & Ha).
    exists k', p, d, a. split; [done|]. split; [|done].
    by apply lookup_app_l_Some.
  - destruct (H2 _ item Hk) as (k' & p & d & a & Ek & Hp & Hd & Ha).
    exists (length ops1 + k'), p, d, a. split; [lia|]. split; [|done].
    rewrite lookup_app_r by lia.
    by replace (length ops1 + k' - length ops1) with k' by lia.
Qed.

Lemma trashOnRequest_mono total duplicates duplicates' ops :
  (∀ d, d ∈ duplicates → d ∈ duplicates') →
  trashOnRequest total duplicates ops →
  trashOnRequest total duplicates' ops.
Proof.
  intros Hsub H k item Hk. destruct (H k item Hk) as (k' & p & d & a & ? & ? & ? & ?).
  exists k', p, d, a. auto.
Qed.

Section Review.
Context (user : list HostOp → string → option string)
        (library : list HostOp → HostOp → option string).

Local Ltac host_calls :=
  repeat match goal with
         | |- context [library ?l ?op] =>
             let E := fresh "E" in destruct (library l op) eqn:E; simpl
         end.

Local Ltac settle :=
  repeat match goal with
         | |- _ ∧ _ => split
         | |- ∀ _, _ => intro
         end;
  try (simpl; lia);
  try match goal with
      | Hc : ∀ l op, library l op = None, E : library _ _ = Some _ |- _ =>
          rewrite Hc in E; discriminate E
      end;
  try match goal with
      | H : ?ops !! ?k = Some (TrashTx _) |- _ =>
          repeat (destruct k as [|k]; simpl in H; try discriminate H);
          try (injection H as <-); first [reflexivity | tauto]
      end.

(** The guarded [switch] of one reviewed pair. *)
Lemma review_switch (id1 id2 : Z) (tag choice : string) (tagged trashed skipped : nat)
    (log : list HostOp) :
  ∃ ops tagged' trashed' skipped',
    catch
      (if String.eqb choice "1" then
         call library (AddTag id1 tag);;
         call library (AddTag id2 tag);;
         call library (SaveTx id1);;
         call library (SaveTx id2);;
         mret (tagged + 2, trashed, skipped)
       else if String.eqb choice "2" then
         call library (TrashTx id2);;
         mret (tagged, S trashed, skipped)
       else if String.eqb choice "3" then
         call library (TrashTx id1);;
         mret (tagged, S trashed, skipped)
       else mret (tagged, trashed, S skipped))
      (λ error, mret (tagged, trashed, skipped)) log
    = (Normal (tagged', trashed', skipped'), log ++ ops)
    ∧ (∀ k item, ops !! k = Some (TrashTx item) →
         k = 0 ∧ ((choice = "2" ∧ item = id2) ∨ (choice = "3" ∧ item = id1)))
    ∧ countOps isPrompt ops = 0
    ∧ countOps isTrash ops ≤ 1
    ∧ tagged ≤ tagged' ≤ tagged + countOps isSave ops
    ∧ trashed ≤ trashed' ≤ trashed + countOps isTrash ops
    ∧ skipped ≤ skipped'
    ∧ (tagged' - tagged) + 2 * (trashed' - trashed) + 2 * (skipped' - skipped) ≤ 2
    ∧ ((∀ l op, library l op = None) →
       tagged' = tagged + countOps isSave ops
       ∧ trashed' = trashed + countOps isTrash ops).
Proof.
  unfold catch, call, mbind, Script_bind, mret, Script_ret.
  destruct (String.eqb_spec choice "1") as [->|H1];
    [|destruct (String.eqb_spec choice "2") as [->|H2];
      [|destruct (String.eqb_spec choice "3") as [->|H3]]];
    host_calls; rewrite <-?app_assoc; simpl;
    first [ eexists _, _, _, _; split; [reflexivity|]
          | exists []; eexists _, _, _; split; [by rewrite app_nil_r|] ];
    unfold countOps; simpl; settle.
Qed.
Lemma reviewLoop_run (timestamp : N) (total : nat) (duplicates : list Duplicate) :
  ∀ (processed tagged trashed skipped : nat) (log : list HostOp),
  ∃ ops processed' tagged' trashed' skipped',
    reviewLoop user library timestamp total duplicates
      processed tagged trashed skipped log
    = (Normal (processed', tagged', trashed', skipped'), log ++ ops)
    ∧ trashOnRequest total duplicates ops
    ∧ processed' = processed + countOps isPrompt ops
    ∧ countOps isPrompt ops ≤ length duplicates
    ∧ countOps isTrash ops ≤ countOps isPrompt ops
    ∧ tagged ≤ tagged' ≤ tagged + countOps isSave ops
    ∧ trashed ≤ trashed' ≤ trashed + countOps isTrash ops
    ∧ skipped ≤ skipped'
    ∧ (tagged' - tagged) + 2 * (trashed' - trashed) + 2 * (skipped' - skipped)
      ≤ 2 * (processed' - processed)
    ∧ ((∀ l op, library l op = None) →
       tagged' = tagged + countOps isSave ops
       ∧ trashed' = trashed + countOps isTrash ops).
Proof.
  induction duplicates as [|d rest IH]; intros processed tagged trashed skipped log.
  { exists [], processed, tagged, trashed, skipped. simpl. rewrite app_nil_r.
    split; [done|]. split; [by apply trashOnRequest_no_trash; intros ? ?%elem_of_nil|].
    unfold countOps. simpl. repeat split; lia. }
  cbn [reviewLoop]. unfold mbind at 1. unfold Script_bind at 1.
  unfold prompt at 1. cbv zeta.
  set (message := reviewPrompt (S processed) total d).
  destruct (user log message) as [action|] eqn:Eanswer.
  2:{ exists [Prompt message None], (S processed), tagged, trashed, skipped.
      unfold mret, Script_ret. split; [done|].
      split; [apply trashOnRequest_no_trash;
              by intros ? ->%list_elem_of_singleton|].
      unfold countOps. simpl. repeat split; lia. }
  destruct (String.eqb_spec (JS.trim action) "5") as [E5|N5].
  { exists [Prompt message (Some action)], (S processed), tagged, trashed, skipped.
    unfold mret, Script_ret. split; [done|].
    split; [apply trashOnRequest_no_trash;
            by intros ? ->%list_elem_of_singleton|].
    unfold countOps. simpl. repeat split; lia. }
  unfold mbind at 1. unfold Script_bind at 1.
  destruct (review_switch (item_id (originalItem (item1 d)))
              (item_id (originalItem (item2 d)))
              ("duplicate-pair-" +:+ JS.digits (Z.of_N timestamp))
              (JS.trim action) tagged trashed skipped
              (log ++ [Prompt message (Some action)]))
    as (ops1 & t1 & tr1 & s1 & Hrun1 & Htrash1 & Hp1 & Htr1 & Ht1 & Htrr1
        & Hs1 & Hsum1 & Hcalm1).
  rewrite Hrun1.
  destruct (IH (S processed) t1 tr1 s1
              ((log ++ [Prompt message (Some action)]) ++ ops1))
    as (ops2 & p2 & t2 & tr2 & s2 & Hrun2 & Hreq2 & Hp2 & Hlen2 & Htp2 & Ht2
        & Htrr2 & Hs2 & Hsum2 & Hcalm2).
  rewrite Hrun2.
  exists ((Prompt message (Some action) :: ops1) ++ ops2), p2, t2, tr2, s2.
  split; [by rewrite <-!app_assoc|].
  split.
  { apply trashOnRequest_app.
    - intros [|k] item Hk; [done|]. simpl in Hk.
      destruct (Htrash1 k item Hk) as [-> Hitem].
      exists 0, (S processed), d, action. split; [done|]. split; [done|].
      split; [by left | done].
    - eapply trashOnRequest_mono; [|exact Hreq2]. intros ? ?. by right. }
  rewrite !countOps_app.
  change (countOps isPrompt (Prompt message (Some action) :: ops1))
    with (S (countOps isPrompt ops1)).
  change (countOps isTrash (Prompt message (Some action) :: ops1))
    with (countOps isTrash ops1).
  change (countOps isSave (Prompt message (Some action) :: ops1))
    with (countOps isSave ops1).
  simpl length.
  split; [lia|]. split; [lia|]. split; [lia|]. split; [lia|].
  split; [lia|]. split; [lia|]. split; [lia|].
  intros Hcalm. destruct (Hcalm1 Hcalm), (Hcalm2 Hcalm). lia.
Qed.
End Review.

(** X23. [reviewDuplicatesIndividually] never raises, whatever the library
    calls do.  It sends an item to the trash only on request: every trash
    call directly follows the prompt of a pair of the list, answered with 2
    for the second item of that pair or with 3 for the first, so that at
    most one item is trashed for each pair shown.  The summary that ends
    the review counts the pairs shown (the one at which the user stopped
    included), never reports more tagged or trashed items than calls were
    made, and reports exactly the calls made when no call raised. *)
Theorem reviewDuplicatesIndividually_on_request
    (user : list HostOp → string → option string)
    (library : list HostOp → HostOp → option string) (now : N)
    (duplicates : list Duplicate) (log : list HostOp) :
  ∃ ops processed tagged trashed skipped,
    reviewDuplicatesIndividually user library now duplicates log
    = (Normal tt,
       log ++ ops ++ [Alert (reviewSummary processed tagged trashed skipped)])
    ∧ trashOnRequest (length duplicates) duplicates ops
    ∧ countOps isTrash ops ≤ countOps isPrompt ops
    ∧ processed = countOps isPrompt ops
    ∧ processed ≤ length duplicates
    ∧ tagged ≤ countOps isSave ops
    ∧ trashed ≤ countOps isTrash ops
    ∧ tagged + 2 * trashed + 2 * skipped ≤ 2 * processed
    ∧ ((∀ l op, library l op = None) →
       tagged = countOps isSave ops ∧ trashed = countOps isTrash ops).
Proof.
  unfold reviewDuplicatesIndividually, mbind, Script_bind.
  destruct (reviewLoop_run user library now (length duplicates) duplicates
              0 0 0 0 log)
    as (ops & p & t & tr & s & Hrun & Hreq & Hp & Hlen & Htp & Ht & Htr & Hs
        & Hsum & Hcalm).
  rewrite Hrun. exists ops, p, t, tr, s. unfold alert.
  split; [by rewrite app_assoc|]. split; [done|]. split; [done|].
  split; [lia|]. split; [lia|]. split; [lia|]. split; [lia|]. split; [lia|].
  intros H. destruct (Hcalm H). lia.
Qed.

(* ------------------------------------------------------------------------- *)
(** ** Duplicate handling: the choice of the mode *)
(* ------------------------------------------------------------------------- *)

Lemma batchTagDuplicates_no_trash
    (library : list HostOp → HostOp → option string) (now : N)
    (duplicates : list Duplicate) (log : list HostOp) :
  ∃ ops,
    (batchTagDuplicates library now duplicates log).2 = log ++ ops
    ∧ ∀ op, op ∈ ops → isTrash op = false.
Proof.
  pose proof (batchTagDuplicates_run library now duplicates log) as Hrun.
  cbv zeta in Hrun.
  set (tag := "duplicate-check-" +:+ JS.digits (Z.of_N now)) in *.
  set (items := uniqueById ∅ (pairedItems duplicates)) in *.
  destruct (firstRaise library log (tagCalls tag items)) as [[made e]|] eqn:E.
  - exists made. rewrite Hrun. split; [done|].
    apply firstRaise_Some in E as (before & op' & after & -> & Hcalls & _).
    intros op Hop. apply (tagCalls_no_trash tag items). rewrite Hcalls.
    apply elem_of_app in Hop as [Hop|Hop%list_elem_of_singleton].
    + apply elem_of_app. by left.
    + subst op. apply elem_of_app. right. by left.
  - eexists. rewrite Hrun. split; [reflexivity|].
    intros op [Hop|Hop%list_elem_of_singleton]%elem_of_app;
      [by eapply tagCalls_no_trash | by subst op].
Qed.

Lemma reviewDuplicatesIndividually_requests
    (user : list HostOp → string → option string)
    (library : list HostOp → HostOp → option string) (now : N)
    (duplicates : list Duplicate) (log : list HostOp) :
  ∃ ops,
    reviewDuplicatesIndividually user library now duplicates log
    = (Normal tt, log ++ ops)
    ∧ trashOnRequest (length duplicates) duplicates ops.
Proof.
  unfold reviewDuplicatesIndividually, mbind, Script_bind.
  destruct (reviewLoop_run user library now (length duplicates) duplicates
              0 0 0 0 log)
    as (ops & p & t & tr & s & Hrun & Hreq & _).
  rewrite Hrun. unfold alert. eexists (ops ++ [Alert _]).
  split; [by rewrite app_assoc|].
  apply trashOnRequest_app; [done|].
  apply trashOnRequest_no_trash. by intros ? ->%list_elem_of_singleton.
Qed.


(** X24. [handleDetectedDuplicates] only shows an alert when the list is
    empty.  Otherwise it asks once: when the prompt is cancelled, or the
    answer is 3, the library is left as it is; when the answer is 2 (batch
    tagging) no item is sent to the trash; with every other answer the run
    completes without raising.  In all cases an item is sent to the trash
    only on the request made for its pair in the individual review. *)
Theorem handleDetectedDuplicates_modes
    (user : list HostOp → string → option string)
    (library : list HostOp → HostOp → option string) (now : N)
    (duplicates : list Duplicate) (log : list HostOp) :
  let run := handleDetectedDuplicates user library now duplicates log in
  let answer := user log (handlingPrompt (length duplicates)) in
  (duplicates = [] → run = (Normal tt, log ++ [Alert "No duplicates found."]))
  ∧ ∃ ops,
      run.2 = log ++ ops
      ∧ trashOnRequest (length duplicates) duplicates ops
      ∧ (duplicates ≠ [] →
         (answer = None →
          run.1 = Normal tt
          ∧ ops = [Prompt (handlingPrompt (length duplicates)) None])
         ∧ (∀ choice, answer = Some choice →
              (JS.trim choice = "3" →
               run.1 = Normal tt ∧ ∀ op, op ∈ ops → changesLibrary op = false)
              ∧ (JS.trim choice = "2" → ∀ op, op ∈ ops → isTrash op = false)
              ∧ (JS.trim choice ≠ "2" → run.1 = Normal tt))).
Proof.
  intros run answer. split; [by intros ->|].
  destruct duplicates as [|d rest].
  { exists [Alert "No duplicates found."]. split; [done|].
    split; [apply trashOnRequest_no_trash; by intros ? ->%list_elem_of_singleton|].
    done. }
  set (duplicates := d :: rest) in *.
  assert (Hrun : run =
    match answer with
    | Some batchChoice =>
        if String.eqb (JS.trim batchChoice) "2"
        then batchTagDuplicates library now duplicates
        else if String.eqb (JS.trim batchChoice) "3"
             then showDuplicateSummary duplicates
             else reviewDuplicatesIndividually user library now duplicates
    | None => mret tt
    end (log ++ [Prompt (handlingPrompt (length duplicates)) answer]))
    by reflexivity.
  clearbody run answer. subst run.
  assert (Hasked : ∀ op ops, isTrash op = false →
            trashOnRequest (length duplicates) duplicates ops →
            trashOnRequest (length duplicates) duplicates (op :: ops)).
  { intros op ops Hop Hops. apply (trashOnRequest_app _ _ [op]); [|done].
    apply trashOnRequest_no_trash. by intros ? ->%list_elem_of_singleton. }
  destruct answer as [choice|].
  2:{ eexists [_]. split; [reflexivity|].
      split; [apply trashOnRequest_no_trash;
              by intros ? ->%list_elem_of_singleton|].
      intros _. split; [done|]. intros choice [=]. }
  set (asked := Prompt (handlingPrompt (length duplicates)) (Some choice)).
  destruct (String.eqb_spec (JS.trim choice) "2") as [E2|N2].
  { destruct (batchTagDuplicates_no_trash library now duplicates (log ++ [asked]))
      as (ops & Hlog & Hno).
    exists (asked :: ops). rewrite Hlog, <-app_assoc. split; [done|].
    split; [by apply Hasked, trashOnRequest_no_trash|].
    intros _. split; [done|]. intros ? [= <-].
    split; [by rewrite E2|]. split; [|done].
    intros _ op [->|Hop]%elem_of_cons; [done | by apply Hno]. }
  destruct (String.eqb_spec (JS.trim choice) "3") as [E3|N3].
  { unfold showDuplicateSummary, alert. cbn [fst snd].
    eexists [asked; Alert _]. rewrite <-app_assoc. split; [reflexivity|].
    split.
    - apply trashOnRequest_no_trash.
      intros op [->|[->|[]%elem_of_nil]%elem_of_cons]%elem_of_cons; done.
    - intros _. split; [done|]. intros ? [= <-]. split; [|done].
      intros _. split; [done|].
      intros op [->|[->|[]%elem_of_nil]%elem_of_cons]%elem_of_cons; done. }
  destruct (reviewDuplicatesIndividually_requests user library now duplicates
              (log ++ [asked]))
    as (ops & Hrun & Hreq).
  rewrite Hrun. exists (asked :: ops). cbn [fst snd]. rewrite <-app_assoc.
  split; [done|]. split; [by apply Hasked|].
  intros _. split; [done|]. intros ? [= <-]. done.
Qed.

(* ------------------------------------------------------------------------- *)
(** ** Tokens *)
(* ------------------------------------------------------------------------- *)

Ltac ssimpl_in H :=
  simpl in H; rewrite ?append_cons, ?append_nil_l in H; simpl in H.

Lemma append_eq_append x y u v :
  x +:+ y = u +:+ v →
  (∃ t, u = x +:+ t ∧ y = t +:+ v) ∨ (∃ t, x = u +:+ t ∧ v = t +:+ y).
Proof.
  revert u. induction x as [|a x IH]; intros u; ssimpl.
  - intros ->. left. by exists u.
  - destruct u as [|b u]; ssimpl.
    + intros <-. right. by exists (String a x).
    + intros [= <- H]. destruct (IH u H) as [(t & -> & ->)|(t & -> & ->)].
      * left. by exists t.
      * right. by exists t.
Qed.

Lemma snoc_inj x y a b :
  x +:+ String a "" = y +:+ String b "" → x = y ∧ a = b.
Proof.
  intros H%(f_equal String.rev). rewrite !rev_append in H.
  change (String.rev (String a "")) with (String a "") in H.
  change (String.rev (String b "")) with (String b "") in H.
  ssimpl_in H. injection H as -> H%(f_equal String.rev).
  by rewrite !rev_involutive in H.
Qed.

Lemma snoc_exists c s : ∃ t d, String c s = t +:+ String d "".
Proof.
  revert c. induction s as [|a s IH]; intros c.
  - by exists "", c.
  - destruct (IH a) as (t & d & ->). by exists (String c t), d.
Qed.

Lemma spaceless_before cur before rest :
  allChars (λ c, JS.isSpace c = false) cur →
  cur = before +:+ rest →
  before = "" ∨ (∃ b c, before = b +:+ String c "" ∧ JS.isSpace c = true) →
  before = "".
Proof.
  intros Hcur -> [->|(b & c & -> & Hc)]; [done|].
  apply allChars_append in Hcur as [Hcur _].
  apply allChars_append in Hcur as [_ Hcur].
  apply allChars_cons in Hcur as [Hcur _]. congruence.
Qed.

Lemma token_whole cur w :
  allChars (λ c, JS.isSpace c = false) cur →
  isToken cur w ↔ w = cur ∧ cur ≠ "".
Proof.
  intros Hcur. split.
  - intros (Hne & Hw & before & after & Heq & Hb & Ha).
    pose proof (spaceless_before _ _ _ Hcur Heq Hb) as ->. ssimpl_in Heq.
    destruct Ha as [->|(c & a & -> & Hc)].
    + rewrite append_nil_r in Heq. by subst.
    + rewrite Heq in Hcur. apply allChars_append in Hcur as [_ Hcur].
      apply allChars_cons in Hcur as [Hcur _]. congruence.
  - intros [-> Hne]. split; [done|]. split; [done|]. exists "", "".
    ssimpl. rewrite append_nil_r. auto.
Qed.

Lemma token_after_space cur c s w :
  allChars (λ c, JS.isSpace c = false) cur →
  JS.isSpace c = true →
  isToken (cur +:+ String c s) w ↔ (w = cur ∧ cur ≠ "") ∨ isToken s w.
Proof.
  intros Hcur Hc. split.
  - intros (Hne & Hw & before & after & Heq & Hb & Ha).
    apply append_eq_append in Heq as [(t & Hbefore & Hrest)|(t & Hcut & Hrest)].
    + destruct t as [|c0 t]; ssimpl_in Hrest.
      { destruct w as [|c1 w]; [done|]. ssimpl_in Hrest.
        injection Hrest as <- _. apply allChars_cons in Hw as [Hw _].
        congruence. }
      injection Hrest as <- ->. right. split; [done|]. split; [done|].
      exists t, after. split; [done|]. split; [|done].
      destruct t as [|c2 t]; [by left|]. right.
      destruct (snoc_exists c2 t) as (t' & d & Ht). rewrite Ht in *.
      exists t', d. split; [done|].
      destruct Hb as [->|(b & c3 & -> & Hc3)].
      { destruct cur; ssimpl_in Hbefore; discriminate Hbefore. }
      change (String c (t' +:+ String d "")) with (String c t' +:+ String d "")
        in Hbefore.
      rewrite <-append_assoc in Hbefore.
      by apply snoc_inj in Hbefore as [_ ->].
    + pose proof (spaceless_before _ _ _ Hcur Hcut Hb) as ->.
      ssimpl_in Hcut. subst t. left.
      apply append_eq_append in Hrest as [(t & Hcur' & Hafter)|(t & Hw' & Hs)].
      * destruct t as [|c0 t].
        { rewrite append_nil_r in Hcur'. by subst. }
        exfalso. destruct Ha as [->|(c1 & a & -> & Hc1)]; [done|].
        ssimpl_in Hafter. injection Hafter as -> _.
        rewrite Hcur' in Hcur. apply allChars_append in Hcur as [_ Hcur].
        apply allChars_cons in Hcur as [Hcur _]. congruence.
      * destruct t as [|c0 t].
        { rewrite append_nil_r in Hw'. by subst. }
        exfalso. ssimpl_in Hs. injection Hs as <- _.
        rewrite Hw' in Hw. apply allChars_append in Hw as [_ Hw].
        apply allChars_cons in Hw as [Hw _]. congruence.
  - intros [[-> Hne]|(Hne & Hw & before & after & -> & Hb & Ha)].
    + split; [done|]. split; [done|]. exists "", (String c s). ssimpl.
      split; [done|]. split; [by left|]. right. by exists c, s.
    + split; [done|]. split; [done|].
      exists (cur +:+ String c before), after.
      split; [by rewrite append_assoc|]. split; [|done]. right.
      destruct Hb as [->|(b & c1 & -> & Hc1)].
      * by exists cur, c.
      * exists (cur +:+ String c b), c1. split; [|done].
        rewrite append_assoc. by ssimpl.
Qed.

Lemma split_ws_go_tokens s :
  ∀ cur inSep w,
    allChars (λ c, JS.isSpace c = false) cur →
    (inSep = true → cur = "") →
    (w ∈ JS.split_ws_go cur inSep s ∧ w ≠ "") ↔ isToken (cur +:+ s) w.
Proof.
  induction s as [|c s IH]; intros cur inSep w Hcur Hsep.
  - simpl. rewrite append_nil_r, (token_whole _ _ Hcur), list_elem_of_singleton.
    split; [by intros [-> ?] | by intros [-> ?]].
  - simpl. destruct (JS.isSpace c) eqn:Ec.
    + rewrite (token_after_space _ _ _ _ Hcur Ec).
      specialize (IH "" true w (allChars_nil _) (λ _, eq_refl)).
      rewrite append_nil_l in IH. rewrite <-IH.
      destruct inSep.
      * rewrite (Hsep eq_refl). split; [tauto|]. intros [[-> []]|?]; done.
      * rewrite elem_of_cons. split.
        -- intros [[->|?] ?]; [by left | by right].
        -- intros [[-> ?]|[? ?]]; split; auto.
    + rewrite IH; [|apply allChars_append; split; [done|];
                    apply allChars_cons; split; [done|apply allChars_nil]
                   |done].
      by rewrite append_assoc.
Qed.

(** The tokens that [jaccardSimilarity] collects from a string are its
    white-space-delimited words. *)
Lemma tokenSet_spec s w : w ∈ tokenSet s ↔ isToken s w.
Proof.
  unfold tokenSet, JS.split_ws. rewrite elem_of_list_to_set, list_elem_of_filter.
  rewrite <-(append_nil_l s) at 2.
  rewrite <-(split_ws_go_tokens s "" false w (allChars_nil _)) by done.
  assert (Hlen : 0 < JS.length w ↔ w ≠ "").
  { destruct w; simpl; split; (done || lia). }
  tauto.
Qed.

Lemma tokenSet_same a b :
  tokenSet a = tokenSet b ↔ ∀ w, isToken a w ↔ isToken b w.
Proof.
  split.
  - intros H w. by rewrite <-!tokenSet_spec, H.
  - intros H. apply set_eq. intros w. by rewrite !tokenSet_spec.
Qed.

(** C6. For all strings [a], [b]: [jaccardSimilarity] returns 1 when both are
    empty, 0 when exactly one is empty, and otherwise the Jaccard index
    |intersection| / |union| of the sets of non-empty white-space-delimited
    tokens of [a] and [b], a token of a string being a non-empty run of
    characters other than white space that white space or an end of the
    string bounds on either side; and [jaccardSimilarity a a] is 1 for
    every [a]. *)
Theorem jaccardSimilarity_spec (a b : string) :
  jaccardSimilarity "" "" = 1%Q
  ∧ (a ≠ "" → jaccardSimilarity a "" = 0%Q ∧ jaccardSimilarity "" a = 0%Q)
  ∧ (a ≠ "" → b ≠ "" →
     ∃ A B : gset string,
       (∀ w, w ∈ A ↔ isToken a w)
       ∧ (∀ w, w ∈ B ↔ isToken b w)
       ∧ (jaccardSimilarity a b == jaccardIndex A B)%Q)
  ∧ (jaccardSimilarity a a == 1)%Q
  ∧ (jaccardSimilarity "deep  learning" "learning deep deep" == 1)%Q
  ∧ (jaccardSimilarity "deep learning" "deep learning review" == 2 # 3)%Q.
Proof.
  split; [done|]. split; [|split; [|split; [|split]]].
  - intros Ha. by destruct a.
  - intros Ha Hb. exists (tokenSet a), (tokenSet b).
    split; [intros w; apply tokenSet_spec|].
    split; [intros w; apply tokenSet_spec|].
    apply jaccardSimilarity_index; [by destruct a | by destruct b].
  - apply jaccardSimilarity_refl.
  - by vm_compute.
  - by vm_compute.
Qed.

(** X11. For two non-empty strings, [jaccardSimilarity] is 1 exactly when
    they have the same white-space-delimited tokens: the order of the words
    and their repetition do not count. *)
Theorem jaccardSimilarity_one (a b : string) :
  a ≠ "" → b ≠ "" →
  ((jaccardSimilarity a b == 1)%Q ↔ ∀ w, isToken a w ↔ isToken b w).
Proof.
  intros Ha Hb. rewrite jaccardSimilarity_index; [|by destruct a|by destruct b].
  rewrite jaccardIndex_one. apply tokenSet_same.
Qed.

Lemma jaccardSimilarity_one_witness :
  "deep learning" ≠ "" ∧ "learning  deep deep" ≠ ""
  ∧ (∀ w, isToken "deep learning" w ↔ isToken "learning  deep deep" w)
  ∧ (jaccardSimilarity "deep learning" "learning  deep deep" == 1)%Q.
Proof.
  assert (Ha : "deep learning" ≠ "") by discriminate.
  assert (Hb : "learning  deep deep" ≠ "") by discriminate.
  assert (Hsame : ∀ w,
            isToken "deep learning" w ↔ isToken "learning  deep deep" w).
  { apply tokenSet_same. by vm_compute. }
  split; [exact Ha|]. split; [exact Hb|]. split; [exact Hsame|].
  exact (proj2 (jaccardSimilarity_one "deep learning" "learning  deep deep"
                  Ha Hb) Hsame).
Defined.

(* ------------------------------------------------------------------------- *)
(** ** Weights in floating-point arithmetic *)
(* ------------------------------------------------------------------------- *)

Lemma roundHalfEven_error (x : Q) :
  (Qabs (inject_Z (roundHalfEven x) - x) <= 1 # 2)%Q.
Proof.
  unfold roundHalfEven. pose proof (Qfloor_le x) as Hlo.
  pose proof (Qlt_floor x) as Hhi. rewrite inject_Z_plus in Hhi.
  change (inject_Z 1) with 1%Q in Hhi. apply Qabs_Qle_condition.
  destruct (x - inject_Z (Qfloor x) ?= 1 # 2)%Q eqn:E.
  - apply Qeq_alt in E. destruct (Z.even (Qfloor x));
      rewrite ?inject_Z_plus; change (inject_Z 1) with 1%Q; split; lra.
  - apply Qlt_alt in E. split; lra.
  - apply Qgt_alt in E. rewrite inject_Z_plus.
    change (inject_Z 1) with 1%Q. split; lra.
Qed.

Lemma log2_scaled (a : Q) :
  (0 < a)%Q →
  (2 ^ 51 <= a / 2 ^ (Z.log2 (Qnum a) - Z.log2 (Zpos (Qden a)) - 52))%Q.
Proof.
  intros Ha. destruct a as [n d]. simpl Qnum. simpl Qden.
  assert (Hn : (0 < n)%Z).
  { unfold Qlt in Ha. simpl in Ha. lia. }
  set (A := Z.log2 n). set (B := Z.log2 (Z.pos d)).
  assert (HA : (0 <= A)%Z) by apply Z.log2_nonneg.
  assert (HB : (0 <= B)%Z) by apply Z.log2_nonneg.
  destruct (Z.log2_spec n Hn) as [HnA _].
  destruct (Z.log2_spec (Z.pos d) ltac:(lia)) as [_ HdB].
  fold A in HnA. fold B in HdB.
  assert (H2 : ¬ (2 == 0)%Q) by (intros H; discriminate H).
  assert (Hpos : ∀ z, (0 < 2 ^ z)%Q) by (intros z; by apply Qpower_0_lt).
  replace (A - B - 52)%Z with (A + - (Z.succ B) + - 51)%Z by lia.
  rewrite !Qpower_plus by done. rewrite (Qpower_opp 2 (Z.succ B)).
  assert (Ek : (2 ^ 51 * 2 ^ (-51) == 1)%Q) by reflexivity.
  assert (HnQ : (2 ^ A <= inject_Z n)%Q).
  { rewrite <-(Zpower_Qpower 2 A HA). by rewrite <-Zle_Qle. }
  assert (HdQ : (inject_Z (Z.pos d) <= 2 ^ Z.succ B)%Q).
  { rewrite <-(Zpower_Qpower 2 (Z.succ B)) by lia. rewrite <-Zle_Qle. lia. }
  assert (Hd : (0 < inject_Z (Z.pos d))%Q) by (rewrite <-(Zlt_Qlt 0); lia).
  rewrite (Qmake_Qdiv n d).
  pose proof (Hpos A) as HpA. pose proof (Hpos (Z.succ B)) as HpB.
  pose proof (Hpos 51%Z) as Hp51.
  set (x := (2 ^ A)%Q) in *. set (y := (2 ^ Z.succ B)%Q) in *.
  set (k := (2 ^ 51)%Q) in *. set (c := (2 ^ (-51))%Q) in *.
  set (nq := inject_Z n) in *.
  set (dq := inject_Z (Z.pos d)) in *.
  apply Qle_shift_div_l.
  { apply Qmult_lt_0_compat; [apply Qmult_lt_0_compat; [done|]|];
      [by apply Qinv_lt_0_compat | apply Hpos]. }
  assert (E : (k * (x * / y * c) == x / y * (k * c))%Q)
    by (unfold Qdiv; ring).
  rewrite E, Ek, Qmult_1_r. apply Qle_shift_div_l; [done|].
  apply Qle_trans with x; [|done].
  assert (Hxy : (0 < x / y)%Q).
  { apply Qlt_shift_div_l; [done|]. by rewrite Qmult_0_l. }
  apply Qle_trans with (x / y * y)%Q; [by apply Qmult_le_l|].
  apply Qle_lteq. right. field. lra.
Qed.

(** Rounding to a double changes a number by at most the unit roundoff,
    relative to its magnitude. *)
Lemma round64_error (x : Q) :
  (Qabs (round64 x - x) <= unitRoundoff * Qabs x)%Q.
Proof.
  unfold unitRoundoff.
  unfold round64. destruct (Qeq_bool x 0) eqn:E0.
  { apply Qeq_bool_eq in E0. rewrite E0. by vm_compute. }
  assert (Hx : ¬ (x == 0)%Q).
  { intros H%Qeq_eq_bool. congruence. }
  assert (Ha : (0 < Qabs x)%Q).
  { destruct (Qle_lt_or_eq _ _ (Qabs_nonneg x)) as [H|H]; [done|].
    exfalso. apply Hx.
    destruct (Qabs_Qle_condition x 0) as [Hc _].
    destruct Hc as [H1 H2]; [rewrite <-H; lra|]. lra. }
  set (a := Qabs x) in *.
  set (e0 := (Z.log2 (Qnum a) - Z.log2 (Z.pos (Qden a)) - 52)%Z).
  pose proof (log2_scaled a Ha) as Hlow. fold e0 in Hlow.
  set (e := if Qle_bool (2 ^ 52) (a / 2 ^ e0) then e0 else (e0 - 1)%Z).
  assert (Hp : ∀ z, (0 < 2 ^ z)%Q) by (intros z; by apply Qpower_0_lt).
  assert (He : (2 ^ 52 <= a / 2 ^ e)%Q).
  { subst e. destruct (Qle_bool (2 ^ 52) (a / 2 ^ e0)) eqn:E.
    - by apply Qle_bool_iff.
    - replace (e0 - 1)%Z with (e0 + -1)%Z by lia.
      rewrite Qpower_plus by (intros H; discriminate H).
      change (2 ^ (-1))%Q with (1 # 2)%Q.
      pose proof (Hp e0) as Hpe. set (p := (2 ^ e0)%Q) in *.
      assert (Eq2 : (a / (p * (1 # 2)) == 2 * (a / p))%Q) by (field; lra).
      rewrite Eq2. change (2 ^ 52)%Q with (2 * 2 ^ 51)%Q. lra. }
  pose proof (roundHalfEven_error (a / 2 ^ e)) as Hr.
  set (m := inject_Z (roundHalfEven (a / 2 ^ e))) in *.
  pose proof (Hp e) as Hpe. set (p := (2 ^ e)%Q) in *.
  assert (Hma : (Qabs (m * p - a) <= (1 # 2 ^ 53) * a)%Q).
  { assert (Eq : (m * p - a == (m - a / p) * p)%Q) by (field; lra).
    rewrite Eq, Qabs_Qmult, (Qabs_pos p) by lra.
    apply Qle_trans with ((1 # 2) * p)%Q; [apply Qmult_le_compat_r; [exact Hr|lra]|].
    assert (Hap : (2 ^ 52 * p <= a)%Q).
    { assert (Eap : (a == a / p * p)%Q) by (field; lra).
      rewrite Eap. apply Qmult_le_compat_r; lra. }
    change (2 ^ 52)%Q with 4503599627370496%Q in Hap.
    change (1 # 2 ^ 53)%Q with (1 # 9007199254740992)%Q. lra. }
  destruct (Qle_bool 0 x) eqn:Es.
  - apply Qle_bool_iff in Es.
    assert (Eax : (a == x)%Q) by (by apply Qabs_pos).
    rewrite <-Eax. exact Hma.
  - assert (Hneg : (x <= 0)%Q).
    { apply Qnot_lt_le. intros H. apply Qlt_le_weak, Qle_bool_iff in H.
      congruence. }
    assert (Eax : (a == - x)%Q) by (by apply Qabs_neg).
    assert (Eq : (- (m * p) - x == - (m * p - a))%Q) by (rewrite Eax; ring).
    rewrite Eq, Qabs_opp. exact Hma.
Qed.

Lemma Qsum_snoc l x : (Qsum (l ++ [x]) == Qsum l + x)%Q.
Proof. induction l as [|y l IH]; simpl; [ring | rewrite IH; ring]. Qed.

Lemma Qsum_nonneg l : Forall (λ x, 0 <= x)%Q l → (0 <= Qsum l)%Q.
Proof. induction 1; simpl; lra. Qed.

Lemma power_one x n : (x == 1)%Q → (power x n == 1)%Q.
Proof. intros Hx. induction n as [|n IH]; simpl; [done|]. rewrite IH, Hx. ring. Qed.

Section Rounding.
Context (rnd : Q → Q) (u : Q).
Hypothesis Hu : (0 <= u < 1)%Q.
Hypothesis Hrnd : ∀ x, (Qabs (rnd x - x) <= u * Qabs x)%Q.

Lemma rnd_bounds x : (0 <= x)%Q → ((1 - u) * x <= rnd x <= (1 + u) * x)%Q.
Proof.
  intros Hx. pose proof (Hrnd x) as H. rewrite (Qabs_pos x Hx) in H.
  apply Qabs_Qle_condition in H. split; lra.
Qed.

Lemma rnd_zero x : (x == 0)%Q → (rnd x == 0)%Q.
Proof.
  intros Hx. destruct (rnd_bounds x) as [H1 H2]; [lra|].
  assert (Hux : (u * x == 0)%Q) by (rewrite Hx; ring). lra.
Qed.

Lemma pow_down n : (0 < power (1 - u) n <= 1)%Q.
Proof.
  induction n as [|n [IH1 IH2]]; simpl; [lra|]. split.
  - apply Qmult_lt_0_compat; lra.
  - apply Qle_trans with (1 * power (1 - u) n)%Q; [|lra].
    apply Qmult_le_compat_r; lra.
Qed.

Lemma pow_up n : (1 <= power (1 + u) n)%Q.
Proof.
  induction n as [|n IH]; simpl; [lra|].
  apply Qle_trans with (1 * power (1 + u) n)%Q; [lra|].
  apply Qmult_le_compat_r; lra.
Qed.

Lemma sumWeights_snoc weights kv :
  Float.sumWeights rnd (weights ++ [kv])
  = rnd (Float.sumWeights rnd weights + kv.2)%Q.
Proof. unfold Float.sumWeights. by rewrite foldl_snoc. Qed.

Lemma sumWeights_bounds weights :
  Forall (λ kv, 0 <= kv.2)%Q weights →
  (power (1 - u) (length weights) * Qsum weights.*2
     <= Float.sumWeights rnd weights
     <= power (1 + u) (length weights) * Qsum weights.*2)%Q.
Proof.
  induction weights as [|kv weights IH] using rev_ind; intros Hall.
  { simpl. unfold Float.sumWeights. simpl. lra. }
  apply Forall_app in Hall as [Hall Hkv]. apply Forall_cons in Hkv as [Hkv _].
  specialize (IH Hall). rewrite sumWeights_snoc, fmap_app, length_app.
  simpl fmap. rewrite Qsum_snoc. simpl length.
  replace (length weights + 1) with (S (length weights)) by lia. simpl power.
  pose proof (pow_down (length weights)) as [Hd0 Hd1].
  pose proof (pow_up (length weights)) as Hu1.
  assert (Hsum : (0 <= Qsum weights.*2)%Q).
  { apply Qsum_nonneg, Forall_fmap. by eapply Forall_impl. }
  set (S := Float.sumWeights rnd weights) in *.
  set (T := Qsum weights.*2) in *. set (x := kv.2) in *.
  set (d := power (1 - u) (length weights)) in *.
  set (p := power (1 + u) (length weights)) in *.
  assert (HS : (0 <= S)%Q).
  { apply Qle_trans with (d * T)%Q; [|lra]. apply Qmult_le_0_compat; lra. }
  destruct (rnd_bounds (S + x)) as [Hlo Hhi]; [lra|].
  assert (Hdx : (d * x <= x)%Q).
  { apply Qle_trans with (1 * x)%Q; [apply Qmult_le_compat_r; lra|lra]. }
  assert (Hpx : (x <= p * x)%Q).
  { apply Qle_trans with (1 * x)%Q; [lra|apply Qmult_le_compat_r; lra]. }
  split.
  - apply Qle_trans with ((1 - u) * (S + x))%Q; [|done].
    assert (E : ((1 - u) * d * (T + x) == (1 - u) * (d * T + d * x))%Q) by ring.
    rewrite E. apply Qmult_le_l; lra.
  - apply Qle_trans with ((1 + u) * (S + x))%Q; [done|].
    assert (E : ((1 + u) * p * (T + x) == (1 + u) * (p * T + p * x))%Q) by ring.
    rewrite E. apply Qmult_le_l; lra.
Qed.

Lemma normalized_bounds (total : Q) weights :
  (0 < total)%Q →
  Forall (λ kv, 0 <= kv.2)%Q weights →
  let normalized :=
    (λ kv : string * Q, (kv.1, Float.div rnd kv.2 total)) <$> weights in
  Forall (λ kv, 0 <= kv.2)%Q normalized
  ∧ ((1 - u) * (Qsum weights.*2 / total)
       <= Qsum normalized.*2
       <= (1 + u) * (Qsum weights.*2 / total))%Q.
Proof.
  intros Htotal. induction 1 as [|kv weights Hkv Hall [IH1 [IH2 IH3]]].
  { simpl. split; [constructor|]. unfold Qdiv. split; ring_simplify; lra. }
  cbv zeta. rewrite !fmap_cons. cbn [Qsum foldr fst snd].
  change (foldr Qplus 0%Q) with Qsum.
  assert (Hq : (0 <= kv.2 / total)%Q).
  { apply Qle_shift_div_l; [done|]. lra. }
  destruct (rnd_bounds _ Hq) as [Hlo Hhi]. unfold Float.div at 1 3 5.
  assert (Hq' : (0 <= (1 - u) * (kv.2 / total))%Q).
  { apply Qmult_le_0_compat; lra. }
  split; [constructor; [simpl; lra | done]|].
  assert (E : ∀ c, (c * ((kv.2 + Qsum weights.*2) / total)
                    == c * (kv.2 / total) + c * (Qsum weights.*2 / total))%Q).
  { intros c. field. lra. }
  rewrite !E. split; lra.
Qed.

Lemma normalizeWeights_bounds weights :
  Forall (λ kv, 0 <= kv.2)%Q weights →
  (0 < Qsum weights.*2)%Q →
  let n := length weights in
  let normalized := Float.normalizeWeights rnd weights in
  normalized.*1 = weights.*1
  ∧ Forall (λ kv, 0 <= kv.2)%Q normalized
  ∧ ((1 - u) / power (1 + u) n <= Qsum normalized.*2
       <= (1 + u) / power (1 - u) n)%Q
  ∧ (power (1 - u) (S n) / power (1 + u) n
       <= Float.sumWeights rnd normalized
       <= power (1 + u) (S n) / power (1 - u) n)%Q.
Proof.
  intros Hall Hpos n normalized.
  pose proof (sumWeights_bounds weights Hall) as [Hlo Hhi]. fold n in Hlo, Hhi.
  pose proof (pow_down n) as [Hd0 Hd1]. pose proof (pow_up n) as Hp1.
  set (total := Float.sumWeights rnd weights) in *.
  set (T := Qsum weights.*2) in *.
  set (d := power (1 - u) n) in *. set (p := power (1 + u) n) in *.
  assert (Htotal : (0 < total)%Q).
  { apply Qlt_le_trans with (d * T)%Q; [|done]. by apply Qmult_lt_0_compat. }
  assert (Hnorm : normalized
    = (λ kv : string * Q, (kv.1, Float.div rnd kv.2 total)) <$> weights).
  { subst normalized. unfold Float.normalizeWeights. fold total.
    destruct (Qeq_bool total 0) eqn:E; [|done].
    apply Qeq_bool_eq in E. lra. }
  destruct (normalized_bounds total weights Htotal Hall) as [Hnn [Hel Heh]].
  rewrite <-Hnorm in Hnn, Hel, Heh. fold T in Hel, Heh.
  assert (Hlen : length normalized = n).
  { by rewrite Hnorm, length_fmap. }
  assert (Hkeys : normalized.*1 = weights.*1).
  { rewrite Hnorm. generalize total. intros t. clear.
    induction weights as [|kv weights IH]; [done|]. simpl. by f_equal. }
  clearbody normalized. split; [done|].
  split; [done|].
  assert (Hratio : (/ p <= T / total <= / d)%Q).
  { split.
    - apply Qle_shift_div_l; [done|].
      assert (E : (/ p * total == total / p)%Q) by (field; lra).
      rewrite E. apply Qle_shift_div_r; [lra|]. rewrite Qmult_comm. done.
    - apply Qle_shift_div_r; [done|].
      assert (E : (/ d * total == total / d)%Q) by (field; lra).
      rewrite E. apply Qle_shift_div_l; [done|]. rewrite Qmult_comm. done. }
  destruct Hratio as [Hr1 Hr2].
  set (E := Qsum normalized.*2) in *. set (r := (T / total)%Q) in *.
  assert (Hip : (0 < / p)%Q) by (apply Qinv_lt_0_compat; lra).
  assert (Hid : (0 < / d)%Q) by (by apply Qinv_lt_0_compat).
  assert (HE : ((1 - u) / p <= E <= (1 + u) / d)%Q).
  { unfold Qdiv. split.
    - apply Qle_trans with ((1 - u) * r)%Q; [|done].
      apply Qmult_le_l; lra.
    - apply Qle_trans with ((1 + u) * r)%Q; [done|].
      apply Qmult_le_l; lra. }
  split; [done|].
  pose proof (sumWeights_bounds normalized Hnn) as [Hflo Hfhi].
  rewrite Hlen in Hflo, Hfhi. fold d p E in Hflo, Hfhi.
  destruct HE as [HE1 HE2]. simpl power. fold d p. split.
  - apply Qle_trans with (d * E)%Q; [|done].
    assert (Eq : ((1 - u) * d / p == d * ((1 - u) / p))%Q) by (field; lra).
    rewrite Eq. apply Qmult_le_l; lra.
  - apply Qle_trans with (p * E)%Q; [done|].
    assert (Eq : ((1 + u) * p / d == p * ((1 + u) / d))%Q) by (field; lra).
    rewrite Eq. apply Qmult_le_l; lra.
Qed.

Lemma normalizeWeights_zero weights :
  Forall (λ kv, kv.2 == 0)%Q weights →
  Float.normalizeWeights rnd weights = weights.
Proof.
  intros Hall. unfold Float.normalizeWeights.
  assert (H0 : (Float.sumWeights rnd weights == 0)%Q).
  { induction weights as [|kv weights IH] using rev_ind; [done|].
    apply Forall_app in Hall as [Hall Hkv].
    apply Forall_cons in Hkv as [Hkv _]. rewrite sumWeights_snoc.
    apply rnd_zero. rewrite (IH Hall), Hkv. ring. }
  apply Qeq_eq_bool in H0. by rewrite H0.
Qed.
End Rounding.

(** C8, amended. For every vector of non-negative weights whose values
    sum to [S > 0], the values sum to 1 after [normalizeWeights] up to
    rounding: when each addition and division is rounded with a relative
    error of at most [u] ([u] is 2^-53 for doubles, 0 for exact arithmetic),
    the exact sum of the [n] new values lies between (1-u)/(1+u)^n and
    (1+u)/(1-u)^n, and their sum as the script adds them up between
    (1-u)^(n+1)/(1+u)^n and (1+u)^(n+1)/(1-u)^n; both are exactly 1 when
    [u] is 0.  The keys are kept.  If all values are 0, [normalizeWeights]
    leaves the vector unchanged. *)
Theorem normalizeWeights_sum_tolerance (rnd : Q → Q) (u : Q)
    (weights : list (string * Q)) :
  (0 <= u < 1)%Q →
  (∀ x, Qabs (rnd x - x) <= u * Qabs x)%Q →
  let n := length weights in
  let normalized := Float.normalizeWeights rnd weights in
  (Forall (λ kv, 0 <= kv.2)%Q weights →
   (0 < Qsum weights.*2)%Q →
   normalized.*1 = weights.*1
   ∧ ((1 - u) / power (1 + u) n <= Qsum normalized.*2
        <= (1 + u) / power (1 - u) n)%Q
   ∧ (power (1 - u) (S n) / power (1 + u) n
        <= Float.sumWeights rnd normalized
        <= power (1 + u) (S n) / power (1 - u) n)%Q
   ∧ ((u == 0)%Q →
      (Qsum normalized.*2 == 1)%Q
      ∧ (Float.sumWeights rnd normalized == 1)%Q))
  ∧ (Forall (λ kv, kv.2 == 0)%Q weights → normalized = weights).
Proof.
  intros Hu Hrnd n normalized. split; [|by apply normalizeWeights_zero with u].
  intros Hall Hpos.
  destruct (normalizeWeights_bounds rnd u Hu Hrnd weights Hall Hpos)
    as (Hkeys & _ & Hexact & Hfloat).
  fold n normalized in Hkeys, Hexact, Hfloat.
  split; [done|]. split; [done|]. split; [done|].
  intros Hu0.
  assert (Hd : (power (1 - u) n == 1)%Q) by (apply power_one; lra).
  assert (Hp : (power (1 + u) n == 1)%Q) by (apply power_one; lra).
  simpl power in Hfloat.
  assert (E1 : ((1 - u) / power (1 + u) n == 1)%Q).
  { rewrite Hp, Hu0. reflexivity. }
  assert (E2 : ((1 + u) / power (1 - u) n == 1)%Q).
  { rewrite Hd, Hu0. reflexivity. }
  assert (E3 : ((1 - u) * power (1 - u) n / power (1 + u) n == 1)%Q).
  { rewrite Hp, Hd, Hu0. reflexivity. }
  assert (E4 : ((1 + u) * power (1 + u) n / power (1 - u) n == 1)%Q).
  { rewrite Hp, Hd, Hu0. reflexivity. }
  rewrite E1, E2 in Hexact. rewrite E3, E4 in Hfloat.
  split; apply Qle_antisym; tauto.
Qed.

Lemma normalizeWeights_sum_tolerance_witness :
  (0 <= unitRoundoff < 1)%Q
  ∧ Forall (λ kv, 0 <= kv.2)%Q tenths
  ∧ (0 < Qsum tenths.*2)%Q
  ∧ (power (1 - unitRoundoff) 4 / power (1 + unitRoundoff) 3
       <= Float.sumWeights round64 (Float.normalizeWeights round64 tenths)
       <= power (1 + unitRoundoff) 4 / power (1 - unitRoundoff) 3)%Q.
Proof.
  assert (Hu : (0 <= unitRoundoff < 1)%Q) by (by vm_compute).
  assert (Hall : Forall (λ kv, 0 <= kv.2)%Q tenths).
  { repeat constructor; by vm_compute. }
  assert (Hpos : (0 < Qsum tenths.*2)%Q) by (by vm_compute).
  split; [exact Hu|]. split; [exact Hall|]. split; [exact Hpos|].
  exact (proj1 (proj2 (proj2 (proj1
           (normalizeWeights_sum_tolerance round64 unitRoundoff tenths Hu
              round64_error) Hall Hpos)))).
Defined.

(** The values that the script obtains from 0.1, 0.2 and 0.3, in doubles:
    their total is 0.6000000000000001, and after normalisation they add up
    to 0.9999999999999999. *)
Lemma tenths_normalized :
  (Float.sumWeights round64 tenths == 5404319552844596 # 2 ^ 53)%Q
  ∧ (Float.sumWeights round64 (Float.normalizeWeights round64 tenths)
     == 1 - unitRoundoff)%Q
  ∧ (Qsum (Float.normalizeWeights round64 tenths).*2 == 1 - (5 # 2 ^ 55))%Q.
Proof. by vm_compute. Qed.

(** On this run [round64] gives the doubles of IEEE 754: the operations of
    the standard library's specification of binary64 arithmetic yield the
    same total and the same sum. *)
Example tenths_binary64 :
  let add := SpecFloat.SFadd 53 1024 in
  let div := SpecFloat.SFdiv 53 1024 in
  let zero := SpecFloat.S754_zero false in
  let w1 := SpecFloat.S754_finite false 7205759403792794 (-56) in
  let w2 := SpecFloat.S754_finite false 7205759403792794 (-55) in
  let w3 := SpecFloat.S754_finite false 5404319552844595 (-54) in
  let total := add (add (add zero w1) w2) w3 in
  let sum := add (add (add zero (div w1 total)) (div w2 total)) (div w3 total) in
  (binary64 w1 == round64 (1 # 10))%Q
  ∧ (binary64 w2 == round64 (2 # 10))%Q
  ∧ (binary64 w3 == round64 (3 # 10))%Q
  ∧ (binary64 total == Float.sumWeights round64 tenths)%Q
  ∧ (binary64 sum
     == Float.sumWeights round64 (Float.normalizeWeights round64 tenths))%Q.
Proof. by vm_compute. Qed.

(** C8 does not hold of the script as stated: the weights 0.1,
    0.2 and 0.3 have a positive sum, and after [normalizeWeights] their sum
    is not 1, neither as the script adds it up nor exactly. *)
Lemma normalizeWeights_sum_not_one :
  ¬ sumsToOne (Float.normalizeWeights round64) (Float.sumWeights round64)
  ∧ ¬ sumsToOne (Float.normalizeWeights round64) (λ weights, Qsum weights.*2).
Proof.
  split; intros H.
  - assert (Hsum := H tenths ltac:(by vm_compute)).
    vm_compute in Hsum. discriminate Hsum.
  - assert (Hsum := H tenths ltac:(by vm_compute)).
    vm_compute in Hsum. discriminate Hsum.
Qed.
